(** * Dump1090: the Mode S demodulator, decoder and aircraft tracker

    A shallow embedding of the parts of [dump1090.c], [interactive.c] and
    [misc.c] that carry the signal-to-message pipeline, with the properties
    the specification states about them.

    Conventions.
    - C integers are [Z]; where a store can truncate, the wrap-around is
      written out ([u8], [u16], [u32], [s64]).
    - C arrays are lists, indexed by [nat]; reading is [default 0 (l !! i)]
      and writing is stdpp's [<[i:=v]>].  The code never indexes out of
      range on the inputs the theorems quantify over; where a theorem needs
      that, it says so in a hypothesis.
    - [double] is IEEE binary64, Rocq's primitive [float]. *)

From Stdlib Require Import ZArith Lia List Bool Ascii String.
From Stdlib Require Import PrimFloat Uint63 SpecFloat FloatOps.
From Stdlib Require Import Reals Lra.
From Stdlib Require FMapPositive.
From stdpp Require Import base list.

Local Open Scope Z_scope.

(** ** Machine integers *)

Definition u8 (x : Z) : Z := x mod 256.
Definition u16 (x : Z) : Z := x mod 65536.
Definition u32 (x : Z) : Z := x mod 4294967296.

(** Conversion of a 64-bit pattern to [int64_t]. *)
Definition s64 (x : Z) : Z :=
  let y := x mod 18446744073709551616 in
  if y <? 9223372036854775808 then y else y - 18446744073709551616.

(** [a[i]] for an array of integers; [0] stands for a read past the end. *)
Definition at_ (a : list Z) (i : nat) : Z := default 0 (a !! i).

(** A buffer of [uint8_t]. *)
Definition is_bytes (a : list Z) : Prop := Forall (λ b, 0 <= b < 256) a.

(** Modelled from the spec: the message lengths, macros of [misc.h], which
    is not among the sources.  The specification has 56- and 112-bit
    messages in frames of 7 and 14 bytes; [modeS_checksum_table] is
    declared with [MODES_LONG_MSG_BITS] entries and holds 112. *)
Definition MODES_LONG_MSG_BITS : nat := 112.
Definition MODES_SHORT_MSG_BITS : nat := 56.
Definition MODES_LONG_MSG_BYTES : nat := 14.
Definition MODES_SHORT_MSG_BYTES : nat := 7.

(** ** Reading and writing arrays *)

Lemma at_insert_eq (a : list Z) (i : nat) (v : Z) :
  (i < length a)%nat → at_ (<[i:=v]> a) i = v.
Proof. intros H. unfold at_. by rewrite list_lookup_insert_eq. Qed.

Lemma at_insert_ne (a : list Z) (i j : nat) (v : Z) :
  i ≠ j → at_ (<[i:=v]> a) j = at_ a j.
Proof. intros H. unfold at_. by rewrite list_lookup_insert_ne. Qed.

Lemma at_bytes (a : list Z) (i : nat) : is_bytes a → 0 <= at_ a i < 256.
Proof.
  intros Ha. unfold at_. destruct (a !! i) as [b|] eqn:E; simpl; [|lia].
  apply (proj1 (Forall_lookup _ _) Ha i b E).
Qed.

(** * The CRC engine ([dump1090.c]) *)

Module Checksum.

(** [modeS_checksum_table]: one 24-bit constant per message bit. *)
Definition modeS_checksum_table : list Z :=
  [ 0x3935EA; 0x1C9AF5; 0xF1B77E; 0x78DBBF; 0xC397DB; 0x9E31E9; 0xB0E2F0; 0x587178;
    0x2C38BC; 0x161C5E; 0x0B0E2F; 0xFA7D13; 0x82C48D; 0xBE9842; 0x5F4C21; 0xD05C14;
    0x682E0A; 0x341705; 0xE5F186; 0x72F8C3; 0xC68665; 0x9CB936; 0x4E5C9B; 0xD8D449;
    0x939020; 0x49C810; 0x24E408; 0x127204; 0x093902; 0x049C81; 0xFDB444; 0x7EDA22;
    0x3F6D11; 0xE04C8C; 0x702646; 0x381323; 0xE3F395; 0x8E03CE; 0x4701E7; 0xDC7AF7;
    0x91C77F; 0xB719BB; 0xA476D9; 0xADC168; 0x56E0B4; 0x2B705A; 0x15B82D; 0xF52612;
    0x7A9309; 0xC2B380; 0x6159C0; 0x30ACE0; 0x185670; 0x0C2B38; 0x06159C; 0x030ACE;
    0x018567; 0xFF38B7; 0x80665F; 0xBFC92B; 0xA01E91; 0xAFF54C; 0x57FAA6; 0x2BFD53;
    0xEA04AD; 0x8AF852; 0x457C29; 0xDD4410; 0x6EA208; 0x375104; 0x1BA882; 0x0DD441;
    0xF91024; 0x7C8812; 0x3E4409; 0xE0D800; 0x706C00; 0x383600; 0x1C1B00; 0x0E0D80;
    0x0706C0; 0x038360; 0x01C1B0; 0x00E0D8; 0x00706C; 0x003836; 0x001C1B; 0xFFF409;
    0x000000; 0x000000; 0x000000; 0x000000; 0x000000; 0x000000; 0x000000; 0x000000;
    0x000000; 0x000000; 0x000000; 0x000000; 0x000000; 0x000000; 0x000000; 0x000000;
    0x000000; 0x000000; 0x000000; 0x000000; 0x000000; 0x000000; 0x000000; 0x000000 ].

(** [1 << (7 - j % 8)]: the mask of message bit [j] inside its byte. *)
Definition bitmask (j : nat) : Z := Z.shiftl 1 (Z.of_nat (7 - j mod 8)).

(** [msg[j / 8] & bitmask] as a C condition. *)
Definition bit_set (msg : list Z) (j : nat) : bool :=
  negb (Z.land (at_ msg (j / 8)) (bitmask j) =? 0).

(** The table offset: short messages use the last 56 entries. *)
Definition checksum_offset (bits : nat) : nat :=
  if Nat.eqb bits MODES_LONG_MSG_BITS then 0%nat
  else (MODES_LONG_MSG_BITS - MODES_SHORT_MSG_BITS)%nat.

(** One turn of the loop of [modeS_checksum]. *)
Definition checksum_step (msg : list Z) (offset : nat) (crc : Z) (j : nat) : Z :=
  if bit_set msg j then Z.lxor crc (at_ modeS_checksum_table (j + offset)) else crc.

(** [modeS_checksum (msg, bits)]. *)
Definition modeS_checksum (msg : list Z) (bits : nat) : Z :=
  fold_left (checksum_step msg (checksum_offset bits)) (seq 0 bits) 0.

(** [modeS_message_len_by_type]. *)
Definition modeS_message_len_by_type (type : Z) : nat :=
  if (type =? 16) || (type =? 17) || (type =? 19) || (type =? 20) || (type =? 21)
  then MODES_LONG_MSG_BITS else MODES_SHORT_MSG_BITS.

(** The trailing 24 bits of the first [bits/8] bytes, as
    [decode_modeS_message] and the two fixers read them. *)
Definition crc_field (msg : list Z) (bits : nat) : Z :=
  Z.lor (Z.lor (Z.shiftl (at_ msg (bits / 8 - 3)) 16)
               (Z.shiftl (at_ msg (bits / 8 - 2)) 8))
        (at_ msg (bits / 8 - 1)).

(** The check of the spec: the computed value against the trailing 24 bits
    ([mm->CRC == crc2] in [decode_modeS_message], [crc1 == crc2] in the
    fixers). *)
Definition check (msg : list Z) (bits : nat) : bool :=
  crc_field msg bits =? modeS_checksum msg bits.

(** [aux[i / 8] ^= 1 << (7 - i % 8)], stored into a [uint8_t]. *)
Definition flip_bit (aux : list Z) (i : nat) : list Z :=
  <[(i / 8)%nat := u8 (Z.lxor (at_ aux (i / 8)) (bitmask i))]> aux.

(** The loop of [fix_single_bit_errors], [n] turns left, at bit [i].
    [aux] is a copy of the first [bits/8] bytes of [msg]; on a match it is
    copied back over them. *)
Fixpoint fix_single_loop (msg : list Z) (bits n i : nat) : Z * list Z :=
  match n with
  | O => (-1, msg)
  | S n' =>
      let aux := flip_bit (take (bits / 8) msg) i in
      if crc_field aux bits =? modeS_checksum aux bits
      then (Z.of_nat i, aux ++ drop (bits / 8) msg)
      else fix_single_loop msg bits n' (S i)
  end.

(** [fix_single_bit_errors (msg, bits)]: the returned index and the buffer
    afterwards. *)
Definition fix_single_bit_errors (msg : list Z) (bits : nat) : Z * list Z :=
  fix_single_loop msg bits bits 0.

(** The inner loop of [fix_two_bits_errors]: bit [j] fixed, [i] running. *)
Fixpoint fix_two_inner (msg : list Z) (bits j n i : nat) : option (Z * list Z) :=
  match n with
  | O => None
  | S n' =>
      let aux := flip_bit (flip_bit (take (bits / 8) msg) j) i in
      if crc_field aux bits =? modeS_checksum aux bits
      then Some (Z.lor (Z.of_nat j) (Z.shiftl (Z.of_nat i) 8),
                 aux ++ drop (bits / 8) msg)
      else fix_two_inner msg bits j n' (S i)
  end.

(** The outer loop of [fix_two_bits_errors]. *)
Fixpoint fix_two_outer (msg : list Z) (bits n j : nat) : Z * list Z :=
  match n with
  | O => (-1, msg)
  | S n' =>
      match fix_two_inner msg bits j (bits - (j + 1)) (j + 1) with
      | Some r => r
      | None => fix_two_outer msg bits n' (S j)
      end
  end.

(** [fix_two_bits_errors (msg, bits)]. *)
Definition fix_two_bits_errors (msg : list Z) (bits : nat) : Z * list Z :=
  fix_two_outer msg bits bits 0.

(** Writing a 24-bit value into the trailing three bytes, most significant
    byte first: the inverse of [crc_field].  The repository has no encoder;
    this is the operation the specification applies before [check]. *)
Definition store_crc (msg : list Z) (bits : nat) (crc : Z) : list Z :=
  <[(bits / 8 - 1)%nat := Z.land crc 255]>
    (<[(bits / 8 - 2)%nat := Z.land (Z.shiftr crc 8) 255]>
       (<[(bits / 8 - 3)%nat := Z.land (Z.shiftr crc 16) 255]> msg)).

(** ** Bit-level facts *)

Lemma land_shiftl_1 (a s : Z) :
  0 <= s → (Z.land a (Z.shiftl 1 s) =? 0) = negb (Z.testbit a s).
Proof.
  intros Hs. rewrite Z.shiftl_1_l.
  destruct (Z.testbit a s) eqn:Hb; simpl.
  - apply Z.eqb_neq. intros H0.
    assert (Ht : Z.testbit (Z.land a (2 ^ s)) s = true).
    { rewrite Z.land_spec, Hb, Z.pow2_bits_true; auto. }
    rewrite H0, Z.bits_0 in Ht. discriminate.
  - apply Z.eqb_eq. apply Z.bits_inj'. intros n Hn.
    rewrite Z.land_spec, Z.bits_0, Z.pow2_bits_eqb by lia.
    destruct (Z.eqb_spec s n) as [->|]; [rewrite Hb|]; auto using andb_false_r.
Qed.

Lemma bit_set_testbit (msg : list Z) (j : nat) :
  bit_set msg j = Z.testbit (at_ msg (j / 8)) (Z.of_nat (7 - j mod 8)).
Proof.
  unfold bit_set, bitmask. rewrite land_shiftl_1 by lia. apply negb_involutive.
Qed.

(** Index arithmetic of a bit inside its byte. *)
Lemma bit_index_split (j k : nat) :
  (j / 8 = k / 8)%nat → (j mod 8 = k mod 8)%nat → j = k.
Proof.
  intros Hq Hr.
  rewrite (Nat.div_mod_eq j 8), (Nat.div_mod_eq k 8). lia.
Qed.

(** Flipping bit [k] changes bit [k] and no other. *)
Lemma bit_set_flip (aux : list Z) (k j : nat) :
  (k / 8 < length aux)%nat →
  bit_set (flip_bit aux k) j = xorb (bit_set aux j) (Nat.eqb j k).
Proof.
  intros Hk. rewrite !bit_set_testbit. unfold flip_bit.
  destruct (Nat.eq_dec (j / 8)%nat (k / 8)%nat) as [Hq|Hq].
  - rewrite Hq, at_insert_eq by done.
    unfold u8. change 256 with (2 ^ 8).
    rewrite Z.testbit_mod_pow2 by lia.
    assert (Hlt : (Z.of_nat (7 - j mod 8) <? 8) = true).
    { apply Z.ltb_lt. lia. }
    rewrite Hlt, andb_true_l, Z.lxor_spec. f_equal.
    unfold bitmask. rewrite Z.shiftl_1_l, Z.pow2_bits_eqb by lia.
    pose proof (Nat.mod_upper_bound j 8 ltac:(lia)).
    pose proof (Nat.mod_upper_bound k 8 ltac:(lia)).
    destruct (Nat.eqb_spec j k) as [->|Hne].
    + apply Z.eqb_refl.
    + apply Z.eqb_neq. intros He.
      apply Hne, bit_index_split; [done | lia].
  - rewrite at_insert_ne by done.
    destruct (Nat.eqb_spec j k) as [->|]; [done|].
    by rewrite xorb_false_r.
Qed.

(** ** The parity table *)

Lemma table_tail_zero (i : nat) :
  (88 <= i)%nat → at_ modeS_checksum_table i = 0.
Proof.
  intros Hi. unfold at_.
  replace i with (88 + (i - 88))%nat by lia.
  rewrite <- lookup_drop.
  change (drop 88 modeS_checksum_table) with (replicate 24 0).
  destruct (replicate 24 0 !! (i - 88)%nat) as [x|] eqn:E; [|done].
  apply lookup_replicate in E. simpl. tauto.
Qed.

Lemma table_head_nonzero (i : nat) :
  (i < 88)%nat → at_ modeS_checksum_table i ≠ 0.
Proof.
  intros Hi.
  assert (Hall : Forall (λ x, x ≠ 0) (take 88 modeS_checksum_table)).
  { repeat (constructor; [discriminate|]). constructor. }
  unfold at_. rewrite <- (lookup_take_lt _ 88) by done.
  destruct (take 88 modeS_checksum_table !! i) as [x|] eqn:E.
  - apply (proj1 (Forall_lookup _ _) Hall i x E).
  - apply lookup_ge_None in E. revert E. rewrite length_take.
    change (length modeS_checksum_table) with 112%nat. lia.
Qed.

Lemma table_range (i : nat) : 0 <= at_ modeS_checksum_table i < 2 ^ 24.
Proof.
  assert (Hall : Forall (λ x, 0 <= x < 2 ^ 24) modeS_checksum_table).
  { repeat (constructor; [split; [discriminate | reflexivity]|]). constructor. }
  unfold at_. destruct (modeS_checksum_table !! i) as [x|] eqn:E; simpl.
  - apply (proj1 (Forall_lookup _ _) Hall i x E).
  - split; [done | reflexivity].
Qed.

Lemma lxor_range (a b : Z) (n : Z) :
  0 <= n → 0 <= a < 2 ^ n → 0 <= b < 2 ^ n → 0 <= Z.lxor a b < 2 ^ n.
Proof.
  intros Hn Ha Hb.
  assert (H0 : 0 <= Z.lxor a b) by (apply Z.lxor_nonneg; lia).
  split; [done|].
  destruct (Z.eq_dec (Z.lxor a b) 0) as [->|Hnz]; [lia|].
  assert (Hpos : 0 < n).
  { destruct (Z.eq_dec n 0) as [->|]; [|lia]. exfalso. apply Hnz.
    replace a with 0 by (simpl in Ha; lia). replace b with 0 by (simpl in Hb; lia).
    reflexivity. }
  apply Z.log2_lt_pow2; [lia|].
  eapply Z.le_lt_trans; [apply Z.log2_lxor; lia|].
  apply Z.max_lub_lt.
  - destruct (Z.eq_dec a 0) as [->|]; [simpl; lia|]. apply Z.log2_lt_pow2; lia.
  - destruct (Z.eq_dec b 0) as [->|]; [simpl; lia|]. apply Z.log2_lt_pow2; lia.
Qed.

Lemma lor_shiftl_add (hi lo n : Z) :
  0 <= n → 0 <= lo < 2 ^ n → Z.lor (Z.shiftl hi n) lo = hi * 2 ^ n + lo.
Proof.
  intros Hn Hlo.
  assert (Hd : Z.land (Z.shiftl hi n) lo = 0).
  { apply Z.bits_inj'. intros m Hm. rewrite Z.land_spec, Z.bits_0.
    destruct (Z.lt_ge_cases m n) as [Hlt|Hge].
    - by rewrite Z.shiftl_spec_low.
    - rewrite <- (Z.mod_small lo (2 ^ n)) by done.
      rewrite Z.mod_pow2_bits_high by lia. apply andb_false_r. }
  rewrite <- Z.lxor_lor by done.
  rewrite <- Z.add_nocarry_lxor by done.
  by rewrite Z.shiftl_mul_pow2.
Qed.

(** Three bytes put together as [(a << 16) | (b << 8) | c]. *)
Lemma be24_sum (a b c : Z) :
  0 <= a < 256 → 0 <= b < 256 → 0 <= c < 256 →
  Z.lor (Z.lor (Z.shiftl a 16) (Z.shiftl b 8)) c = a * 65536 + b * 256 + c.
Proof.
  intros Ha Hb Hc.
  rewrite (lor_shiftl_add a (Z.shiftl b 8) 16).
  - replace (a * 2 ^ 16 + Z.shiftl b 8) with (Z.shiftl (a * 256 + b) 8)
      by (rewrite !Z.shiftl_mul_pow2 by lia; lia).
    rewrite lor_shiftl_add by lia. lia.
  - lia.
  - rewrite Z.shiftl_mul_pow2 by lia. lia.
Qed.

(** For a buffer of bytes the 24-bit field is their big-endian value. *)
Lemma crc_field_sum (msg : list Z) (bits : nat) :
  is_bytes msg →
  crc_field msg bits =
    at_ msg (bits / 8 - 3) * 65536 + at_ msg (bits / 8 - 2) * 256
    + at_ msg (bits / 8 - 1).
Proof. intros Hb. apply be24_sum; by apply at_bytes. Qed.

(** ** The checksum as an exclusive-or of table entries *)

Lemma checksum_fold_acc (msg : list Z) (off : nat) (l : list nat) (crc : Z) :
  fold_left (checksum_step msg off) l crc
  = Z.lxor crc (fold_left (checksum_step msg off) l 0).
Proof.
  revert crc. induction l as [|a l IH]; intros crc; simpl.
  - by rewrite Z.lxor_0_r.
  - rewrite IH, (IH (checksum_step msg off 0 a)).
    unfold checksum_step. destruct (bit_set msg a).
    + by rewrite Z.lxor_0_l, Z.lxor_assoc.
    + by rewrite Z.lxor_0_l.
Qed.

Lemma checksum_fold_range (msg : list Z) (off : nat) (l : list nat) (crc : Z) :
  0 <= crc < 2 ^ 24 →
  0 <= fold_left (checksum_step msg off) l crc < 2 ^ 24.
Proof.
  revert crc. induction l as [|a l IH]; intros crc Hc; simpl; [done|].
  apply IH. unfold checksum_step. destruct (bit_set msg a); [|done].
  apply lxor_range; [lia | done | apply table_range].
Qed.

Lemma modeS_checksum_range (msg : list Z) (bits : nat) :
  0 <= modeS_checksum msg bits < 2 ^ 24.
Proof. apply checksum_fold_range. split; [done | reflexivity]. Qed.

(** The checksum reads only the bits whose table entry is not zero. *)
Lemma checksum_fold_ext (msg msg' : list Z) (off : nat) (l : list nat) (crc : Z) :
  (∀ j, j ∈ l → at_ modeS_checksum_table (j + off) ≠ 0 →
        bit_set msg j = bit_set msg' j) →
  fold_left (checksum_step msg off) l crc
  = fold_left (checksum_step msg' off) l crc.
Proof.
  revert crc. induction l as [|a l IH]; intros crc H; simpl; [done|].
  assert (Hstep : checksum_step msg off crc a = checksum_step msg' off crc a).
  { unfold checksum_step.
    destruct (Z.eq_dec (at_ modeS_checksum_table (a + off)) 0) as [->|Hnz].
    - rewrite Z.lxor_0_r. by destruct (bit_set msg a), (bit_set msg' a).
    - rewrite (H a); [done | by left | done]. }
  rewrite Hstep. apply IH. intros j Hj. apply H. by right.
Qed.

(** Flipping one bit XORs that bit's table entry into the checksum. *)
Lemma checksum_fold_flip (aux : list Z) (off k : nat) (l : list nat) :
  NoDup l → (k / 8 < length aux)%nat →
  fold_left (checksum_step (flip_bit aux k) off) l 0
  = Z.lxor (fold_left (checksum_step aux off) l 0)
           (if decide (k ∈ l) then at_ modeS_checksum_table (k + off) else 0).
Proof.
  intros Hnd Hk. induction Hnd as [|a l Ha Hnd IH]; simpl.
  - reflexivity.
  - rewrite checksum_fold_acc, (checksum_fold_acc aux), IH.
    unfold checksum_step at 1 3. rewrite bit_set_flip by done.
    destruct (Nat.eqb_spec a k) as [->|Hne].
    + rewrite (decide_False (P := k ∈ l)) by done.
      rewrite (decide_True (P := k ∈ k :: l)) by by left.
      rewrite Z.lxor_0_r.
      destruct (bit_set aux k); simpl; rewrite !Z.lxor_0_l.
      * by rewrite (Z.lxor_comm (at_ _ _)), Z.lxor_assoc, Z.lxor_nilpotent, Z.lxor_0_r.
      * apply Z.lxor_comm.
    + rewrite xorb_false_r.
      destruct (decide (k ∈ l)) as [Hin|Hin].
      * rewrite (decide_True (P := k ∈ a :: l)) by by right.
        by rewrite Z.lxor_assoc.
      * rewrite (decide_False (P := k ∈ a :: l)).
        { by rewrite Z.lxor_assoc. }
        intros [?|?]%elem_of_cons; congruence.
Qed.

Lemma modeS_checksum_flip (aux : list Z) (bits k : nat) :
  (k < bits)%nat → (k / 8 < length aux)%nat →
  modeS_checksum (flip_bit aux k) bits
  = Z.lxor (modeS_checksum aux bits)
           (at_ modeS_checksum_table (k + checksum_offset bits)).
Proof.
  intros Hk Hlen. unfold modeS_checksum.
  rewrite checksum_fold_flip by (done || apply NoDup_seq).
  rewrite decide_True; [done|]. apply elem_of_seq. lia.
Qed.

(** ** Writing the checksum into the frame *)

Lemma crc_field_store (msg : list Z) (bits : nat) (v : Z) :
  (3 <= bits / 8 <= length msg)%nat → 0 <= v < 2 ^ 24 →
  crc_field (store_crc msg bits v) bits = v.
Proof.
  intros Hlen Hv. unfold crc_field, store_crc.
  rewrite at_insert_eq by (rewrite !length_insert; lia).
  rewrite (at_insert_ne _ _ (bits / 8 - 2)) by lia.
  rewrite at_insert_eq by (rewrite length_insert; lia).
  rewrite !(at_insert_ne _ _ (bits / 8 - 3)) by lia.
  rewrite at_insert_eq by lia.
  change 255 with (Z.ones 8).
  rewrite !Z.land_ones, !Z.shiftr_div_pow2 by lia.
  rewrite be24_sum by (apply Z.mod_pos_bound; lia).
  change (2 ^ 24) with 16777216 in Hv.
  change (2 ^ 16) with 65536. change (2 ^ 8) with 256.
  Z.div_mod_to_equations. lia.
Qed.

Lemma bit_set_store (msg : list Z) (bits : nat) (v : Z) (j : nat) :
  (j / 8 < bits / 8 - 3)%nat →
  bit_set (store_crc msg bits v) j = bit_set msg j.
Proof.
  intros Hj. unfold bit_set, store_crc. by rewrite !at_insert_ne by lia.
Qed.

(** The checksum does not read the last 24 bits of the message. *)
Lemma checksum_reads_body (bits j : nat) :
  (bits = 56 ∨ bits = 112)%nat → (j < bits)%nat →
  at_ modeS_checksum_table (j + checksum_offset bits) ≠ 0 →
  (j / 8 < bits / 8 - 3)%nat.
Proof.
  intros Hbits Hj Hnz.
  assert (Hlt : (j + checksum_offset bits < 88)%nat).
  { destruct (Nat.lt_ge_cases (j + checksum_offset bits) 88) as [|Hge]; [done|].
    by apply table_tail_zero in Hge. }
  destruct Hbits as [-> | ->].
  - change (checksum_offset 56) with 56%nat in Hlt.
    change (56 / 8 - 3)%nat with 4%nat.
    apply Nat.Div0.div_lt_upper_bound; lia.
  - change (checksum_offset 112) with 0%nat in Hlt.
    change (112 / 8 - 3)%nat with 11%nat.
    apply Nat.Div0.div_lt_upper_bound; lia.
Qed.

(** C2.  For a 7-byte frame with [nbits = 56] and for a 14-byte frame with
    [nbits = 112]: computing the Mode S checksum of the frame and writing it
    into the trailing three bytes gives a frame that passes [check], that
    is, whose recomputed checksum equals its trailing 24 bits. *)
Theorem store_checksum_passes_check (msg : list Z) (bits : nat) :
  (length msg = 7%nat ∧ bits = 56%nat) ∨ (length msg = 14%nat ∧ bits = 112%nat) →
  check (store_crc msg bits (modeS_checksum msg bits)) bits = true.
Proof.
  intros Hshape.
  assert (Hbits : (bits = 56 ∨ bits = 112)%nat) by tauto.
  assert (Hlen : (3 <= bits / 8 <= length msg)%nat).
  { destruct Hshape as [[-> ->] | [-> ->]]; cbn; lia. }
  unfold check. apply Z.eqb_eq.
  rewrite crc_field_store by (done || apply modeS_checksum_range).
  unfold modeS_checksum at 2. symmetry.
  apply checksum_fold_ext. intros j Hj Hnz.
  apply elem_of_seq in Hj. apply bit_set_store.
  apply checksum_reads_body; [done | lia | done].
Qed.

Lemma store_checksum_passes_check_witness :
  let msg := [0x8D; 0x48; 0x40; 0xD6; 0x20; 0x2C; 0xC3; 0x71; 0xC3; 0x2C; 0xE0; 0; 0; 0] in
  ((length msg = 7%nat ∧ 112%nat = 56%nat) ∨ (length msg = 14%nat ∧ 112%nat = 112%nat))
  ∧ check (store_crc msg 112 (modeS_checksum msg 112)) 112 = true.
Proof.
  intros msg.
  assert (H : (length msg = 7%nat ∧ 112%nat = 56%nat)
              ∨ (length msg = 14%nat ∧ 112%nat = 112%nat)).
  { right. split; reflexivity. }
  split; [exact H | exact (store_checksum_passes_check msg 112 H)].
Defined.

(** ** The single-bit fixer *)

Lemma is_bytes_flip (aux : list Z) (k : nat) : is_bytes aux → is_bytes (flip_bit aux k).
Proof.
  intros H. unfold flip_bit, is_bytes. apply Forall_insert; [done|].
  unfold u8. apply Z.mod_pos_bound. lia.
Qed.

(** A flip changes the byte it is applied to. *)
Lemma flip_changes_byte (aux : list Z) (k : nat) :
  is_bytes aux → (k / 8 < length aux)%nat →
  at_ (flip_bit aux k) (k / 8) ≠ at_ aux (k / 8).
Proof.
  intros Hb Hk He.
  assert (Hbit : bit_set (flip_bit aux k) k = negb (bit_set aux k)).
  { rewrite bit_set_flip by done. rewrite Nat.eqb_refl. apply xorb_true_r. }
  rewrite !bit_set_testbit, He in Hbit.
  by destruct (Z.testbit (at_ aux (k / 8)) (Z.of_nat (7 - k mod 8))).
Qed.

Lemma flip_bit_other (aux : list Z) (k i : nat) :
  i ≠ (k / 8)%nat → at_ (flip_bit aux k) i = at_ aux i.
Proof. intros H. unfold flip_bit. by rewrite at_insert_ne. Qed.

(** A flip in the body leaves the trailing 24 bits as they are. *)
Lemma crc_field_flip_body (aux : list Z) (bits k : nat) :
  (k / 8 < bits / 8 - 3)%nat →
  crc_field (flip_bit aux k) bits = crc_field aux bits.
Proof.
  intros Hk. unfold crc_field, flip_bit. by rewrite !at_insert_ne by lia.
Qed.

(** A flip in the trailing 24 bits changes them. *)
Lemma crc_field_flip_tail (aux : list Z) (bits k : nat) :
  is_bytes aux → (3 <= bits / 8)%nat → length aux = (bits / 8)%nat →
  (bits / 8 - 3 <= k / 8 < bits / 8)%nat →
  crc_field (flip_bit aux k) bits ≠ crc_field aux bits.
Proof.
  intros Hb H3 Hlen Hk.
  pose proof (flip_changes_byte aux k Hb ltac:(lia)) as Hne.
  pose proof (is_bytes_flip aux k Hb) as Hb'.
  rewrite !crc_field_sum by done.
  pose proof (at_bytes _ (bits / 8 - 3) Hb).
  pose proof (at_bytes _ (bits / 8 - 2) Hb).
  pose proof (at_bytes _ (bits / 8 - 1) Hb).
  pose proof (at_bytes _ (bits / 8 - 3) Hb').
  pose proof (at_bytes _ (bits / 8 - 2) Hb').
  pose proof (at_bytes _ (bits / 8 - 1) Hb').
  destruct (Nat.eq_dec (k / 8)%nat (bits / 8 - 3)%nat) as [E|E];
    [|destruct (Nat.eq_dec (k / 8)%nat (bits / 8 - 2)%nat) as [E'|E']].
  - rewrite E in Hne.
    rewrite !(flip_bit_other aux k (bits / 8 - 2)),
            !(flip_bit_other aux k (bits / 8 - 1)) by lia. lia.
  - rewrite E' in Hne.
    rewrite !(flip_bit_other aux k (bits / 8 - 3)),
            !(flip_bit_other aux k (bits / 8 - 1)) by lia. lia.
  - assert (E'' : (k / 8 = bits / 8 - 1)%nat) by lia.
    rewrite E'' in Hne.
    rewrite !(flip_bit_other aux k (bits / 8 - 3)),
            !(flip_bit_other aux k (bits / 8 - 2)) by lia. lia.
Qed.

(** On a frame that passes the check, every single flip fails it. *)
Lemma check_flip_fails (aux : list Z) (bits k : nat) :
  (bits = 56 ∨ bits = 112)%nat → is_bytes aux → length aux = (bits / 8)%nat →
  (k < bits)%nat →
  check aux bits = true → check (flip_bit aux k) bits = false.
Proof.
  intros Hbits Hb Hlen Hk Hgood. unfold check in *.
  apply Z.eqb_eq in Hgood. apply Z.eqb_neq.
  assert (Hk8 : (k / 8 < bits / 8)%nat).
  { destruct Hbits as [-> | ->].
    - change (56 / 8)%nat with 7%nat. apply Nat.Div0.div_lt_upper_bound; lia.
    - change (112 / 8)%nat with 14%nat. apply Nat.Div0.div_lt_upper_bound; lia. }
  assert (H3 : (3 <= bits / 8)%nat).
  { destruct Hbits as [-> | ->]; [change (56 / 8)%nat with 7%nat
                                 | change (112 / 8)%nat with 14%nat]; lia. }
  rewrite modeS_checksum_flip by lia.
  destruct (Z.eq_dec (at_ modeS_checksum_table (k + checksum_offset bits)) 0)
    as [Hz|Hnz].
  - rewrite Hz, Z.lxor_0_r, <- Hgood.
    apply crc_field_flip_tail; try done.
    split; [|done].
    destruct (Nat.lt_ge_cases (k / 8) (bits / 8 - 3)) as [Hlt|]; [|done].
    exfalso. revert Hz. apply table_head_nonzero.
    destruct Hbits as [-> | ->].
    + change (checksum_offset 56) with 56%nat.
      change (56 / 8 - 3)%nat with 4%nat in Hlt.
      pose proof (Nat.div_mod_eq k 8).
      pose proof (Nat.mod_upper_bound k 8 ltac:(lia)). lia.
    + change (checksum_offset 112) with 0%nat.
      change (112 / 8 - 3)%nat with 11%nat in Hlt.
      pose proof (Nat.div_mod_eq k 8).
      pose proof (Nat.mod_upper_bound k 8 ltac:(lia)). lia.
  - rewrite crc_field_flip_body, Hgood
      by (apply checksum_reads_body; done).
    intros He. apply Hnz.
    set (c := modeS_checksum aux bits) in *.
    set (t := at_ modeS_checksum_table (k + checksum_offset bits)) in *.
    assert (Ht : t = Z.lxor c (Z.lxor c t)).
    { by rewrite <- Z.lxor_assoc, Z.lxor_nilpotent, Z.lxor_0_l. }
    rewrite Ht, <- He. apply Z.lxor_nilpotent.
Qed.

Lemma fix_single_loop_S (msg : list Z) (bits n i : nat) :
  fix_single_loop msg bits (S n) i
  = if check (flip_bit (take (bits / 8) msg) i) bits
    then (Z.of_nat i, flip_bit (take (bits / 8) msg) i ++ drop (bits / 8) msg)
    else fix_single_loop msg bits n (S i).
Proof. reflexivity. Qed.

(** What a successful run of the loop returns. *)
Lemma fix_single_loop_found (msg : list Z) (bits n i : nat) (r : Z) (msg' : list Z) :
  fix_single_loop msg bits n i = (r, msg') → 0 <= r →
  ∃ k, (i <= k < i + n)%nat ∧ r = Z.of_nat k
       ∧ msg' = flip_bit (take (bits / 8) msg) k ++ drop (bits / 8) msg
       ∧ check (flip_bit (take (bits / 8) msg) k) bits = true.
Proof.
  revert i. induction n as [|n IH]; intros i Hrun Hr.
  - injection Hrun as <- _. lia.
  - rewrite fix_single_loop_S in Hrun.
    destruct (check (flip_bit (take (bits / 8) msg) i) bits) eqn:Hc.
    + injection Hrun as <- <-. exists i. repeat split; (lia || done).
    + destruct (IH (S i) Hrun Hr) as (k & Hk & Hrest). exists k. split; [lia | done].
Qed.

(** The loop fails when no single flip passes the check. *)
Lemma fix_single_loop_none (msg : list Z) (bits n i : nat) :
  (∀ k, (i <= k < i + n)%nat → check (flip_bit (take (bits / 8) msg) k) bits = false) →
  fix_single_loop msg bits n i = (-1, msg).
Proof.
  revert i. induction n as [|n IH]; intros i H; [done|].
  rewrite fix_single_loop_S, (H i) by lia.
  apply IH. intros k Hk. apply H. lia.
Qed.

(** C4, as the code has it.  For a 7- or 14-byte message (more generally,
    a buffer of bytes holding at least [bits/8] of them, [bits] being 56 or
    112): when a first call of [fix_single_bit_errors] returns an index
    [i >= 0] and the corrected buffer, a second call on that buffer returns
    [-1] (no single flip of a frame that passes the check passes it again)
    and leaves the buffer unchanged. *)
Theorem fix_single_second_call (msg : list Z) (bits : nat) (i : Z) (msg' : list Z) :
  (bits = 56 ∨ bits = 112)%nat → (bits / 8 <= length msg)%nat → is_bytes msg →
  fix_single_bit_errors msg bits = (i, msg') → 0 <= i →
  fix_single_bit_errors msg' bits = (-1, msg').
Proof.
  intros Hbits Hlen Hb Hrun Hi. unfold fix_single_bit_errors in *.
  destruct (fix_single_loop_found _ _ _ _ _ _ Hrun Hi) as (k & Hk & _ & -> & Hgood).
  assert (Hl : length (flip_bit (take (bits / 8) msg) k) = (bits / 8)%nat).
  { unfold flip_bit. rewrite length_insert, length_take. lia. }
  apply fix_single_loop_none. intros k' Hk'.
  rewrite take_app_length' by done.
  apply check_flip_fails; try done; [|lia].
  apply is_bytes_flip. by apply Forall_take.
Qed.

(** A DF11 frame that passes the check, and the same frame with message
    bit 10 flipped. *)
Definition df11_good : list Z := [0x5D; 0xA0; 0x8C; 0x4A; 0x79; 0x3A; 0xA5].
Definition df11_bit10 : list Z := [0x5D; 0x80; 0x8C; 0x4A; 0x79; 0x3A; 0xA5].

Lemma fix_single_second_call_witness :
  fix_single_bit_errors df11_good 56 = (-1, df11_good).
Proof.
  apply (fix_single_second_call df11_bit10 56 10 df11_good).
  - left. reflexivity.
  - vm_compute. lia.
  - repeat (constructor; [lia|]). constructor.
  - vm_compute. reflexivity.
  - lia.
Defined.

(** C4 as stated fails: the first call returns index 10 and repairs the
    frame, the second call returns [-1], not 10. *)
Lemma fix_single_not_idempotent :
  fix_single_bit_errors df11_bit10 56 = (10, df11_good)
  ∧ fix_single_bit_errors df11_good 56 = (-1, df11_good).
Proof. split; vm_compute; reflexivity. Qed.

End Checksum.

(** * The cache of recently seen ICAO addresses ([dump1090.c]) *)

Module ICAO.

(** Modelled from the spec: [aircraft_get_addr] (declared in [aircraft.h],
    defined in [aircraft.c], which is not among the sources).  The
    specification reads the 24-bit ICAO address from its three bytes,
    big-endian. *)
Definition aircraft_get_addr (a0 a1 a2 : Z) : Z :=
  Z.lor (Z.lor (Z.shiftl a0 16) (Z.shiftl a1 8)) a2.

(** One round [((a >> 16) ^ a) * 0x45D9F3B] on a [uint32_t]. *)
Definition hash_round (a : Z) : Z := u32 (Z.lxor (Z.shiftr a 16) a * 0x45D9F3B).

(** The last line before the mask: [(a >> 16) ^ a], without the product. *)
Definition hash_fold (a : Z) : Z := Z.lxor (Z.shiftr a 16) a.

Section Cache.

(** [MODES_ICAO_CACHE_LEN] (a power of two) and [MODES_ICAO_CACHE_TTL] are
    macros of [misc.h], which is not among the sources; they are parameters
    here. *)
Variable MODES_ICAO_CACHE_LEN : Z.
Variable MODES_ICAO_CACHE_TTL : Z.

(** [ICAO_cache_hash_address]. *)
Definition ICAO_cache_hash_address (a : Z) : Z :=
  let a := u32 (Z.lxor (Z.shiftr a 16) a * 0x45D9F3B) in
  let a := u32 (Z.lxor (Z.shiftr a 16) a * 0x45D9F3B) in
  let a := Z.lxor (Z.shiftr a 16) a in
  Z.land a (MODES_ICAO_CACHE_LEN - 1).

(** [ICAO_cache_add_address]: [Modes.ICAO_cache] is an array of
    [2 * MODES_ICAO_CACHE_LEN] [uint32_t], address and time by turns;
    [now] is what [time (NULL)] returns. *)
Definition ICAO_cache_add_address (cache : list Z) (now : Z) (addr : Z) : list Z :=
  let h := Z.to_nat (ICAO_cache_hash_address addr) in
  <[(h * 2 + 1)%nat := u32 now]> (<[(h * 2)%nat := addr]> cache).

(** [ICAO_address_recently_seen]. *)
Definition ICAO_address_recently_seen (cache : list Z) (now : Z) (addr : Z) : bool :=
  let h_idx := Z.to_nat (ICAO_cache_hash_address addr) in
  let _addr := at_ cache (2 * h_idx) in
  let seen := at_ cache (2 * h_idx + 1) in
  negb (_addr =? 0) && (_addr =? addr) && (now - seen <=? MODES_ICAO_CACHE_TTL).

(** The hash the specification describes: the round with the product
    applied three times, then the mask. *)
Definition three_round_hash (a : Z) : Z :=
  Z.land (hash_round (hash_round (hash_round a))) (MODES_ICAO_CACHE_LEN - 1).

End Cache.

Lemma hash_in_table (LEN k a : Z) :
  0 <= k → LEN = 2 ^ k → 0 <= ICAO_cache_hash_address LEN a < LEN.
Proof.
  intros Hk ->. unfold ICAO_cache_hash_address.
  replace (2 ^ k - 1) with (Z.ones k) by (rewrite Z.ones_equiv; lia).
  rewrite Z.land_ones by done. apply Z.mod_pos_bound. lia.
Qed.

(** C6, as the code has it.  The slot index is the mask, to the
    power-of-two table size, of two rounds [((x >> 16) ^ x) * 0x45D9F3B]
    followed by one [(x >> 16) ^ x] without the product; it lies inside the
    table, insertion writes the address and the time at that slot, and the
    lookup reads the same slot. *)
Theorem cache_slot_index (LEN TTL k : Z) (cache : list Z) (now now' x : Z) :
  0 <= k → LEN = 2 ^ k → length cache = Z.to_nat (2 * LEN) →
  let h := Z.land (hash_fold (hash_round (hash_round x))) (LEN - 1) in
  ICAO_cache_hash_address LEN x = h
  ∧ 0 <= h < LEN
  ∧ at_ (ICAO_cache_add_address LEN cache now x) (2 * Z.to_nat h) = x
  ∧ at_ (ICAO_cache_add_address LEN cache now x) (2 * Z.to_nat h + 1) = u32 now
  ∧ ICAO_address_recently_seen LEN TTL (ICAO_cache_add_address LEN cache now x) now' x
    = negb (x =? 0) && (now' - u32 now <=? TTL).
Proof.
  intros Hk HLEN Hlen h.
  assert (Hh : ICAO_cache_hash_address LEN x = h) by reflexivity.
  pose proof (hash_in_table LEN k x Hk HLEN) as Hr. rewrite Hh in Hr.
  assert (H1 : at_ (ICAO_cache_add_address LEN cache now x) (2 * Z.to_nat h) = x).
  { unfold ICAO_cache_add_address. rewrite Hh.
    rewrite at_insert_ne by lia.
    replace (Z.to_nat h * 2)%nat with (2 * Z.to_nat h)%nat by lia.
    apply at_insert_eq. lia. }
  assert (H2 : at_ (ICAO_cache_add_address LEN cache now x) (2 * Z.to_nat h + 1)
               = u32 now).
  { unfold ICAO_cache_add_address. rewrite Hh.
    replace (Z.to_nat h * 2 + 1)%nat with (2 * Z.to_nat h + 1)%nat by lia.
    apply at_insert_eq. rewrite length_insert. lia. }
  repeat split; try done; try lia.
  unfold ICAO_address_recently_seen. rewrite Hh, H1, H2.
  by rewrite Z.eqb_refl, andb_true_r.
Qed.

Lemma cache_slot_index_witness :
  ICAO_cache_hash_address 1024 0x4B9696 = 985
  ∧ ICAO_address_recently_seen 1024 60
      (ICAO_cache_add_address 1024 (replicate 2048 0) 1000 0x4B9696) 1030 0x4B9696
    = true.
Proof.
  pose proof (cache_slot_index 1024 60 10 (replicate 2048 0) 1000 1030 0x4B9696
                ltac:(lia) eq_refl eq_refl) as (H1 & _ & _ & _ & H5).
  split; [exact H1 | exact H5].
Defined.

(** C6 as stated fails: with a table of 1024 slots the code puts address
    [4B9696] in slot 985, and three rounds with the product give 515. *)
Lemma three_rounds_differ :
  ICAO_cache_hash_address 1024 0x4B9696 = 985
  ∧ three_round_hash 1024 0x4B9696 = 515.
Proof. split; vm_compute; reflexivity. Qed.

End ICAO.

(** * The message decoder ([dump1090.c]) *)

Module Decoder.
Import Checksum ICAO.

Inductive metric_unit_t := MODES_UNIT_FEET | MODES_UNIT_METERS.

(** [modeS_message], the fields this development reads.  The struct is
    declared in [misc.h], which is not among the sources; the fields are
    those [decode_modeS_message] assigns.  The velocity and heading fields
    of the airborne-velocity message ([hypot], [atan2]) are left out: no
    property below reads them.  [unit] is [None] where the code leaves it
    as [memset] set it. *)
Record modeS_message := {
  msg : list Z;
  msg_bits : nat;
  msg_type : Z;
  CRC_ok : bool;
  CRC : Z;
  error_bit : Z;
  AA : list Z;
  phase_corrected : bool;
  ca : Z;
  ME_type : Z;
  ME_subtype : Z;
  flight_status : Z;
  DR_status : Z;
  UM_status : Z;
  identity : Z;
  altitude : Z;
  unit : option metric_unit_t;
  aircraft_type : Z;
  flight : list ascii;
  odd_flag : bool;
  UTC_flag : bool;
  raw_latitude : Z;
  raw_longitude : Z
}.

(** [decode_AC13_field]: the altitude and the unit it stores. *)
Definition decode_AC13_field (msg : list Z) : Z * metric_unit_t :=
  let m_bit := Z.land (at_ msg 3) (Z.shiftl 1 6) in
  let q_bit := Z.land (at_ msg 3) (Z.shiftl 1 4) in
  if m_bit =? 0 then
    if negb (q_bit =? 0) then
      let n := Z.lor (Z.lor (Z.lor (Z.shiftl (Z.land (at_ msg 2) 31) 6)
                                   (Z.shiftr (Z.land (at_ msg 3) 0x80) 2))
                            (Z.shiftr (Z.land (at_ msg 3) 0x20) 1))
                     (Z.land (at_ msg 3) 15) in
      let ret := 25 * n - 1000 in
      (if ret <? 0 then 0 else ret, MODES_UNIT_FEET)
    else (0, MODES_UNIT_FEET)
  else (0, MODES_UNIT_METERS).

(** [decode_AC12_field]: the altitude, and the unit when it stores one. *)
Definition decode_AC12_field (msg : list Z) : Z * option metric_unit_t :=
  let q_bit := Z.land (at_ msg 5) 1 in
  if negb (q_bit =? 0) then
    let n := Z.lor (Z.shiftl (Z.shiftr (at_ msg 5) 1) 4)
                   (Z.shiftr (Z.land (at_ msg 6) 0xF0) 4) in
    let ret := 25 * n - 1000 in
    (if ret <? 0 then 0 else ret, Some MODES_UNIT_FEET)
  else (0, None).

Definition AIS_charset : string :=
  "?ABCDEFGHIJKLMNOPQRSTUVWXYZ????? ???????????????0123456789??????".

(** [AIS_charset [i]]. *)
Definition AIS (i : Z) : ascii :=
  default Ascii.zero (String.get (Z.to_nat i) AIS_charset).

(** The nine characters [decode_modeS_message] writes into [mm->flight]
    for an identification message. *)
Definition decode_flight (msg : list Z) : list ascii :=
  [ AIS (Z.shiftr (at_ msg 5) 2);
    AIS (Z.lor (Z.shiftl (Z.land (at_ msg 5) 3) 4) (Z.shiftr (at_ msg 6) 4));
    AIS (Z.lor (Z.shiftl (Z.land (at_ msg 6) 15) 2) (Z.shiftr (at_ msg 7) 6));
    AIS (Z.land (at_ msg 7) 63);
    AIS (Z.shiftr (at_ msg 8) 2);
    AIS (Z.lor (Z.shiftl (Z.land (at_ msg 8) 3) 4) (Z.shiftr (at_ msg 9) 4));
    AIS (Z.lor (Z.shiftl (Z.land (at_ msg 9) 15) 2) (Z.shiftr (at_ msg 10) 6));
    AIS (Z.land (at_ msg 10) 63);
    Ascii.zero ].

(** The squawk: four octal digits read as a decimal number. *)
Definition decode_identity (msg : list Z) : Z :=
  let a := Z.lor (Z.lor (Z.shiftr (Z.land (at_ msg 3) 0x80) 5)
                        (Z.shiftr (Z.land (at_ msg 2) 0x02) 0))
                 (Z.shiftr (Z.land (at_ msg 2) 0x08) 3) in
  let b := Z.lor (Z.lor (Z.shiftl (Z.land (at_ msg 3) 0x02) 1)
                        (Z.shiftr (Z.land (at_ msg 3) 0x08) 2))
                 (Z.shiftr (Z.land (at_ msg 3) 0x20) 5) in
  let c := Z.lor (Z.lor (Z.shiftl (Z.land (at_ msg 2) 0x01) 2)
                        (Z.shiftr (Z.land (at_ msg 2) 0x04) 1))
                 (Z.shiftr (Z.land (at_ msg 2) 0x10) 4) in
  let d := Z.lor (Z.lor (Z.shiftl (Z.land (at_ msg 3) 0x01) 2)
                        (Z.shiftr (Z.land (at_ msg 3) 0x04) 1))
                 (Z.shiftr (Z.land (at_ msg 3) 0x10) 4) in
  a * 1000 + b * 100 + c * 10 + d.

Section Decode.

(** The two macros of the address cache, and [Modes.aggressive]. *)
Variable MODES_ICAO_CACHE_LEN : Z.
Variable MODES_ICAO_CACHE_TTL : Z.
Variable aggressive : bool.

(** [brute_force_AP]: the recovered [AA] bytes on success. *)
Definition brute_force_AP (cache : list Z) (now : Z) (msg : list Z)
    (msg_type : Z) (msg_bits : nat) : option (list Z) :=
  if (msg_type =? 0) || (msg_type =? 4) || (msg_type =? 5) || (msg_type =? 16)
     || (msg_type =? 20) || (msg_type =? 21) || (msg_type =? 24)
  then
    let last_byte := (msg_bits / 8 - 1)%nat in
    let aux := take (msg_bits / 8) msg in
    let crc := modeS_checksum aux msg_bits in
    let aux := <[last_byte := u8 (Z.lxor (at_ aux last_byte) (Z.land crc 0xFF))]> aux in
    let aux := <[(last_byte - 1)%nat :=
                   u8 (Z.lxor (at_ aux (last_byte - 1)) (Z.land (Z.shiftr crc 8) 0xFF))]> aux in
    let aux := <[(last_byte - 2)%nat :=
                   u8 (Z.lxor (at_ aux (last_byte - 2)) (Z.land (Z.shiftr crc 16) 0xFF))]> aux in
    let addr := aircraft_get_addr (at_ aux (last_byte - 2)) (at_ aux (last_byte - 1))
                                  (at_ aux last_byte) in
    if ICAO_address_recently_seen MODES_ICAO_CACHE_LEN MODES_ICAO_CACHE_TTL cache now addr
    then Some [at_ aux (last_byte - 2); at_ aux (last_byte - 1); at_ aux last_byte]
    else None
  else None.

(** The CRC stage of [decode_modeS_message]: the error bit, the buffer
    after the fixers ran, [mm->CRC] and [mm->CRC_ok]. *)
Definition check_and_fix (msg0 : list Z) (msg_type : Z) (msg_bits : nat)
    : Z * list Z * Z * bool :=
  let crc := crc_field msg0 msg_bits in
  let crc2 := modeS_checksum msg0 msg_bits in
  let ok := crc =? crc2 in
  if negb ok && ((msg_type =? 11) || (msg_type =? 17)) then
    let '(e1, m1) := fix_single_bit_errors msg0 msg_bits in
    if negb (e1 =? -1) then (e1, m1, modeS_checksum m1 msg_bits, true)
    else if aggressive && (msg_type =? 17) then
      let '(e2, m2) := fix_two_bits_errors m1 msg_bits in
      if negb (e2 =? -1) then (e2, m2, modeS_checksum m2 msg_bits, true)
      else (e2, m2, crc, ok)
    else (e1, m1, crc, ok)
  else (-1, msg0, crc, ok).

(** The address stage of [decode_modeS_message]: [mm->AA], [mm->CRC_ok]
    and the cache afterwards.  Formats other than DF11 and DF17 go through
    [brute_force_AP]; DF11 and DF17 enter the cache when the CRC was good
    with no bit fixed. *)
Definition address_stage (cache : list Z) (now : Z) (msg : list Z)
    (msg_type : Z) (msg_bits : nat) (error_bit : Z) (ok : bool)
    : list Z * bool * list Z :=
  let AA := [at_ msg 1; at_ msg 2; at_ msg 3] in
  if negb (msg_type =? 11) && negb (msg_type =? 17) then
    match brute_force_AP cache now msg msg_type msg_bits with
    | Some aa => (aa, true, cache)
    | None => (AA, false, cache)
    end
  else if ok && (error_bit =? -1) then
    (AA, ok,
     ICAO_cache_add_address MODES_ICAO_CACHE_LEN cache now
       (aircraft_get_addr (at_ AA 0) (at_ AA 1) (at_ AA 2)))
  else (AA, ok, cache).

(** The altitude stage: [mm->altitude] and [mm->unit]. *)
Definition altitude_stage (msg : list Z) (msg_type ME_type : Z)
    : Z * option metric_unit_t :=
  let ac13 :=
    if (msg_type =? 0) || (msg_type =? 4) || (msg_type =? 16) || (msg_type =? 20)
    then ((decode_AC13_field msg).1, Some (decode_AC13_field msg).2)
    else (0, None) in
  if (msg_type =? 17) && (9 <=? ME_type) && (ME_type <=? 18)
  then ((decode_AC12_field msg).1,
        match (decode_AC12_field msg).2 with
        | Some u => Some u
        | None => ac13.2
        end)
  else ac13.

(** [decode_modeS_message]: the decoded message and the address cache
    afterwards.  [now] is what [time (NULL)] returns. *)
Definition decode_modeS_message (cache : list Z) (now : Z) (_msg : list Z)
    : modeS_message * list Z :=
  let msg0 := take MODES_LONG_MSG_BYTES _msg in
  let msg_type := Z.shiftr (at_ msg0 0) 3 in
  let msg_bits := modeS_message_len_by_type msg_type in
  let fixed := check_and_fix msg0 msg_type msg_bits in
  let error_bit := fixed.1.1.1 in
  let msg := fixed.1.1.2 in
  let ME_type := Z.shiftr (at_ msg 4) 3 in
  let ME_subtype := Z.land (at_ msg 4) 7 in
  let addressed :=
    address_stage cache now msg msg_type msg_bits error_bit fixed.2 in
  let identification := (msg_type =? 17) && (1 <=? ME_type) && (ME_type <=? 4) in
  let position := (msg_type =? 17) && (9 <=? ME_type) && (ME_type <=? 18) in
  ({| msg := msg;
      msg_bits := msg_bits;
      msg_type := msg_type;
      CRC_ok := addressed.1.2;
      CRC := fixed.1.2;
      error_bit := error_bit;
      AA := addressed.1.1;
      phase_corrected := false;
      ca := Z.land (at_ msg 0) 7;
      ME_type := ME_type;
      ME_subtype := ME_subtype;
      flight_status := Z.land (at_ msg 0) 7;
      DR_status := Z.land (Z.shiftr (at_ msg 1) 3) 31;
      UM_status := Z.lor (Z.shiftl (Z.land (at_ msg 1) 7) 3) (Z.shiftr (at_ msg 2) 5);
      identity := decode_identity msg;
      altitude := (altitude_stage msg msg_type ME_type).1;
      unit := (altitude_stage msg msg_type ME_type).2;
      aircraft_type := if identification then ME_type - 1 else 0;
      flight := if identification then decode_flight msg else replicate 9 Ascii.zero;
      odd_flag := position && negb (Z.land (at_ msg 6) (Z.shiftl 1 2) =? 0);
      UTC_flag := position && negb (Z.land (at_ msg 6) (Z.shiftl 1 3) =? 0);
      raw_latitude :=
        if position
        then Z.lor (Z.lor (Z.shiftl (Z.land (at_ msg 6) 3) 15) (Z.shiftl (at_ msg 7) 7))
                   (Z.shiftr (at_ msg 8) 1)
        else 0;
      raw_longitude :=
        if position
        then Z.lor (Z.lor (Z.shiftl (Z.land (at_ msg 8) 1) 16) (Z.shiftl (at_ msg 9) 8))
                   (at_ msg 10)
        else 0 |},
   addressed.2).

End Decode.

(** ** Sample frames *)

(** A DF17 identification frame with a good CRC (callsign [KLM1023]). *)
Definition df17_ident : list Z :=
  [0x8D; 0x48; 0x40; 0xD6; 0x20; 0x2C; 0xC3; 0x71; 0xC3; 0x2C; 0xE0; 0x57; 0x60; 0x98].

(** The frame of scenario S1 of the specification. *)
Definition s1_frame : list Z :=
  [0x8D; 0x4B; 0x96; 0x96; 0x20; 0x29; 0x40; 0x73; 0xD9; 0x84; 0x07; 0x48; 0x22; 0x11].

(** [df11_bit10] in the 14-byte buffer the demodulator hands over. *)
Definition df11_bit10_buf : list Z := df11_bit10 ++ replicate 7 0.

(** The address of a decoded message, as [ICAO_cache_add_address] and the
    tracker receive it. *)
Definition address (mm : modeS_message) : Z :=
  aircraft_get_addr (at_ (AA mm) 0) (at_ (AA mm) 1) (at_ (AA mm) 2).

(** ** The address cache after decoding *)

(** C5, as the code has it.  For every decoded DF11 or DF17 message whose
    CRC check passes: when it passes as received (no bit was fixed,
    [error_bit = -1]) the decoder inserts the message's ICAO address into
    the cache of recent addresses with the current time; when it passes
    only after a single-bit or a two-bit fix, the cache is left as it
    was. *)
Theorem cache_after_decode (LEN TTL : Z) (aggressive : bool)
    (cache : list Z) (now : Z) (_msg : list Z) :
  let r := decode_modeS_message LEN TTL aggressive cache now _msg in
  msg_type r.1 = 11 ∨ msg_type r.1 = 17 → CRC_ok r.1 = true →
  (error_bit r.1 = -1 → r.2 = ICAO_cache_add_address LEN cache now (address r.1))
  ∧ (error_bit r.1 ≠ -1 → r.2 = cache).
Proof.
  intros r. subst r. unfold decode_modeS_message, address. cbn [fst snd msg_type CRC_ok error_bit AA].
  set (msg0 := take MODES_LONG_MSG_BYTES _msg).
  set (ty := Z.shiftr (at_ msg0 0) 3).
  destruct (check_and_fix aggressive msg0 ty (modeS_message_len_by_type ty))
    as [[[e m] c] ok]. cbn [fst snd].
  unfold address_stage.
  destruct (negb (ty =? 11) && negb (ty =? 17)) eqn:Hty.
  - (* neither DF11 nor DF17 *)
    apply andb_prop in Hty as [H1 H2].
    apply negb_true_iff, Z.eqb_neq in H1. apply negb_true_iff, Z.eqb_neq in H2. tauto.
  - destruct ok; [destruct (Z.eqb_spec e (-1)) as [He|He]|]; cbn [fst snd andb];
      intros _ Hok.
    + split; [done | tauto].
    + split; [tauto | done].
    + discriminate.
Qed.

Lemma cache_after_decode_witness :
  (decode_modeS_message 1024 60 false (replicate 2048 0) 1000 df17_ident).2
  = ICAO_cache_add_address 1024 (replicate 2048 0) 1000 0x4840D6.
Proof.
  refine (proj1 (cache_after_decode 1024 60 false (replicate 2048 0) 1000 df17_ident
                   _ _) _).
  - right. vm_compute. reflexivity.
  - vm_compute. reflexivity.
  - vm_compute. reflexivity.
Defined.

(** C5 as stated fails: a DF11 frame with bit 10 flipped is repaired by
    the single-bit fixer and decodes with a good CRC, yet the cache stays
    empty and the address is not found in it. *)
Lemma fixed_message_not_cached :
  let r := decode_modeS_message 1024 60 false (replicate 2048 0) 1000 df11_bit10_buf in
  msg_type r.1 = 11 ∧ CRC_ok r.1 = true ∧ error_bit r.1 = 10
  ∧ address r.1 = 0xA08C4A
  ∧ r.2 = replicate 2048 0
  ∧ ICAO_address_recently_seen 1024 60 r.2 1000 0xA08C4A = false.
Proof. vm_compute. repeat split; reflexivity. Qed.

End Decoder.

(** * Binary64 arithmetic *)

(** The C operations on [double] that the code uses and that the kernel's
    [float] does not provide directly. *)
Module Double.

(** Conversion of an [int] to [double] (exact below [2^53]). *)
Definition of_int (z : Z) : float :=
  if z <? 0 then PrimFloat.opp (PrimFloat.of_uint63 (Uint63.of_Z (- z)))
  else PrimFloat.of_uint63 (Uint63.of_Z z).

(** [floor (x)] as an integer; [0] stands for infinities and NaN. *)
Definition floor (x : float) : Z :=
  match Prim2SF x with
  | S754_finite s m e =>
      let v := if s then Zneg m else Zpos m in
      if 0 <=? e then v * 2 ^ e else v / 2 ^ (- e)
  | _ => 0
  end.

(** [round (x)] as an integer: to nearest, halves away from zero. *)
Definition round (x : float) : Z :=
  match Prim2SF x with
  | S754_finite s m e =>
      let v := if 0 <=? e then Zpos m * 2 ^ e
               else (Zpos m + 2 ^ (- e - 1)) / 2 ^ (- e) in
      if s then - v else v
  | _ => 0
  end.

(** [hypot (x, y)].  The C library's function is modelled by the correctly
    rounded [sqrt (x*x + y*y)]; [decode_modeS_message] notes the same
    identity next to its own call. *)
Definition hypot (x y : float) : float :=
  PrimFloat.sqrt (PrimFloat.add (PrimFloat.mul x x) (PrimFloat.mul y y)).

End Double.

(** * The magnitude mapper ([dump1090.c]) *)

Module Magnitude.

(** [(uint16_t) round (360 * h)]. *)
Definition scale (h : float) : Z :=
  u16 (Double.round (PrimFloat.mul (Double.of_int 360) h)).

(** [(uint16_t) round (360 * hypot (I, Q))]. *)
Definition magnitude (I Q : nat) : Z :=
  scale (Double.hypot (Double.of_int (Z.of_nat I)) (Double.of_int (Z.of_nat Q))).

(** [c_gen_magnitude_lut]: the two loops store [lut [I*129 + Q]] for
    [I, Q < 129].  The array comes from [malloc]; every cell of it is
    written, so the initial content does not show. *)
Definition c_gen_magnitude_lut : list Z :=
  foldl (λ lut I,
           foldl (λ lut Q, <[(I * 129 + Q)%nat := magnitude I Q]> lut)
                 lut (seq 0 129))
        (replicate (129 * 129) 0) (seq 0 129).

(** [compute_magnitude_vector]: [data] holds [Modes.data_len] bytes, I and
    Q by turns; the result is [Modes.magnitude] afterwards.  The table is
    [Modes.magnitude_lut]. *)
Fixpoint compute_magnitude_vector (lut : list Z) (data : list Z) : list Z :=
  match data with
  | i :: q :: rest =>
      let I := i - 127 in
      let Q := q - 127 in
      let I := if I <? 0 then - I else I in
      let Q := if Q <? 0 then - Q else Q in
      at_ lut (Z.to_nat (129 * I + Q)) :: compute_magnitude_vector lut rest
  | _ => []
  end.

(** The integer nearest to the square root of [n]. *)
Definition nearest_sqrt (n : Z) : Z := (Z.sqrt (4 * n) + 1) / 2.

(** The integer nearest to [360 * sqrt (I^2 + Q^2)], computed exactly. *)
Definition exact_magnitude (I Q : nat) : Z :=
  nearest_sqrt (129600 * (Z.of_nat I * Z.of_nat I + Z.of_nat Q * Z.of_nat Q)).

(** Whether the binary64 computation gives the exact value at [(I, Q)]. *)
Definition magnitude_is_exact (I Q : nat) : bool :=
  magnitude I Q =? exact_magnitude I Q.

Lemma forallb_square (p : nat → nat → bool) (n I Q : nat) :
  forallb (λ I, forallb (p I) (seq 0 n)) (seq 0 n) = true →
  (I < n)%nat → (Q < n)%nat → p I Q = true.
Proof.
  intros H HI HQ.
  rewrite forallb_forall in H. specialize (H I ltac:(apply in_seq; lia)).
  rewrite forallb_forall in H. apply H. apply in_seq. lia.
Qed.

(** It does, on all of [0..128] x [0..128]. *)
Lemma magnitude_is_exact_true :
  forallb (λ I, forallb (magnitude_is_exact I) (seq 0 129)) (seq 0 129) = true.
Proof. vm_compute. reflexivity. Qed.

(** The table does not depend on the last bit of [hypot]: a C library
    whose [hypot] is one unit in the last place off, either way, gives the
    same entries. *)
Definition magnitude_is_robust (I Q : nat) : bool :=
  let h := Double.hypot (Double.of_int (Z.of_nat I)) (Double.of_int (Z.of_nat Q)) in
  (scale (PrimFloat.next_down h) =? exact_magnitude I Q)
  && (scale (PrimFloat.next_up h) =? exact_magnitude I Q).

Lemma magnitude_is_robust_true :
  forallb (λ I, forallb (magnitude_is_robust I) (seq 0 129)) (seq 0 129) = true.
Proof. vm_compute. reflexivity. Qed.

Lemma magnitude_robust (I Q : nat) :
  (I <= 128)%nat → (Q <= 128)%nat →
  let h := Double.hypot (Double.of_int (Z.of_nat I)) (Double.of_int (Z.of_nat Q)) in
  scale (PrimFloat.next_down h) = exact_magnitude I Q
  ∧ scale (PrimFloat.next_up h) = exact_magnitude I Q.
Proof.
  intros HI HQ h.
  assert (H : magnitude_is_robust I Q = true).
  { refine (forallb_square magnitude_is_robust 129 I Q magnitude_is_robust_true _ _); lia. }
  unfold magnitude_is_robust in H. fold h in H.
  apply andb_prop in H as [H1 H2]. split; by apply Z.eqb_eq.
Qed.

Lemma magnitude_exact (I Q : nat) :
  (I <= 128)%nat → (Q <= 128)%nat → magnitude I Q = exact_magnitude I Q.
Proof.
  intros HI HQ. apply Z.eqb_eq.
  refine (forallb_square magnitude_is_exact 129 I Q magnitude_is_exact_true _ _); lia.
Qed.

(** One row of stores: [lut [base + Q] = f Q] for [Q < n]. *)
Lemma row_stores (f : nat → Z) (base n : nat) (lut : list Z) :
  let r := foldl (λ lut Q, <[(base + Q)%nat := f Q]> lut) lut (seq 0 n) in
  length r = length lut
  ∧ (∀ Q, (Q < n)%nat → (base + Q < length lut)%nat → r !! (base + Q)%nat = Some (f Q))
  ∧ (∀ i, (i < base ∨ base + n <= i)%nat → r !! i = lut !! i).
Proof.
  induction n as [|n (IHlen & IHin & IHout)]; [by repeat split; intros; lia || done|].
  rewrite (seq_S n 0), foldl_app. cbn [foldl]. rewrite Nat.add_0_l.
  repeat split.
  - by rewrite length_insert.
  - intros Q HQ Hlen. destruct (Nat.eq_dec Q n) as [->|Hne].
    + apply list_lookup_insert_eq. lia.
    + rewrite list_lookup_insert_ne by lia. apply IHin; lia.
  - intros i Hi. rewrite list_lookup_insert_ne by lia. apply IHout. lia.
Qed.

(** The two loops of [c_gen_magnitude_lut] after [N] rows. *)
Lemma rows_store (N : nat) (lut : list Z) :
  let r := foldl (λ lut I,
                    foldl (λ lut Q, <[(I * 129 + Q)%nat := magnitude I Q]> lut)
                          lut (seq 0 129))
                 lut (seq 0 N) in
  length r = length lut
  ∧ (∀ I Q, (I < N)%nat → (Q < 129)%nat → (I * 129 + Q < length lut)%nat →
            r !! (I * 129 + Q)%nat = Some (magnitude I Q))
  ∧ (∀ i, (N * 129 <= i)%nat → r !! i = lut !! i).
Proof.
  induction N as [|N (IHlen & IHin & IHout)]; [by repeat split; intros; lia || done|].
  rewrite (seq_S N 0), foldl_app. cbn [foldl]. rewrite Nat.add_0_l.
  match goal with
  | |- context [foldl _ ?l (seq 0 129)] =>
      destruct (row_stores (magnitude N) (N * 129) 129 l) as (Hlen & Hin & Hout)
  end.
  cbn zeta in Hlen, Hin, Hout.
  repeat split.
  - by rewrite Hlen.
  - intros I Q HI HQ Hl. destruct (Nat.eq_dec I N) as [->|Hne].
    + apply Hin; lia.
    + rewrite Hout by nia. apply IHin; lia.
  - intros i Hi. rewrite Hout by lia. apply IHout. lia.
Qed.

Lemma lut_lookup (I Q : nat) :
  (I <= 128)%nat → (Q <= 128)%nat →
  at_ c_gen_magnitude_lut (129 * I + Q) = exact_magnitude I Q.
Proof.
  intros HI HQ. unfold at_, c_gen_magnitude_lut.
  destruct (rows_store 129 (replicate (129 * 129) 0)) as (_ & Hin & _).
  cbn zeta in Hin. replace (129 * I + Q)%nat with (I * 129 + Q)%nat by lia.
  rewrite Hin by (rewrite ?length_replicate; lia).
  by apply magnitude_exact.
Qed.

(** [nearest_sqrt n] is within a half of the square root of [n]. *)
Lemma nearest_sqrt_bounds (n : Z) :
  0 <= n →
  (nearest_sqrt n = 0
   ∨ (2 * nearest_sqrt n - 1) * (2 * nearest_sqrt n - 1) <= 4 * n)
  ∧ 4 * n < (2 * nearest_sqrt n + 1) * (2 * nearest_sqrt n + 1)
  ∧ 0 <= nearest_sqrt n.
Proof.
  intros Hn. unfold nearest_sqrt.
  pose proof (Z.sqrt_spec (4 * n) ltac:(lia)) as [Hlo Hhi].
  pose proof (Z.sqrt_nonneg (4 * n)) as Hs.
  set (s := Z.sqrt (4 * n)) in *.
  assert (Hk : s = 2 * ((s + 1) / 2) - 1 ∨ s = 2 * ((s + 1) / 2)).
  { Z.div_mod_to_equations. lia. }
  unfold Z.succ in Hhi.
  set (k := (s + 1) / 2) in *.
  assert (0 <= k) by (subst k; Z.div_mod_to_equations; lia).
  clearbody k s.
  destruct Hk as [Hk|Hk]; subst s; repeat split; nia.
Qed.

Local Open Scope R_scope.

(** The integer bounds, read over the reals. *)
Lemma nearest_sqrt_real (n k : Z) :
  (0 <= n)%Z → (0 <= k)%Z →
  (k = 0 ∨ (2 * k - 1) * (2 * k - 1) <= 4 * n)%Z →
  (4 * n < (2 * k + 1) * (2 * k + 1))%Z →
  IZR k - / 2 <= sqrt (IZR n) < IZR k + / 2.
Proof.
  intros Hn Hk Hlo Hhi.
  assert (Hn' : 0 <= IZR n) by (apply IZR_le; lia).
  assert (H4 : sqrt (4 * IZR n) = 2 * sqrt (IZR n)).
  { rewrite sqrt_mult by lra. replace 4 with (2 * 2) by lra.
    rewrite sqrt_square by lra. reflexivity. }
  assert (Hlo' : IZR k = 0 ∨ (2 * IZR k - 1) * (2 * IZR k - 1) <= 4 * IZR n).
  { destruct Hlo as [->|Hlo]; [by left | right].
    apply IZR_le in Hlo. rewrite !mult_IZR, !minus_IZR, !mult_IZR in Hlo. exact Hlo. }
  assert (Hhi' : 4 * IZR n < (2 * IZR k + 1) * (2 * IZR k + 1)).
  { apply IZR_lt in Hhi. rewrite !mult_IZR, !plus_IZR, !mult_IZR in Hhi. exact Hhi. }
  assert (Hk' : 0 <= IZR k) by (apply IZR_le; lia).
  split.
  - pose proof (sqrt_pos (IZR n)) as Hsq.
    destruct Hlo' as [Hz|Hlo']; [lra|].
    destruct (Rle_lt_dec (2 * IZR k - 1) 0) as [Hneg|Hpos]; [lra|].
    apply sqrt_le_1 in Hlo'; [|nra|lra].
    rewrite sqrt_square, H4 in Hlo' by lra. lra.
  - apply sqrt_lt_1 in Hhi'; [|lra|nra].
    rewrite sqrt_square, H4 in Hhi' by lra. lra.
Qed.

Lemma scaled_sqrt (n : Z) :
  (0 <= n)%Z → sqrt (IZR (129600 * n)) = 360 * sqrt (IZR n).
Proof.
  intros Hn. rewrite mult_IZR.
  rewrite sqrt_mult by (try apply IZR_le; lia || lra).
  replace 129600 with (360 * 360) by lra.
  rewrite sqrt_square by lra. reflexivity.
Qed.

(** Every entry of the table is [360 * sqrt (I^2 + Q^2)] rounded to the
    nearest integer. *)
Lemma lut_entry_rounds (I Q : nat) :
  (I <= 128)%nat → (Q <= 128)%nat →
  let k := IZR (at_ c_gen_magnitude_lut (129 * I + Q)) in
  let x := 360 * sqrt (INR (I * I + Q * Q)) in
  k - / 2 <= x < k + / 2.
Proof.
  intros HI HQ k x. subst k x. rewrite lut_lookup by done.
  unfold exact_magnitude.
  set (n := (Z.of_nat I * Z.of_nat I + Z.of_nat Q * Z.of_nat Q)%Z).
  assert (Hn : (0 <= n)%Z) by (subst n; nia).
  replace (INR (I * I + Q * Q)) with (IZR n)
    by (subst n; rewrite INR_IZR_INZ; f_equal; lia).
  rewrite <- scaled_sqrt by done.
  destruct (nearest_sqrt_bounds (129600 * n) ltac:(lia)) as (Hlo & Hhi & Hk).
  by apply nearest_sqrt_real; [lia | | |].
Qed.

Local Close Scope R_scope.

(** What the mapper stores for the pair at position [n]. *)
Lemma magnitude_vector_at (lut data : list Z) (n : nat) :
  (2 * n + 1 < length data)%nat →
  at_ (compute_magnitude_vector lut data) n
  = at_ lut (Z.to_nat (129 * Z.abs (at_ data (2 * n) - 127)
                       + Z.abs (at_ data (2 * n + 1) - 127))).
Proof.
  assert (Habs : ∀ x, (if x <? 0 then - x else x) = Z.abs x).
  { intros x. destruct (Z.ltb_spec x 0); lia. }
  revert data. induction n as [|n IH]; intros [|i [|q rest]] Hlen;
    simpl in Hlen; try lia.
  - cbn [compute_magnitude_vector]. by rewrite !Habs.
  - cbn [compute_magnitude_vector].
    replace (2 * S n)%nat with (S (S (2 * n))) by lia.
    replace (S (S (2 * n)) + 1)%nat with (S (S (2 * n + 1))) by lia.
    change (at_ (?x :: ?l) (S ?m)) with (at_ l m).
    apply IH. lia.
Qed.

(** C3.  For every [I] and [Q] in [0..128], the entry of the magnitude
    table at index [129*I + Q] is [360 * sqrt (I^2 + Q^2)] rounded to the
    nearest integer; and for every pair [(i, q)] of unsigned bytes in the
    input, the mapper outputs the table entry at index
    [129 * min (|i - 127|, 128) + min (|q - 127|, 128)]. *)
Theorem magnitude_lut_and_mapper :
  (∀ I Q : nat, (I <= 128)%nat → (Q <= 128)%nat →
     let k := IZR (at_ c_gen_magnitude_lut (129 * I + Q)) in
     (k - / 2 <= 360 * sqrt (INR (I * I + Q * Q)) < k + / 2)%R)
  ∧ (∀ (data : list Z) (n : nat), is_bytes data → (2 * n + 1 < length data)%nat →
       let I := Z.min (Z.abs (at_ data (2 * n) - 127)) 128 in
       let Q := Z.min (Z.abs (at_ data (2 * n + 1) - 127)) 128 in
       at_ (compute_magnitude_vector c_gen_magnitude_lut data) n
       = at_ c_gen_magnitude_lut (Z.to_nat (129 * I + Q))).
Proof.
  split.
  - intros I Q HI HQ. by apply lut_entry_rounds.
  - intros data n Hb Hlen I Q. subst I Q.
    pose proof (at_bytes data (2 * n) Hb).
    pose proof (at_bytes data (2 * n + 1) Hb).
    rewrite !Z.min_l by lia. by apply magnitude_vector_at.
Qed.

Lemma magnitude_lut_and_mapper_witness :
  (let k := IZR (at_ c_gen_magnitude_lut (129 * 3 + 4)) in
   (k - / 2 <= 360 * sqrt (INR (3 * 3 + 4 * 4)) < k + / 2)%R)
  ∧ (let data := [130; 123] in
     let I := Z.min (Z.abs (at_ data (2 * 0) - 127)) 128 in
     let Q := Z.min (Z.abs (at_ data (2 * 0 + 1) - 127)) 128 in
     at_ (compute_magnitude_vector c_gen_magnitude_lut data) 0
     = at_ c_gen_magnitude_lut (Z.to_nat (129 * I + Q))).
Proof.
  split.
  - apply (proj1 magnitude_lut_and_mapper 3%nat 4%nat); lia.
  - apply (proj2 magnitude_lut_and_mapper [130; 123] 0%nat).
    + repeat (constructor; [lia|]). constructor.
    + simpl. lia.
Defined.

End Magnitude.

(** * The demodulator ([dump1090.c]) *)

Module Demod.
Import Checksum Decoder.

(** Modelled from the spec: [MODES_PREAMBLE_US], a macro of [misc.h], which
    is not among the sources.  The specification's glossary gives the
    preamble as the 8-microsecond header, and [apply_phase_correction]
    skips it as [16 = 2 * 8] samples. *)
Definition MODES_PREAMBLE_US : nat := 8.

(** [m [j + k]], [j] being the [uint32_t] scan position. *)
Definition sample (m : list Z) (j : Z) (k : nat) : Z := at_ m (Z.to_nat j + k).

(** The first test of [detect_modeS]: the relations among the first ten
    samples. *)
Definition preamble_relations (m : list Z) (j : Z) : bool :=
  (sample m j 0 >? sample m j 1) && (sample m j 1 <? sample m j 2)
  && (sample m j 2 >? sample m j 3) && (sample m j 3 <? sample m j 0)
  && (sample m j 4 <? sample m j 0) && (sample m j 5 <? sample m j 0)
  && (sample m j 6 <? sample m j 0) && (sample m j 7 >? sample m j 8)
  && (sample m j 8 <? sample m j 9) && (sample m j 9 >? sample m j 6).

(** The second and third test: the samples between and after the spikes
    lie below [high]. *)
Definition preamble_quiet (m : list Z) (j : Z) : bool :=
  let high := (sample m j 0 + sample m j 2 + sample m j 7 + sample m j 9) / 6 in
  negb ((sample m j 4 >=? high) || (sample m j 5 >=? high))
  && negb ((sample m j 11 >=? high) || (sample m j 12 >=? high)
           || (sample m j 13 >=? high) || (sample m j 14 >=? high)).

Definition valid_preamble (m : list Z) (j : Z) : bool :=
  preamble_relations m j && preamble_quiet m j.

(** [detect_out_of_phase (m + j)]; it reads [m [j - 1]]. *)
Definition detect_out_of_phase (m : list Z) (j : Z) : Z :=
  if sample m j 3 >? sample m j 2 / 3 then 1
  else if sample m j 10 >? sample m j 9 / 3 then 1
  else if sample m j 6 >? sample m j 7 / 3 then -1
  else if at_ m (Z.to_nat j - 1) >? sample m j 1 / 3 then -1
  else 0.

(** The loop of [apply_phase_correction], [n] turns left, at offset [jj]
    from [b], the first sample after the preamble. *)
Fixpoint phase_loop (n jj b : nat) (m : list Z) : list Z :=
  match n with
  | O => m
  | S n' =>
      let v := at_ m (b + jj + 2) in
      let v' := if at_ m (b + jj) >? at_ m (b + jj + 1)
                then u16 (v * 5 / 4) else u16 (v * 4 / 5) in
      phase_loop n' (jj + 2) b (<[(b + jj + 2)%nat := v']> m)
  end.

(** [apply_phase_correction (m + j)]: [j = 0, 2, ..] below
    [2 * (MODES_LONG_MSG_BITS - 1)]. *)
Definition apply_phase_correction (m : list Z) (j : Z) : list Z :=
  phase_loop (MODES_LONG_MSG_BITS - 1) 0 (Z.to_nat j + 16) m.

(** The four branches of the bit slicer. *)
Inductive slice_branch := Carry | Error | One | Zero.

(** The branch taken at loop index [i] for the samples [low] and [high]. *)
Definition slice_branch_of (i : nat) (low high : Z) : slice_branch :=
  let delta := low - high in
  let delta := if delta <? 0 then - delta else delta in
  if (0 <? i)%nat && (delta <? 256) then Carry
  else if low =? high then Error
  else if low >? high then One
  else Zero.

(** One turn of the slicing loop, for bit [k] (the loop index is
    [i = 2 * k]): the bits and the error count. *)
Definition slice_step (m : list Z) (j : Z) (acc : list Z * Z) (k : nat) : list Z * Z :=
  let i := (2 * k)%nat in
  let low := sample m j (i + 2 * MODES_PREAMBLE_US) in
  let high := sample m j (i + 2 * MODES_PREAMBLE_US + 1) in
  match slice_branch_of i low high with
  | Carry => (<[k := at_ acc.1 (k - 1)]> acc.1, acc.2)
  | Error => (<[k := 2]> acc.1,
              if (i <? 2 * MODES_SHORT_MSG_BITS)%nat then acc.2 + 1 else acc.2)
  | One => (<[k := 1]> acc.1, acc.2)
  | Zero => (<[k := 0]> acc.1, acc.2)
  end.

(** The slicing loop over all 112 bits: [bits] and [errors]. *)
Definition slice_bits (m : list Z) (j : Z) : list Z * Z :=
  foldl (slice_step m j) (replicate MODES_LONG_MSG_BITS 0, 0) (seq 0 MODES_LONG_MSG_BITS).

(** One byte of the packed message. *)
Definition pack_byte (bits : list Z) (i : nat) : Z :=
  u8 (Z.lor (Z.lor (Z.lor (Z.lor (Z.lor (Z.lor (Z.lor
        (Z.shiftl (at_ bits i) 7)
        (Z.shiftl (at_ bits (i + 1)) 6))
        (Z.shiftl (at_ bits (i + 2)) 5))
        (Z.shiftl (at_ bits (i + 3)) 4))
        (Z.shiftl (at_ bits (i + 4)) 3))
        (Z.shiftl (at_ bits (i + 5)) 2))
        (Z.shiftl (at_ bits (i + 6)) 1))
        (at_ bits (i + 7))).

(** "Pack bits into bytes": the first 14 bytes of [msg]. *)
Definition pack_bits (bits : list Z) : list Z :=
  map (λ n, pack_byte bits (8 * n)) (seq 0 MODES_LONG_MSG_BYTES).

(** The noise filter's [delta]: the sum of [|low - high|] over the
    message, divided by [4 * msg_len]. *)
Definition mean_delta (m : list Z) (j : Z) (msg_len : nat) : Z :=
  foldl (λ delta k,
           delta + Z.abs (sample m j (2 * k + 2 * MODES_PREAMBLE_US)
                          - sample m j (2 * k + 2 * MODES_PREAMBLE_US + 1)))
        0 (seq 0 (8 * msg_len))
  / (4 * Z.of_nat msg_len).

(** [errors == 0 || (Modes.aggressive && errors <= 2)]. *)
Definition accepted (aggressive : bool) (errors : Z) : bool :=
  (errors =? 0) || (aggressive && (errors <=? 2)).

(** What the loop of [detect_modeS] carries from one turn to the next: the
    magnitude buffer, the scan position, the retry flag, the address cache,
    and the messages handed to [modeS_user_message] so far.  The
    statistics counters and the debug output are left out. *)
Record state := {
  m : list Z;
  j : Z;
  use_correction : bool;
  cache : list Z;
  delivered : list modeS_message
}.

Definition set_phase_corrected (b : bool) (mm : modeS_message) : modeS_message :=
  {| msg := msg mm; msg_bits := msg_bits mm; msg_type := msg_type mm;
     CRC_ok := CRC_ok mm; CRC := CRC mm; error_bit := error_bit mm; AA := AA mm;
     phase_corrected := b;
     ca := ca mm; ME_type := ME_type mm; ME_subtype := ME_subtype mm;
     flight_status := flight_status mm; DR_status := DR_status mm;
     UM_status := UM_status mm; identity := identity mm; altitude := altitude mm;
     unit := unit mm; aircraft_type := aircraft_type mm; flight := flight mm;
     odd_flag := odd_flag mm; UTC_flag := UTC_flag mm;
     raw_latitude := raw_latitude mm; raw_longitude := raw_longitude mm |}.

Section Detect.

Variable MODES_ICAO_CACHE_LEN : Z.
Variable MODES_ICAO_CACHE_TTL : Z.
Variable aggressive : bool.

(** [MODES_FULL_LEN], a macro of [misc.h]; it bounds the scan. *)
Variable MODES_FULL_LEN : Z.

(** The samples the demodulator works on in one turn: corrected when the
    turn is a retry and the candidate looks out of phase. *)
Definition working_buffer (st : state) : list Z :=
  if use_correction st && negb (j st =? 0)
     && negb (detect_out_of_phase (m st) (j st) =? 0)
  then apply_phase_correction (m st) (j st)
  else m st.

(** The buffer after the turn: on a retry, [aux], saved from
    [m + j + 2 * MODES_PREAMBLE_US] before the correction, is copied
    back. *)
Definition restored_buffer (st : state) : list Z :=
  if use_correction st then
    let a := (Z.to_nat (j st) + 2 * MODES_PREAMBLE_US)%nat in
    let aux := take (2 * MODES_LONG_MSG_BITS) (drop a (m st)) in
    take a (working_buffer st) ++ aux
    ++ drop (a + 2 * MODES_LONG_MSG_BITS) (working_buffer st)
  else working_buffer st.

(** The end of a turn that found no good message: either arm the retry
    ([j--], undone by the loop's [j++]) or give the candidate up. *)
Definition no_message (st : state) (buf : list Z) : state :=
  if negb (use_correction st)
  then {| m := buf; j := u32 (u32 (j st - 1) + 1); use_correction := true;
          cache := cache st; delivered := delivered st |}
  else {| m := buf; j := u32 (j st + 1); use_correction := false;
          cache := cache st; delivered := delivered st |}.

(** One turn of the loop of [detect_modeS], the [j++] included.  [now] is
    what [time (NULL)] returns inside the decoder. *)
Definition detect_step (now : Z) (st : state) : state :=
  if negb (use_correction st) && negb (valid_preamble (m st) (j st)) then
    {| m := m st; j := u32 (j st + 1); use_correction := use_correction st;
       cache := cache st; delivered := delivered st |}
  else
    let sliced := slice_bits (working_buffer st) (j st) in
    let buf := restored_buffer st in
    let msg := pack_bits sliced.1 in
    let msg_type := Z.shiftr (at_ msg 0) 3 in
    let msg_len := (modeS_message_len_by_type msg_type / 8)%nat in
    if mean_delta buf (j st) msg_len <? 10 * 255 then
      {| m := buf; j := u32 (j st + 1); use_correction := false;
         cache := cache st; delivered := delivered st |}
    else if accepted aggressive sliced.2 then
      let decoded :=
        decode_modeS_message MODES_ICAO_CACHE_LEN MODES_ICAO_CACHE_TTL aggressive
                             (cache st) now msg in
      if CRC_ok decoded.1 then
        {| m := buf;
           j := u32 (u32 (j st + 2 * (Z.of_nat MODES_PREAMBLE_US + 8 * Z.of_nat msg_len)) + 1);
           use_correction := false;
           cache := decoded.2;
           delivered := delivered st
                        ++ [set_phase_corrected (use_correction st) decoded.1] |}
      else no_message {| m := m st; j := j st; use_correction := use_correction st;
                         cache := decoded.2; delivered := delivered st |} buf
    else no_message st buf.

(** [detect_modeS (m, mlen)]: the loop runs while
    [j < mlen - 2 * MODES_FULL_LEN]; [fuel] bounds the number of turns. *)
Fixpoint detect_loop (now : Z) (mlen : Z) (fuel : nat) (st : state) : state :=
  match fuel with
  | O => st
  | S fuel' =>
      if j st <? u32 (mlen - 2 * MODES_FULL_LEN)
      then detect_loop now mlen fuel' (detect_step now st)
      else st
  end.

(** The message a turn packs from the sliced bits, and [msg_len]. *)
Definition candidate (st : state) : list Z :=
  pack_bits (slice_bits (working_buffer st) (j st)).1.

Definition candidate_len (st : state) : nat :=
  (modeS_message_len_by_type (Z.shiftr (at_ (candidate st) 0) 3) / 8)%nat.

(** [delta < 10*255]: the noise filter gives the candidate up. *)
Definition noise (st : state) : bool :=
  mean_delta (restored_buffer st) (j st) (candidate_len st) <? 10 * 255.

(** The turn gets past the preamble tests (a retry skips them) and past
    the noise filter. *)
Definition examined (st : state) : bool :=
  (use_correction st || valid_preamble (m st) (j st)) && negb (noise st).

(** What [decode_modeS_message] makes of the candidate. *)
Definition candidate_decoded (now : Z) (st : state) : modeS_message :=
  (decode_modeS_message MODES_ICAO_CACHE_LEN MODES_ICAO_CACHE_TTL aggressive
                        (cache st) now (candidate st)).1.

(** [good_message] at the end of the turn: the candidate was examined, the
    error count was accepted and the decoder set [CRC_ok]. *)
Definition good_message (now : Z) (st : state) : bool :=
  examined st
  && accepted aggressive (slice_bits (working_buffer st) (j st)).2
  && CRC_ok (candidate_decoded now st).

End Detect.

(** ** The bit slicer *)

Lemma slice_branch_no_error (i : nat) (low high : Z) :
  (0 < i)%nat → slice_branch_of i low high ≠ Error.
Proof.
  intros Hi. unfold slice_branch_of.
  assert (Hpos : (0 <? i)%nat = true) by (apply Nat.ltb_lt; lia).
  rewrite Hpos, andb_true_l.
  destruct (Z.ltb_spec (if low - high <? 0 then - (low - high) else low - high) 256)
    as [Hlt|Hge]; [done|].
  destruct (Z.eqb_spec low high) as [->|Hne].
  - exfalso. rewrite Z.sub_diag in Hge. simpl in Hge. lia.
  - destruct (low >? high); done.
Qed.

(** After the first bit the error count does not move. *)
Lemma slice_step_errors_later (m : list Z) (j : Z) (acc : list Z * Z) (k : nat) :
  (1 <= k)%nat → (slice_step m j acc k).2 = acc.2.
Proof.
  intros Hk. unfold slice_step.
  pose proof (slice_branch_no_error (2 * k)
                (sample m j (2 * k + 2 * MODES_PREAMBLE_US))
                (sample m j (2 * k + 2 * MODES_PREAMBLE_US + 1)) ltac:(lia)) as Hne.
  destruct (slice_branch_of _ _ _); done.
Qed.

Lemma slice_fold_errors_later (m : list Z) (j : Z) (l : list nat) (acc : list Z * Z) :
  Forall (λ k, 1 <= k)%nat l → (foldl (slice_step m j) acc l).2 = acc.2.
Proof.
  revert acc. induction l as [|k l IH]; intros acc Hl; [done|].
  apply Forall_cons in Hl as [Hk Hl]. simpl.
  rewrite IH by done. by apply slice_step_errors_later.
Qed.

(** The error count is decided by the first pair of samples alone. *)
Lemma slice_fold_errors (m : list Z) (j : Z) (n : nat) (acc : list Z * Z) :
  (foldl (slice_step m j) acc (seq 0 (S n))).2
  = if sample m j 16 =? sample m j 17 then acc.2 + 1 else acc.2.
Proof.
  rewrite <- cons_seq.
  change (foldl (slice_step m j) acc (0%nat :: seq 1 n))
    with (foldl (slice_step m j) (slice_step m j acc 0) (seq 1 n)).
  rewrite slice_fold_errors_later.
  - unfold slice_step, slice_branch_of.
    change (2 * 0 + 2 * MODES_PREAMBLE_US)%nat with 16%nat.
    change (16 + 1)%nat with 17%nat.
    change (0 <? 2 * 0)%nat with false. rewrite andb_false_l.
    destruct (sample m j 16 =? sample m j 17); [done|].
    by destruct (sample m j 16 >? sample m j 17).
  - apply Forall_forall. intros k Hk. apply elem_of_seq in Hk. lia.
Qed.

Lemma slice_bits_errors (m : list Z) (j : Z) :
  (slice_bits m j).2 = if sample m j 16 =? sample m j 17 then 1 else 0.
Proof. unfold slice_bits. apply (slice_fold_errors m j 111). Qed.

(** C10.  In the bit slicer the equal-magnitude error branch is not taken
    at any loop index [i > 0]; so for every magnitude buffer and scan
    position the error count is 0 or 1; and the rule
    [errors == 0 || (aggressive && errors <= 2)] accepts exactly the
    candidates with no error, and in aggressive mode those with the one
    error of the first bit. *)
Theorem slicer_error_count (m : list Z) (j : Z) (aggressive : bool) :
  (∀ (i : nat) (low high : Z), (0 < i)%nat → slice_branch_of i low high ≠ Error)
  ∧ 0 <= (slice_bits m j).2 <= 1
  ∧ accepted aggressive (slice_bits m j).2
    = ((slice_bits m j).2 =? 0)
      || (aggressive && ((slice_bits m j).2 =? 1) && (sample m j 16 =? sample m j 17)).
Proof.
  split; [exact slice_branch_no_error|].
  rewrite slice_bits_errors. unfold accepted.
  destruct (sample m j 16 =? sample m j 17); simpl.
  - split; [lia|]. by destruct aggressive.
  - split; [lia | done].
Qed.

Lemma slicer_error_count_witness :
  slice_branch_of 2 700 700 ≠ Error
  ∧ 0 <= (slice_bits [5; 5; 5; 5] 0).2 <= 1.
Proof.
  pose proof (slicer_error_count [5; 5; 5; 5] 0 true) as (H1 & H2 & _).
  split; [apply (H1 2%nat 700 700); lia | exact H2].
Defined.

(** ** The magnitude buffer across a turn *)

(** The correction writes only inside the window that was saved. *)
Lemma phase_loop_take (n jj b : nat) (m : list Z) (k : nat) :
  (k <= b + jj + 2)%nat → take k (phase_loop n jj b m) = take k m.
Proof.
  revert jj m. induction n as [|n IH]; intros jj m Hk; [done|].
  cbn [phase_loop]. rewrite IH by lia. apply take_insert_ge. lia.
Qed.

Lemma phase_loop_drop (n jj b : nat) (m : list Z) (k : nat) :
  (b + jj + 2 * n + 1 <= k)%nat → drop k (phase_loop n jj b m) = drop k m.
Proof.
  revert jj m. induction n as [|n IH]; intros jj m Hk; [done|].
  cbn [phase_loop]. rewrite IH by lia. apply drop_insert_lt. lia.
Qed.

Lemma restored_buffer_eq (st : state) : restored_buffer st = m st.
Proof.
  unfold restored_buffer. destruct (use_correction st) eqn:Huc.
  - assert (Hsame : ∀ l : list Z,
              take (Z.to_nat (j st) + 2 * MODES_PREAMBLE_US) l
              ++ take (2 * MODES_LONG_MSG_BITS)
                   (drop (Z.to_nat (j st) + 2 * MODES_PREAMBLE_US) l)
              ++ drop (Z.to_nat (j st) + 2 * MODES_PREAMBLE_US + 2 * MODES_LONG_MSG_BITS) l
              = l).
    { intros l.
      rewrite <- (drop_drop l (2 * MODES_LONG_MSG_BITS)
                    (Z.to_nat (j st) + 2 * MODES_PREAMBLE_US)).
      rewrite (take_drop (2 * MODES_LONG_MSG_BITS)). apply take_drop. }
    unfold working_buffer. rewrite Huc, andb_true_l.
    destruct (negb (j st =? 0) && negb (detect_out_of_phase (m st) (j st) =? 0));
      [|apply Hsame].
    unfold apply_phase_correction.
    rewrite phase_loop_take by (unfold MODES_PREAMBLE_US; lia).
    rewrite phase_loop_drop
      by (unfold MODES_PREAMBLE_US, MODES_LONG_MSG_BITS; lia).
    apply Hsame.
  - unfold working_buffer. by rewrite Huc.
Qed.

(** C9.  On a retry the demodulator slices a corrected copy of the window
    after the preamble and then copies the saved window back: the buffer
    it leaves is the buffer it found, at every sample index, whatever the
    turn did (rejected the candidate, accepted a message, or armed the
    retry). *)
Theorem detect_step_restores (LEN TTL : Z) (aggressive : bool) (now : Z) (st : state) :
  restored_buffer st = m st
  ∧ ∀ k : nat, m (detect_step LEN TTL aggressive now st) !! k = m st !! k.
Proof.
  split; [apply restored_buffer_eq|]. intros k. f_equal.
  unfold detect_step, no_message.
  repeat match goal with
         | |- context [if ?c then _ else _] => destruct c
         end; cbn [m]; try done; apply restored_buffer_eq.
Qed.

(** The correction is not idle.  On a flat buffer, at position 1 of a
    retry, the slicer works on a window whose sample 19 was scaled from
    1000 to 800; the buffer left by the turn has 1000 there again. *)
Lemma correction_is_applied :
  let st := {| m := replicate 300 1000; j := 1; use_correction := true;
               cache := replicate 2048 0; delivered := [] |} in
  at_ (m st) 19 = 1000
  ∧ at_ (working_buffer st) 19 = 800
  ∧ at_ (m (detect_step 1024 60 false 1000 st)) 19 = 1000.
Proof. vm_compute. repeat split; reflexivity. Qed.

(** ** The scan position across a turn *)

Lemma u32_dec_inc (x : Z) : 0 <= x < 2 ^ 32 → u32 (u32 (x - 1) + 1) = x.
Proof.
  intros Hx. unfold u32. change (2 ^ 32) with 4294967296 in Hx.
  Z.div_mod_to_equations. lia.
Qed.

(** The decoder takes the message length from the same first byte as the
    demodulator does. *)
Lemma decode_msg_bits (LEN TTL : Z) (aggressive : bool) (cache : list Z) (now : Z)
    (msg : list Z) :
  msg_bits (decode_modeS_message LEN TTL aggressive cache now msg).1
  = modeS_message_len_by_type (Z.shiftr (at_ msg 0) 3).
Proof.
  unfold decode_modeS_message. cbn [fst msg_bits].
  unfold at_. by rewrite lookup_take_lt by (unfold MODES_LONG_MSG_BYTES; lia).
Qed.

(** The three ways a turn of the loop can end. *)
Lemma detect_step_cases (LEN TTL : Z) (aggressive : bool) (now : Z) (st : state) :
  0 <= j st < 2 ^ 32 →
  let st' := detect_step LEN TTL aggressive now st in
  (∃ mm, delivered st' = delivered st ++ [mm] ∧ CRC_ok mm = true
         ∧ j st' = u32 (u32 (j st + 2 * (8 + 8 * Z.of_nat (msg_bits mm / 8))) + 1)
         ∧ use_correction st' = false)
  ∨ (delivered st' = delivered st ∧ use_correction st = false
     ∧ valid_preamble (m st) (j st) = true
     ∧ use_correction st' = true ∧ j st' = j st)
  ∨ (delivered st' = delivered st ∧ use_correction st' = false
     ∧ j st' = u32 (j st + 1)).
Proof.
  intros Hj st'. subst st'. unfold detect_step.
  destruct (negb (use_correction st) && negb (valid_preamble (m st) (j st))) eqn:Hpre.
  { right. right. cbn [delivered use_correction j].
    apply andb_prop in Hpre as [Huc _]. apply negb_true_iff in Huc. by rewrite Huc. }
  assert (Hretry : use_correction st = false → valid_preamble (m st) (j st) = true).
  { intros Huc. rewrite Huc in Hpre. simpl in Hpre. by apply negb_false_iff in Hpre. }
  set (sliced := slice_bits (working_buffer st) (j st)).
  set (msg := pack_bits sliced.1).
  set (len := (modeS_message_len_by_type (Z.shiftr (at_ msg 0) 3) / 8)%nat).
  destruct (mean_delta (restored_buffer st) (j st) len <? 10 * 255).
  { right. right. by cbn [delivered use_correction j]. }
  assert (Hnone : ∀ c,
    let st' := no_message {| m := m st; j := j st; use_correction := use_correction st;
                             cache := c; delivered := delivered st |}
                          (restored_buffer st) in
    (delivered st' = delivered st ∧ use_correction st = false
     ∧ valid_preamble (m st) (j st) = true
     ∧ use_correction st' = true ∧ j st' = j st)
    ∨ (delivered st' = delivered st ∧ use_correction st' = false
       ∧ j st' = u32 (j st + 1))).
  { intros c. unfold no_message. cbn [use_correction j delivered].
    destruct (use_correction st) eqn:Huc; cbn [negb delivered use_correction j].
    - by right.
    - left. repeat split; auto using u32_dec_inc. }
  destruct (accepted aggressive sliced.2).
  - set (decoded := decode_modeS_message LEN TTL aggressive (cache st) now msg).
    destruct (CRC_ok decoded.1) eqn:Hok.
    + left. exists (set_phase_corrected (use_correction st) decoded.1).
      cbn [delivered use_correction j set_phase_corrected CRC_ok msg_bits].
      split; [reflexivity|]. split; [exact Hok|]. split; [|reflexivity].
      subst decoded. rewrite decode_msg_bits. reflexivity.
    + right. apply (Hnone decoded.2).
  - right. destruct st as [m0 j0 uc0 c0 d0]. apply (Hnone c0).
Qed.

(** A candidate is settled in at most two turns: a turn that starts
    without correction is followed, at once or after one retry at the same
    position, by a turn that starts without correction again. *)
Lemma candidate_settled (LEN TTL : Z) (aggressive : bool) (now : Z) (st : state) :
  0 <= j st < 2 ^ 32 → use_correction st = false →
  let st1 := detect_step LEN TTL aggressive now st in
  let st2 := detect_step LEN TTL aggressive now st1 in
  use_correction st1 = false
  ∨ (use_correction st1 = true ∧ j st1 = j st ∧ use_correction st2 = false).
Proof.
  intros Hj Huc st1 st2.
  destruct (detect_step_cases LEN TTL aggressive now st Hj)
    as [(mm & _ & _ & _ & H1) | [(_ & _ & _ & H1 & Hj1) | (_ & H1 & _)]];
    fold st1 in H1; try fold st1 in Hj1; auto.
  right. split; [exact H1|]. split; [exact Hj1|].
  assert (Hj' : 0 <= j st1 < 2 ^ 32) by (rewrite Hj1; exact Hj).
  destruct (detect_step_cases LEN TTL aggressive now st1 Hj')
    as [(mm & _ & _ & _ & H2) | [(_ & H2 & _) | (_ & H2 & _)]];
    fold st2 in H2; try exact H2. congruence.
Qed.

(** What a turn does, case by case. *)
Lemma detect_step_outcome (LEN TTL : Z) (aggressive : bool) (now : Z) (st : state) :
  0 <= j st < 2 ^ 32 →
  let st' := detect_step LEN TTL aggressive now st in
  let mm := set_phase_corrected (use_correction st)
              (candidate_decoded LEN TTL aggressive now st) in
  if good_message LEN TTL aggressive now st
  then delivered st' = delivered st ++ [mm] ∧ CRC_ok mm = true
       ∧ j st' = u32 (u32 (j st + 2 * (8 + 8 * Z.of_nat (msg_bits mm / 8))) + 1)
       ∧ use_correction st' = false
  else delivered st' = delivered st
       ∧ if examined st && negb (use_correction st)
         then j st' = j st ∧ use_correction st' = true
         else j st' = u32 (j st + 1) ∧ use_correction st' = false.
Proof.
  intros Hj st' mm. subst st' mm.
  unfold good_message, examined, noise, candidate_decoded, candidate_len, candidate,
    detect_step.
  cbv zeta.
  set (sliced := slice_bits (working_buffer st) (j st)).
  set (msg := pack_bits sliced.1).
  set (len := (modeS_message_len_by_type (Z.shiftr (at_ msg 0) 3) / 8)%nat).
  set (dec := decode_modeS_message LEN TTL aggressive (cache st) now msg).
  assert (Hbits : (msg_bits dec.1 / 8)%nat = len).
  { subst dec len. by rewrite decode_msg_bits. }
  clearbody dec len msg sliced.
  destruct (use_correction st) eqn:Huc; cbn [negb andb orb].
  - destruct (mean_delta _ _ _ <? _); cbn [negb andb].
    { split; [reflexivity|]. split; reflexivity. }
    destruct (accepted _ _); cbn [andb].
    + destruct (CRC_ok dec.1) eqn:Hok.
      * cbn [delivered j use_correction set_phase_corrected CRC_ok msg_bits].
        split; [reflexivity|]. split; [exact Hok|]. split; [|reflexivity].
        rewrite Hbits. reflexivity.
      * unfold no_message. cbn [use_correction negb j delivered]. rewrite ?Huc.
        cbn [negb delivered j use_correction]. split; [reflexivity|]. split; reflexivity.
    + unfold no_message. rewrite ?Huc.
      cbn [negb delivered j use_correction]. split; [reflexivity|]. split; reflexivity.
  - destruct (valid_preamble _ _); cbn [negb andb orb].
    2:{ rewrite ?Huc. split; [reflexivity|]. split; reflexivity. }
    destruct (mean_delta _ _ _ <? _); cbn [negb andb].
    { split; [reflexivity|]. split; reflexivity. }
    destruct (accepted _ _); cbn [andb].
    + destruct (CRC_ok dec.1) eqn:Hok.
      * cbn [delivered j use_correction set_phase_corrected CRC_ok msg_bits].
        split; [reflexivity|]. split; [exact Hok|]. split; [|reflexivity].
        rewrite Hbits. reflexivity.
      * unfold no_message. cbn [use_correction negb j delivered]. rewrite ?Huc.
        cbn [negb delivered j use_correction].
        split; [reflexivity|]. split; [by apply u32_dec_inc | reflexivity].
    + unfold no_message. rewrite ?Huc. cbn [use_correction negb j delivered].
      split; [reflexivity|]. split; [by apply u32_dec_inc | reflexivity].
Qed.

(** A retry is never followed by another retry. *)
Lemma retry_settles (LEN TTL : Z) (aggressive : bool) (now : Z) (st : state) :
  use_correction st = true →
  use_correction (detect_step LEN TTL aggressive now st) = false.
Proof.
  intros Huc. unfold detect_step. rewrite Huc. cbn [negb andb].
  cbv zeta. destruct (_ <? _); [reflexivity|].
  destruct (accepted _ _).
  - destruct (CRC_ok _); [reflexivity|]. unfold no_message.
    cbn [use_correction]. rewrite ?Huc. reflexivity.
  - unfold no_message. rewrite ?Huc. reflexivity.
Qed.

(** C7, as the code has it.  A turn at scan position [j] hands over a
    message exactly when the candidate is examined (the preamble tests
    pass, or the turn is the retry, which skips them; and the noise filter
    lets it through: the mean [delta] is not below [10*255]), the error
    count of the slicer is accepted, and the decoder reports a good CRC.
    Then, the message having [L] bytes, the position becomes
    [j + 2 * (8 + 8 * L)] and moves by the loop's own step, to
    [j + 2 * (8 + 8 * L) + 1] (in 32-bit arithmetic).  When no message is
    handed over and the turn was the first attempt at an examined
    candidate, the position stays at [j] and the next turn retries the
    candidate with phase correction.  In every other case (the preamble
    tests fail, the noise filter gives the candidate up, or the turn was
    the retry) the position advances by exactly 1.  The retry happens
    once: the turn after it starts without correction. *)
Theorem detect_step_advance (LEN TTL : Z) (aggressive : bool) (now : Z) (st : state) :
  0 <= j st < 2 ^ 32 →
  let st' := detect_step LEN TTL aggressive now st in
  let mm := set_phase_corrected (use_correction st)
              (candidate_decoded LEN TTL aggressive now st) in
  (if good_message LEN TTL aggressive now st
   then delivered st' = delivered st ++ [mm] ∧ CRC_ok mm = true
        ∧ j st' = u32 (u32 (j st + 2 * (8 + 8 * Z.of_nat (msg_bits mm / 8))) + 1)
        ∧ use_correction st' = false
   else delivered st' = delivered st
        ∧ if examined st && negb (use_correction st)
          then j st' = j st ∧ use_correction st' = true
          else j st' = u32 (j st + 1) ∧ use_correction st' = false)
  ∧ (use_correction st' = true →
     use_correction (detect_step LEN TTL aggressive now st') = false).
Proof.
  intros Hj st' mm. split.
  - apply detect_step_outcome. exact Hj.
  - apply retry_settles.
Qed.

(** ** A modulated frame *)

(** The preamble: pulses at samples 0, 2, 7 and 9. *)
Definition preamble_pulses : list Z :=
  [10000; 0; 10000; 0; 0; 0; 0; 10000; 0; 10000; 0; 0; 0; 0; 0; 0].

(** The magnitude samples of a transmitted frame: two samples per bit,
    high-low for a one and low-high for a zero. *)
Definition modulate (msg : list Z) (nbits : nat) : list Z :=
  preamble_pulses
  ++ flat_map (λ k, if bit_set msg k then [10000; 0] else [0; 10000]) (seq 0 nbits).

(** A buffer of 250 samples that starts with the frame [msg]. *)
Definition buffer_with (msg : list Z) : state :=
  {| m := modulate msg 56 ++ replicate 122 0;
     j := 0;
     use_correction := false;
     cache := replicate 2048 0;
     delivered := [] |}.

(** A DF0 frame; its address is in no cache, so its CRC cannot be
    confirmed. *)
Definition df0_frame : list Z := [0x02; 0xE1; 0x97; 0xB0; 0x12; 0x34; 0x56].

Lemma detect_step_advance_witness :
  let st := buffer_with df11_good in
  let st' := detect_step 1024 60 false 1000 st in
  let mm := set_phase_corrected (use_correction st)
              (candidate_decoded 1024 60 false 1000 st) in
  (if good_message 1024 60 false 1000 st
   then delivered st' = delivered st ++ [mm] ∧ CRC_ok mm = true
        ∧ j st' = u32 (u32 (j st + 2 * (8 + 8 * Z.of_nat (msg_bits mm / 8))) + 1)
        ∧ use_correction st' = false
   else delivered st' = delivered st
        ∧ if examined st && negb (use_correction st)
          then j st' = j st ∧ use_correction st' = true
          else j st' = u32 (j st + 1) ∧ use_correction st' = false)
  ∧ (use_correction st' = true →
     use_correction (detect_step 1024 60 false 1000 st') = false).
Proof.
  intros st. apply (detect_step_advance 1024 60 false 1000 st).
  vm_compute. split; [discriminate | reflexivity].
Defined.

(** A valid preamble followed by silence: the noise filter gives the
    candidate up on its first attempt, and the scan moves on by 1 with no
    retry. *)
Definition silent_candidate : state :=
  {| m := preamble_pulses ++ replicate 234 0;
     j := 0;
     use_correction := false;
     cache := replicate 2048 0;
     delivered := [] |}.

Lemma noise_filter_gives_up :
  let st' := detect_step 1024 60 false 1000 silent_candidate in
  valid_preamble (m silent_candidate) 0 = true
  ∧ noise silent_candidate = true
  ∧ delivered st' = [] ∧ j st' = 1 ∧ use_correction st' = false.
Proof. vm_compute. repeat split; reflexivity. Qed.

(** C7 as stated fails.  A DF11 frame (7 bytes) found at position 0 is
    handed over with a good CRC and the scan goes on at position 129, not
    at [0 + 2 * (16 + 8 * 7) = 144].  And the first turn at a candidate
    whose message cannot be confirmed leaves the position where it was. *)
Lemma advance_differs :
  (let st' := detect_step 1024 60 false 1000 (buffer_with df11_good) in
   map (λ mm, (CRC_ok mm, msg_bits mm)) (delivered st') = [(true, 56%nat)]
   ∧ j st' = 129 ∧ 0 + 2 * (16 + 8 * 7) = 144)
  ∧ (let st' := detect_step 1024 60 false 1000 (buffer_with df0_frame) in
     delivered st' = [] ∧ j st' = 0 ∧ use_correction st' = true).
Proof. vm_compute. repeat split; reflexivity. Qed.

End Demod.

(** * The aircraft tracker ([interactive.c], [misc.c]) *)

Module Tracker.
Import Checksum Decoder ICAO.

Set Warnings "-inexact-float".

(** [a_show_t] ([aircraft.h]). *)
Inductive a_show_t := A_SHOW_FIRST_TIME | A_SHOW_LAST_TIME | A_SHOW_NORMAL | A_SHOW_NONE.

(** [pos_t]: a latitude and a longitude in degrees. *)
Record pos_t := { lat : float; lon : float }.

(** [struct aircraft] ([aircraft.h]), the fields [interactive_receive_data]
    and [decode_CPR] assign from the message fields modelled above.  Left
    out: speed and heading (from the velocity message), the signal levels,
    the distances and the estimated position, the database records. *)
Record aircraft := {
  addr : Z;
  flight : list ascii;
  altitude : Z;
  seen_first : Z;
  seen_last : Z;
  messages : Z;
  identity : Z;
  show : a_show_t;
  odd_CPR_lat : Z;
  odd_CPR_lon : Z;
  even_CPR_lat : Z;
  even_CPR_lon : Z;
  odd_CPR_time : Z;
  even_CPR_time : Z;
  position : pos_t
}.

(** ** CPR decoding ([misc.c]) *)

(** [CPR_mod_func]: C's [%] truncates, the function adds [b] back. *)
Definition CPR_mod_func (a b : Z) : Z :=
  let res := Z.rem a b in
  if res <? 0 then res + b else res.

(** The thresholds of [CPR_NL_func], in the order the code tests them. *)
Definition NL_table : list (float * Z) :=
  [ (10.47047130%float, 59); (14.82817437%float, 58); (18.18626357%float, 57); (21.02939493%float, 56);
    (23.54504487%float, 55); (25.82924707%float, 54); (27.93898710%float, 53); (29.91135686%float, 52);
    (31.77209708%float, 51); (33.53993436%float, 50); (35.22899598%float, 49); (36.85025108%float, 48);
    (38.41241892%float, 47); (39.92256684%float, 46); (41.38651832%float, 45); (42.80914012%float, 44);
    (44.19454951%float, 43); (45.54626723%float, 42); (46.86733252%float, 41); (48.16039128%float, 40);
    (49.42776439%float, 39); (50.67150166%float, 38); (51.89342469%float, 37); (53.09516153%float, 36);
    (54.27817472%float, 35); (55.44378444%float, 34); (56.59318756%float, 33); (57.72747354%float, 32);
    (58.84763776%float, 31); (59.95459277%float, 30); (61.04917774%float, 29); (62.13216659%float, 28);
    (63.20427479%float, 27); (64.26616523%float, 26); (65.31845310%float, 25); (66.36171008%float, 24);
    (67.39646774%float, 23); (68.42322022%float, 22); (69.44242631%float, 21); (70.45451075%float, 20);
    (71.45986473%float, 19); (72.45884545%float, 18); (73.45177442%float, 17); (74.43893416%float, 16);
    (75.42056257%float, 15); (76.39684391%float, 14); (77.36789461%float, 13); (78.33374083%float, 12);
    (79.29428225%float, 11); (80.24923213%float, 10); (81.19801349%float, 9); (82.13956981%float, 8);
    (83.07199445%float, 7); (83.99173563%float, 6); (84.89166191%float, 5); (85.75541621%float, 4);
    (86.53536998%float, 3); (87.00000000%float, 2) ].

(** The chain of [if (lat < bound) return (n);], ending in [return (1)]. *)
Fixpoint NL_lookup (table : list (float * Z)) (lat : float) : Z :=
  match table with
  | [] => 1
  | (bound, n) :: rest => if PrimFloat.ltb lat bound then n else NL_lookup rest lat
  end.

(** [CPR_NL_func]. *)
Definition CPR_NL_func (lat : float) : Z :=
  let lat := if PrimFloat.ltb lat 0%float then PrimFloat.opp lat else lat in
  NL_lookup NL_table lat.

(** [CPR_N_func]. *)
Definition CPR_N_func (lat : float) (is_odd : Z) : Z :=
  let nl := CPR_NL_func lat - is_odd in
  if nl <? 1 then 1 else nl.

(** [CPR_Dlong_func]. *)
Definition CPR_Dlong_func (lat : float) (is_odd : Z) : float :=
  PrimFloat.div 360%float (Double.of_int (CPR_N_func lat is_odd)).

(** The latitude index [j] of [decode_CPR]. *)
Definition CPR_j (a : aircraft) : Z :=
  let lat0 := Double.of_int (even_CPR_lat a) in
  let lat1 := Double.of_int (odd_CPR_lat a) in
  Double.floor
    (PrimFloat.add
       (PrimFloat.div
          (PrimFloat.sub (PrimFloat.mul (Double.of_int 59) lat0)
                         (PrimFloat.mul (Double.of_int 60) lat1))
          131072%float)
       0.5%float).

(** [if (rlat >= 270) rlat -= 360;] *)
Definition wrap_latitude (rlat : float) : float :=
  if PrimFloat.leb 270%float rlat then PrimFloat.sub rlat 360%float else rlat.

(** [rlat0] and [rlat1] of [decode_CPR], after the reduction. *)
Definition CPR_rlat0 (a : aircraft) : float :=
  let AirDlat0 := PrimFloat.div 360%float 60%float in
  let lat0 := Double.of_int (even_CPR_lat a) in
  wrap_latitude
    (PrimFloat.mul AirDlat0
       (PrimFloat.add (Double.of_int (CPR_mod_func (CPR_j a) 60))
                      (PrimFloat.div lat0 131072%float))).

Definition CPR_rlat1 (a : aircraft) : float :=
  let AirDlat1 := PrimFloat.div 360%float 59%float in
  let lat1 := Double.of_int (odd_CPR_lat a) in
  wrap_latitude
    (PrimFloat.mul AirDlat1
       (PrimFloat.add (Double.of_int (CPR_mod_func (CPR_j a) 59))
                      (PrimFloat.div lat1 131072%float))).

(** The longitude [decode_CPR] computes from the reference latitude
    [rlat]; [is_odd] and [lon_ref] are the flag and the raw longitude of
    the packet taken as the reference. *)
Definition CPR_longitude (a : aircraft) (rlat : float) (is_odd : Z) (lon_ref : float)
    : float :=
  let lon0 := Double.of_int (even_CPR_lon a) in
  let lon1 := Double.of_int (odd_CPR_lon a) in
  let ni := CPR_N_func rlat is_odd in
  let m :=
    Double.floor
      (PrimFloat.add
         (PrimFloat.div
            (PrimFloat.sub
               (PrimFloat.mul lon0 (Double.of_int (CPR_NL_func rlat - 1)))
               (PrimFloat.mul lon1 (Double.of_int (CPR_NL_func rlat))))
            131072%float)
         0.5%float) in
  let lon :=
    PrimFloat.mul (CPR_Dlong_func rlat is_odd)
      (PrimFloat.add (Double.of_int (CPR_mod_func m ni))
                     (PrimFloat.div lon_ref 131072%float)) in
  if PrimFloat.ltb 180%float lon then PrimFloat.sub lon 360%float else lon.

(** The position [decode_CPR] assigns; [None] when it returns before
    assigning one (the two latitudes lie in different zones). *)
Definition CPR_position (a : aircraft) : option pos_t :=
  let rlat0 := CPR_rlat0 a in
  let rlat1 := CPR_rlat1 a in
  if negb (CPR_NL_func rlat0 =? CPR_NL_func rlat1) then None
  else if even_CPR_time a >? odd_CPR_time a then
    Some {| lat := rlat0;
            lon := CPR_longitude a rlat0 0 (Double.of_int (even_CPR_lon a)) |}
  else
    Some {| lat := rlat1;
            lon := CPR_longitude a rlat1 1 (Double.of_int (odd_CPR_lon a)) |}.

Definition set_position (a : aircraft) (p : pos_t) : aircraft :=
  {| addr := addr a; flight := flight a; altitude := altitude a;
     seen_first := seen_first a; seen_last := seen_last a; messages := messages a;
     identity := identity a; show := show a;
     odd_CPR_lat := odd_CPR_lat a; odd_CPR_lon := odd_CPR_lon a;
     even_CPR_lat := even_CPR_lat a; even_CPR_lon := even_CPR_lon a;
     odd_CPR_time := odd_CPR_time a; even_CPR_time := even_CPR_time a;
     position := p |}.

(** [decode_CPR].  Its last call, [set_home_distance], writes the distance
    and the estimated position only. *)
Definition decode_CPR (a : aircraft) : aircraft :=
  match CPR_position a with
  | Some p => set_position a p
  | None => a
  end.

(** ** Receiving a message ([interactive.c]) *)

Definition space : ascii := Ascii.Ascii false false false false false true false false.

(** [while ( *p == ' ') *p-- = '\0';] with [p] at index [k] of the array.
    Below index 0 the C pointer would leave the array; the model stops
    there. *)
Fixpoint trim_loop (k : nat) (flight : list ascii) : list ascii :=
  if Ascii.eqb (default Ascii.zero (flight !! k)) space then
    let flight := <[k := Ascii.zero]> flight in
    match k with
    | O => flight
    | S k' => trim_loop k' flight
    end
  else flight.

(** The copy and the trim of the identification branch:
    [memcpy (a->flight, mm->flight, sizeof(a->flight))], then the loop from
    [p = a->flight + sizeof(a->flight) - 1]. *)
Definition copy_flight (mm_flight : list ascii) : list ascii :=
  trim_loop (9 - 1) (take 9 mm_flight).

Definition is_identification (mm : modeS_message) : bool :=
  (msg_type mm =? 17) && (1 <=? ME_type mm) && (ME_type mm <=? 4).

Definition is_position (mm : modeS_message) : bool :=
  (msg_type mm =? 17) && negb ((1 <=? ME_type mm) && (ME_type mm <=? 4))
  && (((9 <=? ME_type mm) && (ME_type mm <=? 18))
      || ((20 <=? ME_type mm) && (ME_type mm <=? 22))).

(** What [interactive_receive_data] stores into the record before it looks
    at the CPR times. *)
Definition store_fields (mm : modeS_message) (now : Z) (a : aircraft) : aircraft :=
  let surveillance :=
    (msg_type mm =? 0) || (msg_type mm =? 4) || (msg_type mm =? 20) in
  let pos := is_position mm in
  {| addr := addr a;
     flight := if is_identification mm then copy_flight (Decoder.flight mm)
               else flight a;
     altitude := if surveillance || pos then Decoder.altitude mm else altitude a;
     seen_first := seen_first a;
     seen_last := now;
     messages := u32 (messages a + 1);
     identity := if (msg_type mm =? 5) || (msg_type mm =? 21)
                 then Decoder.identity mm else identity a;
     show := show a;
     odd_CPR_lat := if pos && odd_flag mm then raw_latitude mm else odd_CPR_lat a;
     odd_CPR_lon := if pos && odd_flag mm then raw_longitude mm else odd_CPR_lon a;
     even_CPR_lat := if pos && negb (odd_flag mm) then raw_latitude mm else even_CPR_lat a;
     even_CPR_lon := if pos && negb (odd_flag mm) then raw_longitude mm else even_CPR_lon a;
     odd_CPR_time := if pos && odd_flag mm then now else odd_CPR_time a;
     even_CPR_time := if pos && negb (odd_flag mm) then now else even_CPR_time a;
     position := position a |}.

(** [llabs (t_diff) <= 60*10*1000] with
    [t_diff = (int64_t) (a->even_CPR_time - a->odd_CPR_time)]. *)
Definition CPR_times_close (a : aircraft) : bool :=
  Z.abs (s64 (even_CPR_time a - odd_CPR_time a)) <=? 60 * 10 * 1000.

(** The body of [interactive_receive_data] on the record found or
    created. *)
Definition receive_update (mm : modeS_message) (now : Z) (a : aircraft) : aircraft :=
  let a := store_fields mm now a in
  if is_position mm && CPR_times_close a then decode_CPR a else a.

(** Modelled from the spec: [aircraft_find_or_create] (declared in
    [aircraft.h], defined in [aircraft.c], which is not among the sources).
    The table holds at most one record per address; when the address is
    absent a new record is appended with [seen_first = seen_last = now],
    message count 0 and show-state first-time, every other field zero. *)
Definition new_aircraft (address now : Z) : aircraft :=
  {| addr := address; flight := replicate 9 Ascii.zero; altitude := 0;
     seen_first := now; seen_last := now; messages := 0; identity := 0;
     show := A_SHOW_FIRST_TIME;
     odd_CPR_lat := 0; odd_CPR_lon := 0; even_CPR_lat := 0; even_CPR_lon := 0;
     odd_CPR_time := 0; even_CPR_time := 0;
     position := {| lat := 0%float; lon := 0%float |} |}.

Fixpoint aircraft_find (address : Z) (table : list aircraft) : option nat :=
  match table with
  | [] => None
  | a :: rest =>
      if addr a =? address then Some 0%nat
      else option_map S (aircraft_find address rest)
  end.

Definition aircraft_find_or_create (address now : Z) (table : list aircraft)
    : list aircraft * nat :=
  match aircraft_find address table with
  | Some i => (table, i)
  | None => (table ++ [new_aircraft address now], length table)
  end.

(** [interactive_receive_data]: the table afterwards and the record
    returned ([None] for [NULL]). *)
Definition interactive_receive_data (mm : modeS_message) (now : Z)
    (table : list aircraft) : list aircraft * option aircraft :=
  if negb (CRC_ok mm) then (table, None)
  else
    let found := aircraft_find_or_create (address mm) now table in
    match found.1 !! found.2 with
    | None => (table, None)
    | Some a =>
        let a' := receive_update mm now a in
        (<[found.2 := a']> found.1, Some a')
    end.

(** ** Strings *)

(** The C string held by an array of characters: what precedes the first
    NUL. *)
Fixpoint c_string (l : list ascii) : list ascii :=
  match l with
  | [] => []
  | c :: rest => if Ascii.eqb c Ascii.zero then [] else c :: c_string rest
  end.

Fixpoint drop_spaces (l : list ascii) : list ascii :=
  match l with
  | [] => []
  | c :: rest => if Ascii.eqb c space then drop_spaces rest else l
  end.

(** A string without its trailing spaces. *)
Definition rstrip (l : list ascii) : list ascii := rev (drop_spaces (rev l)).

(** ** Sample frames *)

(** A pair of DF17 airborne-position frames of one aircraft (address
    [40621D]): the even one carries the raw latitude 93000 and longitude
    51372, the odd one 74158 and 50194. *)
Definition even_frame : list Z :=
  [0x8D; 0x40; 0x62; 0x1D; 0x58; 0xC3; 0x82; 0xD6; 0x90; 0xC8; 0xAC; 0x28; 0x63; 0xA7].
Definition odd_frame : list Z :=
  [0x8D; 0x40; 0x62; 0x1D; 0x58; 0xC3; 0x86; 0x43; 0x5C; 0xC4; 0x12; 0x69; 0x2A; 0xD6].

(** Decoding with an empty cache of 1024 slots, not in aggressive mode. *)
Definition decoded (frame : list Z) : modeS_message :=
  (decode_modeS_message 1024 60 false (replicate 2048 0) 1000 frame).1.

(** ** Finding the record *)

Lemma aircraft_find_lookup (address : Z) (table : list aircraft) (i : nat) :
  aircraft_find address table = Some i →
  ∃ a, table !! i = Some a ∧ addr a = address.
Proof.
  revert i. induction table as [|a rest IH]; intros i Hfind; [done|].
  cbn [aircraft_find] in Hfind.
  destruct (Z.eqb_spec (addr a) address) as [Heq|Hne].
  - injection Hfind as <-. by exists a.
  - destruct (aircraft_find address rest) as [k|]; [|done].
    injection Hfind as <-. apply (IH k eq_refl).
Qed.

Lemma aircraft_find_or_create_lookup (address now : Z) (table : list aircraft) :
  let found := aircraft_find_or_create address now table in
  ∃ a, found.1 !! found.2 = Some a ∧ addr a = address.
Proof.
  unfold aircraft_find_or_create.
  destruct (aircraft_find address table) as [i|] eqn:Hfind; cbn [fst snd].
  - by apply aircraft_find_lookup.
  - exists (new_aircraft address now). split; [|done].
    by rewrite lookup_app_r, Nat.sub_diag.
Qed.

(** A message with a good CRC is merged into a record of its address. *)
Lemma interactive_receive_data_accepts (mm : modeS_message) (now : Z)
    (table : list aircraft) :
  CRC_ok mm = true →
  ∃ a, addr a = address mm
       ∧ (interactive_receive_data mm now table).2 = Some (receive_update mm now a).
Proof.
  intros Hok. unfold interactive_receive_data. rewrite Hok. cbn [negb].
  destruct (aircraft_find_or_create_lookup (address mm) now table) as (a & Ha & Haddr).
  rewrite Ha. by exists a.
Qed.

(** ** The callsign *)

(** The loop of the trim starts on the terminating NUL and stops there. *)
Lemma copy_flight_decoded (msg : list Z) :
  copy_flight (decode_flight msg) = decode_flight msg.
Proof. reflexivity. Qed.

Lemma decode_flight_identification (LEN TTL : Z) (aggressive : bool)
    (cache : list Z) (now : Z) (frame : list Z) :
  let mm := (decode_modeS_message LEN TTL aggressive cache now frame).1 in
  is_identification mm = true → Decoder.flight mm = decode_flight (msg mm).
Proof.
  intros mm. subst mm. unfold is_identification, decode_modeS_message.
  cbn [fst Decoder.flight msg_type ME_type msg]. by intros ->.
Qed.

(** For DF17 the CRC verdict is that of the CRC stage alone. *)
Lemma decode_CRC_ok_df17 (LEN TTL : Z) (aggressive : bool) (cache : list Z) (now : Z)
    (frame : list Z) :
  Z.shiftr (at_ (take MODES_LONG_MSG_BYTES frame) 0) 3 = 17 →
  CRC_ok (decode_modeS_message LEN TTL aggressive cache now frame).1
  = (check_and_fix aggressive (take MODES_LONG_MSG_BYTES frame) 17
       (modeS_message_len_by_type 17)).2.
Proof.
  intros Hty. unfold decode_modeS_message. cbn [fst CRC_ok]. rewrite Hty.
  unfold address_stage.
  change (negb (17 =? 11) && negb (17 =? 17)) with false. cbv iota.
  by destruct (_ && _).
Qed.

Lemma s1_frame_rejected (LEN TTL : Z) (aggressive : bool) (cache : list Z) (now : Z) :
  CRC_ok (decode_modeS_message LEN TTL aggressive cache now s1_frame).1 = false.
Proof.
  rewrite decode_CRC_ok_df17 by reflexivity.
  destruct aggressive; vm_compute; reflexivity.
Qed.

(** C8, as the code has it.  For every DF17 message of ME-type 1..4 that
    the tracker accepts, the flight field of the aircraft record
    afterwards holds the 8-character AIS-decoded callsign, up to trailing
    spaces.  The frame 8D 4B 96 96 20 29 40 73 D9 84 07 48 22 11 does not
    pass the CRC, with or without the aggressive mode, so the tracker
    returns no record for it and leaves its table as it was. *)
Theorem identification_flight :
  (∀ (LEN TTL : Z) (aggressive : bool) (cache : list Z) (t : Z) (frame : list Z)
     (now : Z) (table : list aircraft),
     let mm := (decode_modeS_message LEN TTL aggressive cache t frame).1 in
     CRC_ok mm = true → msg_type mm = 17 → 1 <= ME_type mm <= 4 →
     ∃ a, (interactive_receive_data mm now table).2 = Some a
          ∧ rstrip (c_string (flight a))
            = rstrip (c_string (decode_flight (msg mm))))
  ∧ (∀ (LEN TTL : Z) (aggressive : bool) (cache : list Z) (t : Z)
       (now : Z) (table : list aircraft),
       interactive_receive_data
         (decode_modeS_message LEN TTL aggressive cache t s1_frame).1 now table
       = (table, None)).
Proof.
  split.
  - intros LEN TTL aggressive cache t frame now table mm Hok Hty [Hlo Hhi].
    assert (Hid : is_identification mm = true).
    { unfold is_identification. rewrite Hty.
      apply Z.leb_le in Hlo. apply Z.leb_le in Hhi. by rewrite Hlo, Hhi. }
    destruct (interactive_receive_data_accepts mm now table Hok) as (a & _ & Hret).
    exists (receive_update mm now a). split; [done|].
    assert (Hpos : is_position mm = false).
    { unfold is_position. unfold is_identification in Hid.
      apply andb_prop in Hid as [Hid Hhi']. apply andb_prop in Hid as [_ Hlo'].
      by rewrite Hlo', Hhi', andb_false_r. }
    unfold receive_update. rewrite Hpos. cbn [andb].
    unfold store_fields. cbn [flight]. rewrite Hid.
    subst mm. rewrite decode_flight_identification by done.
    by rewrite copy_flight_decoded.
  - intros LEN TTL aggressive cache t now table.
    unfold interactive_receive_data. by rewrite s1_frame_rejected.
Qed.

Lemma identification_flight_witness :
  ∃ a, (interactive_receive_data (decoded df17_ident) 5000 []).2 = Some a
       ∧ rstrip (c_string (flight a))
         = rstrip (c_string (decode_flight (msg (decoded df17_ident)))).
Proof.
  apply (proj1 identification_flight 1024 60 false (replicate 2048 0) 1000
           df17_ident 5000 []).
  - vm_compute. reflexivity.
  - vm_compute. reflexivity.
  - vm_compute. split; discriminate.
Defined.

(** C8 as stated fails.  The frame of scenario S1 fails the CRC, so the
    tracker stores nothing for it, and its eight AIS characters read
    [JTA36XPG].  And for a frame that is accepted, with callsign [KLM1023]
    and one trailing space, the stored flight keeps the space: the trim
    starts on the NUL after the eighth character. *)
Lemma stored_flight_differs :
  (CRC_ok (decoded s1_frame) = false
   ∧ interactive_receive_data (decoded s1_frame) 5000 [] = ([], None)
   ∧ c_string (Decoder.flight (decoded s1_frame))
     = list_ascii_of_string "JTA36XPG")
  ∧ (CRC_ok (decoded df17_ident) = true
     ∧ ME_type (decoded df17_ident) = 4
     ∧ option_map (λ a, c_string (flight a))
         (interactive_receive_data (decoded df17_ident) 5000 []).2
       = Some (list_ascii_of_string "KLM1023 ")
     ∧ rstrip (list_ascii_of_string "KLM1023 ") = list_ascii_of_string "KLM1023").
Proof. vm_compute. repeat split; reflexivity. Qed.

(** ** The position *)

Lemma position_store_fields (mm : modeS_message) (now : Z) (a : aircraft) :
  position (store_fields mm now a) = position a.
Proof. reflexivity. Qed.

(** The position changes only on a DF17 airborne-position message, with
    the two stored CPR times at most 10 minutes apart and the two
    candidate latitudes in the same zone. *)
Lemma position_guards (mm : modeS_message) (now : Z) (a : aircraft) :
  position (receive_update mm now a) ≠ position a →
  is_position mm = true
  ∧ CPR_times_close (store_fields mm now a) = true
  ∧ CPR_NL_func (CPR_rlat0 (store_fields mm now a))
    = CPR_NL_func (CPR_rlat1 (store_fields mm now a)).
Proof.
  intros Hne. unfold receive_update in Hne.
  destruct (is_position mm) eqn:Hp;
    [|exfalso; apply Hne; apply position_store_fields].
  destruct (CPR_times_close (store_fields mm now a)) eqn:Ht;
    [|exfalso; apply Hne; apply position_store_fields].
  cbn [andb] in Hne. unfold decode_CPR, CPR_position in Hne.
  destruct (Z.eqb_spec (CPR_NL_func (CPR_rlat0 (store_fields mm now a)))
                       (CPR_NL_func (CPR_rlat1 (store_fields mm now a))))
    as [Heq|Hneq].
  - split; [reflexivity|]. split; [reflexivity | exact Heq].
  - exfalso. apply Hne. cbn [negb]. apply position_store_fields.
Qed.

(** C1 fails on the code at its first condition.  An even position frame
    is the first message of an aircraft and arrives at tick 1000 ms: no odd
    fix has been received ([odd_CPR_time] and the odd raw values are still
    0), the two times are less than 10 minutes apart, both candidate
    latitudes fall in zone 1, and the position is assigned: latitude
    256.257 degrees, longitude 141.097 degrees. *)
Lemma position_from_single_fix :
  let mm := decoded even_frame in
  CRC_ok mm = true ∧ is_position mm = true ∧ odd_flag mm = false
  ∧ option_map (λ a, (odd_CPR_time a, odd_CPR_lat a, odd_CPR_lon a,
                      even_CPR_time a, even_CPR_lat a, even_CPR_lon a, position a))
      (interactive_receive_data mm 1000 []).2
    = Some (0, 0, 0, 1000, 93000, 51372,
            {| lat := 256.2572021484375%float; lon := 141.097412109375%float |}).
Proof. vm_compute. repeat split; reflexivity. Qed.

(** The same pair of frames received after the clock passed 10 minutes:
    the even frame alone assigns nothing, the odd frame that follows gives
    the position near 52.27 N, 3.94 E. *)
Lemma position_from_pair :
  let first := interactive_receive_data (decoded even_frame) 700000 [] in
  let second := interactive_receive_data (decoded odd_frame) 710000 first.1 in
  option_map position first.2 = Some {| lat := 0%float; lon := 0%float |}
  ∧ option_map position second.2
    = Some {| lat := 52.265780174126057%float; lon := 3.938912527901786%float |}.
Proof. vm_compute. split; reflexivity. Qed.

End Tracker.

(** * More about arrays *)

Lemma at_lookup (aux : list Z) (i : nat) :
  (i < length aux)%nat → aux !! i = Some (at_ aux i).
Proof.
  intros Hi. unfold at_. destruct (aux !! i) eqn:E; [done|].
  apply lookup_ge_None in E. lia.
Qed.

Lemma at_take (l : list Z) (n i : nat) : (i < n)%nat → at_ (take n l) i = at_ l i.
Proof. intros Hi. unfold at_. by rewrite lookup_take_lt. Qed.

Lemma at_drop (l : list Z) (n i : nat) : at_ (drop n l) i = at_ l (n + i).
Proof. unfold at_. by rewrite lookup_drop. Qed.

Lemma at_app_l (l k : list Z) (i : nat) : (i < length l)%nat → at_ (l ++ k) i = at_ l i.
Proof. intros Hi. unfold at_. by rewrite lookup_app_l. Qed.

Lemma at_app_r (l k : list Z) (i : nat) : at_ (l ++ k) (length l + i) = at_ k i.
Proof.
  unfold at_. rewrite lookup_app_r by lia.
  by replace (length l + i - length l)%nat with i by lia.
Qed.

Lemma at_elem (l : list Z) (i : nat) : (i < length l)%nat → at_ l i ∈ l.
Proof.
  intros Hi. rewrite (list_elem_of_lookup l (at_ l i)). exists i. by apply at_lookup.
Qed.

Lemma at_replicate_0 (n i : nat) : at_ (replicate n 0) i = 0.
Proof.
  unfold at_. destruct (replicate n 0 !! i) as [x|] eqn:E; [|done].
  apply lookup_replicate in E. simpl. tauto.
Qed.

(** * What the two fixers repair ([dump1090.c]) *)

Module Repair.
Import Checksum.

(** The syndrome of a frame: its trailing 24 bits XOR the checksum computed
    over it.  The frame passes the check when the syndrome is zero. *)
Definition syndrome (msg : list Z) (bits : nat) : Z :=
  Z.lxor (crc_field msg bits) (modeS_checksum msg bits).

(** What a flip of message bit [k] adds to the syndrome: the table entry of
    the bit and, for a bit of the trailing 24, the bit itself. *)
Definition bit_syndrome (bits k : nat) : Z :=
  Z.lxor (at_ modeS_checksum_table (k + checksum_offset bits))
         (if (bits - 24 <=? k)%nat then Z.shiftl 1 (Z.of_nat (bits - 1 - k)) else 0).

(** The error patterns of at most two bits: none, one bit [k], two bits
    [j < i]. *)
Definition patterns (bits : nat) : list (list nat) :=
  [] :: map (λ k, [k]) (seq 0 bits)
     ++ flat_map (λ j, map (λ i, [j; i]) (seq (S j) (bits - S j))) (seq 0 bits).

Definition pattern_syndrome (bits : nat) (p : list nat) : Z :=
  foldr (λ k s, Z.lxor (bit_syndrome bits k) s) 0 p.

(** Whether the numbers of a list are pairwise different, with the ones
    met so far kept in a binary trie. *)
Fixpoint distinct_from (seen : FMapPositive.PositiveMap.t unit) (l : list Z) : bool :=
  match l with
  | [] => true
  | x :: rest =>
      match FMapPositive.PositiveMap.find (Z.to_pos (x + 1)) seen with
      | Some _ => false
      | None => distinct_from (FMapPositive.PositiveMap.add (Z.to_pos (x + 1)) tt seen) rest
      end
  end.

Definition distinct (l : list Z) : bool :=
  distinct_from (FMapPositive.PositiveMap.empty unit) l.

(** ** Pairwise different numbers *)

Lemma distinct_from_sound (seen : FMapPositive.PositiveMap.t unit) (l : list Z) :
  Forall (λ x, 0 <= x) l → distinct_from seen l = true →
  NoDup l
  ∧ ∀ x, x ∈ l → FMapPositive.PositiveMap.find (Z.to_pos (x + 1)) seen = None.
Proof.
  revert seen. induction l as [|x rest IH]; intros seen Hpos Hd.
  - split; [constructor | intros x Hx; by apply elem_of_nil in Hx].
  - apply Forall_cons in Hpos as [Hx Hpos]. cbn [distinct_from] in Hd.
    destruct (FMapPositive.PositiveMap.find (Z.to_pos (x + 1)) seen) eqn:Hfind; [done|].
    destruct (IH _ Hpos Hd) as [Hnd Hnew]. split.
    + constructor; [|done]. intros Hin. specialize (Hnew x Hin).
      by rewrite FMapPositive.PositiveMap.gss in Hnew.
    + intros y [->|Hy]%elem_of_cons; [done|].
      specialize (Hnew y Hy).
      destruct (Z.eq_dec y x) as [->|Hne]; [done|].
      rewrite FMapPositive.PositiveMap.gso in Hnew; [done|].
      assert (0 <= y) by (apply (proj1 (Forall_forall _ _) Hpos y Hy)).
      lia.
Qed.

Lemma distinct_sound (l : list Z) :
  Forall (λ x, 0 <= x) l → distinct l = true → NoDup l.
Proof. intros Hpos Hd. by destruct (distinct_from_sound _ l Hpos Hd). Qed.

Lemma NoDup_map_inj {A B : Type} (f : A → B) (l : list A) (x y : A) :
  NoDup (map f l) → x ∈ l → y ∈ l → f x = f y → x = y.
Proof.
  induction l as [|a l IH]; intros Hnd Hx Hy Heq; [by apply elem_of_nil in Hx|].
  cbn [map] in Hnd. apply NoDup_cons in Hnd as [Ha Hnd].
  apply elem_of_cons in Hx as [->|Hx]; apply elem_of_cons in Hy as [->|Hy]; auto.
  - exfalso. apply Ha. rewrite Heq. apply list_elem_of_In, in_map, list_elem_of_In, Hy.
  - exfalso. apply Ha. rewrite <- Heq. apply list_elem_of_In, in_map, list_elem_of_In, Hx.
Qed.

(** ** The distance of the code *)

Lemma bit_syndrome_nonneg (bits k : nat) : 0 <= bit_syndrome bits k.
Proof.
  unfold bit_syndrome. apply Z.lxor_nonneg.
  pose proof (table_range (k + checksum_offset bits)).
  destruct (bits - 24 <=? k)%nat; [|lia].
  rewrite Z.shiftl_1_l. split; intros _; [apply Z.pow_nonneg|]; lia.
Qed.

Lemma pattern_syndrome_nonneg (bits : nat) (p : list nat) : 0 <= pattern_syndrome bits p.
Proof.
  induction p as [|k p IH]; [done|]. cbn [pattern_syndrome foldr].
  apply Z.lxor_nonneg. pose proof (bit_syndrome_nonneg bits k).
  unfold pattern_syndrome in IH. lia.
Qed.

Lemma patterns_distinct_56 :
  distinct (map (pattern_syndrome 56) (patterns 56)) = true.
Proof. vm_compute. reflexivity. Qed.

Lemma patterns_distinct_112 :
  distinct (map (pattern_syndrome 112) (patterns 112)) = true.
Proof. vm_compute. reflexivity. Qed.

(** No two error patterns of at most two bits have the same syndrome: the
    code has distance 5 at least, for both message lengths. *)
Lemma pattern_syndrome_inj (bits : nat) (p q : list nat) :
  (bits = 56 ∨ bits = 112)%nat →
  p ∈ patterns bits → q ∈ patterns bits →
  pattern_syndrome bits p = pattern_syndrome bits q → p = q.
Proof.
  intros Hbits. apply NoDup_map_inj. apply distinct_sound.
  - apply Forall_forall. intros x Hx.
    apply list_elem_of_In, in_map_iff in Hx as (p' & <- & _).
    apply pattern_syndrome_nonneg.
  - destruct Hbits as [-> | ->]; [apply patterns_distinct_56 | apply patterns_distinct_112].
Qed.

Lemma patterns_none (bits : nat) : [] ∈ patterns bits.
Proof. unfold patterns. by left. Qed.

Lemma patterns_one (bits k : nat) : (k < bits)%nat → [k] ∈ patterns bits.
Proof.
  intros Hk. unfold patterns. right. apply elem_of_app. left.
  apply list_elem_of_In, (in_map (λ k, [k])), in_seq. lia.
Qed.

Lemma patterns_two (bits j i : nat) : (j < i < bits)%nat → [j; i] ∈ patterns bits.
Proof.
  intros Hji. unfold patterns. right. apply elem_of_app. right.
  apply list_elem_of_In, in_flat_map. exists j. split.
  - apply in_seq. lia.
  - apply (in_map (λ i, [j; i])), in_seq. lia.
Qed.

(** ** Flipping bits *)

Lemma bitmask_range (k : nat) : 0 <= bitmask k < 256.
Proof.
  unfold bitmask. rewrite Z.shiftl_1_l.
  pose proof (Nat.mod_upper_bound k 8 ltac:(lia)).
  split; [apply Z.pow_nonneg; lia|].
  change 256 with (2 ^ 8). apply Z.pow_lt_mono_r; lia.
Qed.

Lemma flip_byte (aux : list Z) (k : nat) :
  is_bytes aux →
  u8 (Z.lxor (at_ aux (k / 8)) (bitmask k)) = Z.lxor (at_ aux (k / 8)) (bitmask k).
Proof.
  intros Hb. unfold u8. apply Z.mod_small. change 256 with (2 ^ 8).
  apply lxor_range; [lia | apply (at_bytes _ _ Hb) | apply bitmask_range].
Qed.

Lemma length_flip_bit (aux : list Z) (k : nat) : length (flip_bit aux k) = length aux.
Proof. unfold flip_bit. apply length_insert. Qed.

(** Flipping a bit twice gives the frame back. *)
Lemma flip_bit_involutive (aux : list Z) (k : nat) :
  is_bytes aux → (k / 8 < length aux)%nat → flip_bit (flip_bit aux k) k = aux.
Proof.
  intros Hb Hk. unfold flip_bit at 1.
  rewrite flip_byte by by apply is_bytes_flip.
  unfold flip_bit. rewrite at_insert_eq, flip_byte by done.
  rewrite list_insert_insert_eq.
  rewrite Z.lxor_assoc, Z.lxor_nilpotent, Z.lxor_0_r.
  apply list_insert_id. by apply at_lookup.
Qed.

(** Flips of different bits can be done in either order. *)
Lemma flip_bit_comm (aux : list Z) (a b : nat) :
  is_bytes aux → (a / 8 < length aux)%nat → (b / 8 < length aux)%nat →
  flip_bit (flip_bit aux a) b = flip_bit (flip_bit aux b) a.
Proof.
  intros Hb Ha Hlb. unfold flip_bit at 1 3.
  rewrite !flip_byte by by apply is_bytes_flip.
  unfold flip_bit. rewrite !flip_byte by done.
  destruct (Nat.eq_dec (a / 8)%nat (b / 8)%nat) as [E|E].
  - rewrite E in *. rewrite !at_insert_eq, !list_insert_insert_eq by done.
    f_equal. rewrite !Z.lxor_assoc. f_equal. apply Z.lxor_comm.
  - rewrite !at_insert_ne by done.
    apply list_eq. intros i.
    destruct (Nat.eq_dec i (a / 8)%nat) as [->|Hia];
      [|destruct (Nat.eq_dec i (b / 8)%nat) as [->|Hib]].
    + rewrite list_lookup_insert_ne by done.
      by rewrite !list_lookup_insert_eq by (rewrite ?length_insert; done).
    + rewrite list_lookup_insert_eq by (rewrite ?length_insert; done).
      rewrite list_lookup_insert_ne by done.
      by rewrite list_lookup_insert_eq by done.
    + by rewrite !list_lookup_insert_ne by done.
Qed.

(** ** The syndrome of a damaged frame *)

Lemma check_syndrome (msg : list Z) (bits : nat) :
  check msg bits = (syndrome msg bits =? 0).
Proof.
  unfold check, syndrome.
  destruct (Z.eqb_spec (crc_field msg bits) (modeS_checksum msg bits)) as [->|Hne].
  - by rewrite Z.lxor_nilpotent.
  - symmetry. apply Z.eqb_neq. intros H0. by apply Z.lxor_eq in H0.
Qed.

Lemma land_shiftl_low (hi lo n : Z) :
  0 <= n → 0 <= lo < 2 ^ n → Z.land (Z.shiftl hi n) lo = 0.
Proof.
  intros Hn Hlo. apply Z.bits_inj'. intros m Hm. rewrite Z.land_spec, Z.bits_0.
  destruct (Z.lt_ge_cases m n) as [Hlt|Hge].
  - by rewrite Z.shiftl_spec_low.
  - rewrite <- (Z.mod_small lo (2 ^ n)) by done.
    rewrite Z.mod_pow2_bits_high by lia. apply andb_false_r.
Qed.

(** For bytes the three parts of the 24-bit field do not overlap. *)
Lemma be24_lxor (a b c : Z) :
  0 <= a < 256 → 0 <= b < 256 → 0 <= c < 256 →
  Z.lor (Z.lor (Z.shiftl a 16) (Z.shiftl b 8)) c
  = Z.lxor (Z.lxor (Z.shiftl a 16) (Z.shiftl b 8)) c.
Proof.
  intros Ha Hb Hc.
  assert (H1 : Z.land (Z.shiftl a 16) (Z.shiftl b 8) = 0).
  { apply land_shiftl_low; [lia|]. rewrite Z.shiftl_mul_pow2 by lia. lia. }
  rewrite <- (Z.lxor_lor _ _ H1).
  assert (H2 : Z.land (Z.lxor (Z.shiftl a 16) (Z.shiftl b 8)) c = 0).
  { replace (Z.lxor (Z.shiftl a 16) (Z.shiftl b 8))
      with (Z.shiftl (Z.lxor (Z.shiftl a 8) b) 8).
    - apply land_shiftl_low; lia.
    - rewrite Z.shiftl_lxor, Z.shiftl_shiftl by lia. reflexivity. }
  by rewrite <- (Z.lxor_lor _ _ H2).
Qed.

Lemma crc_field_lxor (msg : list Z) (bits : nat) :
  is_bytes msg →
  crc_field msg bits
  = Z.lxor (Z.lxor (Z.shiftl (at_ msg (bits / 8 - 3)) 16)
                   (Z.shiftl (at_ msg (bits / 8 - 2)) 8))
           (at_ msg (bits / 8 - 1)).
Proof. intros Hb. apply be24_lxor; by apply at_bytes. Qed.

Lemma at_flip_bit (aux : list Z) (k : nat) :
  is_bytes aux → (k / 8 < length aux)%nat →
  at_ (flip_bit aux k) (k / 8) = Z.lxor (at_ aux (k / 8)) (bitmask k).
Proof. intros Hb Hk. unfold flip_bit. by rewrite at_insert_eq, flip_byte. Qed.

Ltac xor_solve :=
  apply Z.bits_inj'; intros ?n ?Hn; rewrite ?Z.lxor_spec, ?Z.bits_0;
  repeat match goal with
         | |- context [Z.testbit ?a ?n] => destruct (Z.testbit a n)
         end; reflexivity.

(** A flip in the trailing 24 bits flips that bit of the field. *)
Lemma crc_field_flip_bit (aux : list Z) (n k : nat) :
  is_bytes aux → (3 <= n)%nat → length aux = n →
  (8 * n - 24 <= k < 8 * n)%nat →
  crc_field (flip_bit aux k) (8 * n)
  = Z.lxor (crc_field aux (8 * n)) (Z.shiftl 1 (Z.of_nat (8 * n - 1 - k))).
Proof.
  intros Hb H3 Hlen Hk.
  pose proof (is_bytes_flip aux k Hb) as Hb'.
  rewrite !crc_field_lxor by done.
  replace (8 * n / 8)%nat with n by (rewrite Nat.mul_comm, Nat.div_mul; lia).
  pose proof (Nat.div_mod_eq k 8) as Hdm.
  pose proof (Nat.mod_upper_bound k 8 ltac:(lia)) as Hr.
  assert (Hq : (n - 3 <= k / 8 < n)%nat) by lia.
  assert (Hmask : ∀ s : Z, 0 <= s →
            Z.shiftl (bitmask k) s = Z.shiftl 1 (Z.of_nat (7 - k mod 8) + s)).
  { intros s Hs. unfold bitmask. rewrite Z.shiftl_shiftl by lia. reflexivity. }
  destruct (Nat.eq_dec (k / 8)%nat (n - 3)%nat) as [E|E];
    [|destruct (Nat.eq_dec (k / 8)%nat (n - 2)%nat) as [E'|E']].
  - rewrite !(flip_bit_other aux k (n - 2)), !(flip_bit_other aux k (n - 1)) by lia.
    rewrite <- E, at_flip_bit, Z.shiftl_lxor, Hmask by (done || lia).
    replace (Z.of_nat (8 * n - 1 - k)) with (Z.of_nat (7 - k mod 8) + 16) by lia.
    generalize (Z.shiftl 1 (Z.of_nat (7 - k mod 8) + 16)). intros e.
    generalize (Z.shiftl (at_ aux (k / 8)) 16) (Z.shiftl (at_ aux (n - 2)) 8)
               (at_ aux (n - 1)). intros x y z. xor_solve.
  - rewrite !(flip_bit_other aux k (n - 3)), !(flip_bit_other aux k (n - 1)) by lia.
    rewrite <- E', at_flip_bit, Z.shiftl_lxor, Hmask by (done || lia).
    replace (Z.of_nat (8 * n - 1 - k)) with (Z.of_nat (7 - k mod 8) + 8) by lia.
    generalize (Z.shiftl 1 (Z.of_nat (7 - k mod 8) + 8)). intros e.
    generalize (Z.shiftl (at_ aux (n - 3)) 16) (Z.shiftl (at_ aux (k / 8)) 8)
               (at_ aux (n - 1)). intros x y z. xor_solve.
  - assert (E'' : (k / 8 = n - 1)%nat) by lia.
    rewrite !(flip_bit_other aux k (n - 3)), !(flip_bit_other aux k (n - 2)) by lia.
    rewrite <- E'', at_flip_bit by (done || lia).
    replace (Z.of_nat (8 * n - 1 - k)) with (Z.of_nat (7 - k mod 8)) by lia.
    fold (bitmask k).
    generalize (bitmask k). intros e.
    generalize (Z.shiftl (at_ aux (n - 3)) 16) (Z.shiftl (at_ aux (n - 2)) 8)
               (at_ aux (k / 8)). intros x y z. xor_solve.
Qed.

(** Flipping message bit [k] adds [bit_syndrome bits k] to the syndrome. *)
Lemma syndrome_flip (aux : list Z) (bits k : nat) :
  (bits = 56 ∨ bits = 112)%nat → is_bytes aux → length aux = (bits / 8)%nat →
  (k < bits)%nat →
  syndrome (flip_bit aux k) bits = Z.lxor (syndrome aux bits) (bit_syndrome bits k).
Proof.
  intros Hbits Hb Hlen Hk.
  assert (Hn : ∃ n, bits = (8 * n)%nat ∧ (3 <= n)%nat ∧ length aux = n).
  { destruct Hbits as [-> | ->]; [exists 7%nat | exists 14%nat];
      (split; [reflexivity|]); (split; [lia | exact Hlen]). }
  destruct Hn as (n & -> & H3 & Hn).
  assert (Hk8 : (k / 8 < length aux)%nat).
  { rewrite Hn. apply Nat.Div0.div_lt_upper_bound. lia. }
  unfold syndrome, bit_syndrome.
  rewrite modeS_checksum_flip by done.
  destruct (Nat.leb_spec (8 * n - 24) k) as [Htail|Hbody].
  - rewrite crc_field_flip_bit by (done || lia).
    generalize (Z.shiftl 1 (Z.of_nat (8 * n - 1 - k)))
               (at_ modeS_checksum_table (k + checksum_offset (8 * n)))
               (crc_field aux (8 * n)) (modeS_checksum aux (8 * n)).
    intros e t c s. xor_solve.
  - rewrite crc_field_flip_body.
    + generalize (at_ modeS_checksum_table (k + checksum_offset (8 * n)))
                 (crc_field aux (8 * n)) (modeS_checksum aux (8 * n)).
      intros t c s. xor_solve.
    + replace (8 * n / 8)%nat with n by (rewrite Nat.mul_comm, Nat.div_mul; lia).
      apply Nat.Div0.div_lt_upper_bound. lia.
Qed.

Lemma syndrome_good (good : list Z) (bits : nat) :
  check good bits = true → syndrome good bits = 0.
Proof. rewrite check_syndrome. apply Z.eqb_eq. Qed.

(** The check reads the first [bits/8] bytes only. *)
Lemma check_app (aux rest : list Z) (bits : nat) :
  (bits = 56 ∨ bits = 112)%nat → length aux = (bits / 8)%nat →
  check (aux ++ rest) bits = check aux bits.
Proof.
  intros Hbits Hlen.
  assert (Hat : ∀ i, (i < bits / 8)%nat → at_ (aux ++ rest) i = at_ aux i).
  { intros i Hi. unfold at_. by rewrite lookup_app_l by lia. }
  assert (H3 : (3 <= bits / 8)%nat).
  { destruct Hbits as [-> | ->]; [change (56 / 8)%nat with 7%nat
                                 | change (112 / 8)%nat with 14%nat]; lia. }
  unfold check, crc_field. rewrite !Hat by lia. f_equal.
  unfold modeS_checksum. apply checksum_fold_ext. intros j Hj _.
  apply elem_of_seq in Hj. unfold bit_set. rewrite Hat; [done|].
  destruct Hbits as [-> | ->].
  - change (56 / 8)%nat with 7%nat. apply Nat.Div0.div_lt_upper_bound; lia.
  - change (112 / 8)%nat with 14%nat. apply Nat.Div0.div_lt_upper_bound; lia.
Qed.

(** ** The loops *)

(** The loop of the single-bit fixer returns the first bit whose flip
    passes the check. *)
Lemma fix_single_loop_first (msg : list Z) (bits n i k : nat) :
  (i <= k < i + n)%nat →
  (∀ i', (i <= i' < k)%nat → check (flip_bit (take (bits / 8) msg) i') bits = false) →
  check (flip_bit (take (bits / 8) msg) k) bits = true →
  fix_single_loop msg bits n i
  = (Z.of_nat k, flip_bit (take (bits / 8) msg) k ++ drop (bits / 8) msg).
Proof.
  revert i. induction n as [|n IH]; intros i Hk Hbefore Hgood; [lia|].
  rewrite fix_single_loop_S.
  destruct (Nat.eq_dec i k) as [->|Hne].
  - by rewrite Hgood.
  - rewrite (Hbefore i) by lia. apply IH; [lia | | done].
    intros i' Hi'. apply Hbefore. lia.
Qed.

(** The loop either gives up, with the buffer as it was, or flips one bit
    whose flip passes the check. *)
Lemma fix_single_loop_result (msg : list Z) (bits n i : nat) :
  fix_single_loop msg bits n i = (-1, msg)
  ∨ ∃ k, (i <= k < i + n)%nat
         ∧ check (flip_bit (take (bits / 8) msg) k) bits = true
         ∧ fix_single_loop msg bits n i
           = (Z.of_nat k, flip_bit (take (bits / 8) msg) k ++ drop (bits / 8) msg).
Proof.
  revert i. induction n as [|n IH]; intros i; [by left|].
  rewrite fix_single_loop_S.
  destruct (check (flip_bit (take (bits / 8) msg) i) bits) eqn:Hc.
  - right. exists i. split; [lia | done].
  - destruct (IH (S i)) as [Hnone | (k & Hk & Hgood & Hrun)]; [by left|].
    right. exists k. split; [lia | done].
Qed.

Lemma fix_two_inner_S (msg : list Z) (bits j n i : nat) :
  fix_two_inner msg bits j (S n) i
  = if check (flip_bit (flip_bit (take (bits / 8) msg) j) i) bits
    then Some (Z.lor (Z.of_nat j) (Z.shiftl (Z.of_nat i) 8),
               flip_bit (flip_bit (take (bits / 8) msg) j) i ++ drop (bits / 8) msg)
    else fix_two_inner msg bits j n (S i).
Proof. reflexivity. Qed.

Lemma fix_two_inner_none (msg : list Z) (bits j n i : nat) :
  (∀ i', (i <= i' < i + n)%nat →
         check (flip_bit (flip_bit (take (bits / 8) msg) j) i') bits = false) →
  fix_two_inner msg bits j n i = None.
Proof.
  revert i. induction n as [|n IH]; intros i H; [done|].
  rewrite fix_two_inner_S, (H i) by lia. apply IH. intros i' Hi'. apply H. lia.
Qed.

Lemma fix_two_inner_first (msg : list Z) (bits j n i k : nat) :
  (i <= k < i + n)%nat →
  (∀ i', (i <= i' < k)%nat →
         check (flip_bit (flip_bit (take (bits / 8) msg) j) i') bits = false) →
  check (flip_bit (flip_bit (take (bits / 8) msg) j) k) bits = true →
  fix_two_inner msg bits j n i
  = Some (Z.lor (Z.of_nat j) (Z.shiftl (Z.of_nat k) 8),
          flip_bit (flip_bit (take (bits / 8) msg) j) k ++ drop (bits / 8) msg).
Proof.
  revert i. induction n as [|n IH]; intros i Hk Hbefore Hgood; [lia|].
  rewrite fix_two_inner_S.
  destruct (Nat.eq_dec i k) as [->|Hne].
  - by rewrite Hgood.
  - rewrite (Hbefore i) by lia. apply IH; [lia | | done].
    intros i' Hi'. apply Hbefore. lia.
Qed.

Lemma fix_two_inner_result (msg : list Z) (bits j n i : nat) (r : Z * list Z) :
  fix_two_inner msg bits j n i = Some r →
  ∃ k, (i <= k < i + n)%nat
       ∧ check (flip_bit (flip_bit (take (bits / 8) msg) j) k) bits = true
       ∧ r = (Z.lor (Z.of_nat j) (Z.shiftl (Z.of_nat k) 8),
              flip_bit (flip_bit (take (bits / 8) msg) j) k ++ drop (bits / 8) msg).
Proof.
  revert i. induction n as [|n IH]; intros i Hrun; [done|].
  rewrite fix_two_inner_S in Hrun.
  destruct (check (flip_bit (flip_bit (take (bits / 8) msg) j) i) bits) eqn:Hc.
  - injection Hrun as <-. exists i. split; [lia | done].
  - destruct (IH (S i) Hrun) as (k & Hk & Hrest). exists k. split; [lia | done].
Qed.

Lemma fix_two_outer_S (msg : list Z) (bits n j : nat) :
  fix_two_outer msg bits (S n) j
  = match fix_two_inner msg bits j (bits - (j + 1)) (j + 1) with
    | Some r => r
    | None => fix_two_outer msg bits n (S j)
    end.
Proof. reflexivity. Qed.

Lemma fix_two_outer_first (msg : list Z) (bits n j a : nat) (r : Z * list Z) :
  (j <= a < j + n)%nat →
  (∀ j', (j <= j' < a)%nat → fix_two_inner msg bits j' (bits - (j' + 1)) (j' + 1) = None) →
  fix_two_inner msg bits a (bits - (a + 1)) (a + 1) = Some r →
  fix_two_outer msg bits n j = r.
Proof.
  revert j. induction n as [|n IH]; intros j Ha Hbefore Hfound; [lia|].
  rewrite fix_two_outer_S.
  destruct (Nat.eq_dec j a) as [->|Hne].
  - by rewrite Hfound.
  - rewrite (Hbefore j) by lia. apply IH; [lia | | done].
    intros j' Hj'. apply Hbefore. lia.
Qed.

Lemma fix_two_outer_result (msg : list Z) (bits n j : nat) :
  fix_two_outer msg bits n j = (-1, msg)
  ∨ ∃ a b, (j <= a < j + n)%nat ∧ (a < b < bits)%nat
           ∧ check (flip_bit (flip_bit (take (bits / 8) msg) a) b) bits = true
           ∧ fix_two_outer msg bits n j
             = (Z.lor (Z.of_nat a) (Z.shiftl (Z.of_nat b) 8),
                flip_bit (flip_bit (take (bits / 8) msg) a) b ++ drop (bits / 8) msg).
Proof.
  revert j. induction n as [|n IH]; intros j; [by left|].
  rewrite fix_two_outer_S.
  destruct (fix_two_inner msg bits j (bits - (j + 1)) (j + 1)) as [r|] eqn:Hin.
  - apply fix_two_inner_result in Hin as (k & Hk & Hgood & ->).
    right. exists j, k. split; [lia|]. split; [lia | done].
  - destruct (IH (S j)) as [Hnone | (a & b & Ha & Hb & Hrest)]; [by left|].
    right. exists a, b. split; [lia | done].
Qed.

(** ** The contracts of the two fixers *)

(** X1.  [fix_single_bit_errors] on a buffer that holds the [bits/8] bytes
    of a message, [bits] being 56 or 112: either it returns [-1] and the
    buffer is as it was, or it returns the index [k < bits] of one message
    bit, the buffer differs from the one it got in exactly that bit, and
    the buffer passes the CRC check. *)
Theorem fix_single_contract (msg : list Z) (bits : nat) :
  (bits = 56 ∨ bits = 112)%nat → (bits / 8 <= length msg)%nat →
  fix_single_bit_errors msg bits = (-1, msg)
  ∨ ∃ k, (k < bits)%nat
         ∧ fix_single_bit_errors msg bits
           = (Z.of_nat k, flip_bit (take (bits / 8) msg) k ++ drop (bits / 8) msg)
         ∧ check (fix_single_bit_errors msg bits).2 bits = true.
Proof.
  intros Hbits Hlen. unfold fix_single_bit_errors.
  destruct (fix_single_loop_result msg bits bits 0) as [Hnone | (k & Hk & Hgood & Hrun)];
    [by left|].
  right. exists k. split; [lia|]. split; [done|].
  rewrite Hrun. cbn [snd]. rewrite check_app; [done | done |].
  rewrite length_flip_bit, length_take. lia.
Qed.

Lemma fix_single_contract_witness :
  fix_single_bit_errors df11_bit10 56 = (-1, df11_bit10)
  ∨ ∃ k, (k < 56)%nat
         ∧ fix_single_bit_errors df11_bit10 56
           = (Z.of_nat k,
              flip_bit (take (56 / 8) df11_bit10) k ++ drop (56 / 8) df11_bit10)
         ∧ check (fix_single_bit_errors df11_bit10 56).2 56 = true.
Proof.
  apply (fix_single_contract df11_bit10 56).
  - left. reflexivity.
  - vm_compute. lia.
Defined.

(** X2.  [fix_two_bits_errors], likewise: either it returns [-1] and the
    buffer is as it was, or it returns [j | (i << 8)] for two message bits
    [j < i < bits], the buffer differs from the one it got in exactly
    those two bits, and the buffer passes the CRC check. *)
Theorem fix_two_contract (msg : list Z) (bits : nat) :
  (bits = 56 ∨ bits = 112)%nat → (bits / 8 <= length msg)%nat →
  fix_two_bits_errors msg bits = (-1, msg)
  ∨ ∃ j i, (j < i < bits)%nat
           ∧ fix_two_bits_errors msg bits
             = (Z.lor (Z.of_nat j) (Z.shiftl (Z.of_nat i) 8),
                flip_bit (flip_bit (take (bits / 8) msg) j) i ++ drop (bits / 8) msg)
           ∧ check (fix_two_bits_errors msg bits).2 bits = true.
Proof.
  intros Hbits Hlen. unfold fix_two_bits_errors.
  destruct (fix_two_outer_result msg bits bits 0)
    as [Hnone | (a & b & Ha & Hb & Hgood & Hrun)]; [by left|].
  right. exists a, b. split; [lia|]. split; [done|].
  rewrite Hrun. cbn [snd]. rewrite check_app; [done | done |].
  rewrite !length_flip_bit, length_take. lia.
Qed.

(** [df11_good] with message bits 10 and 11 flipped. *)
Definition df11_bits10_11 : list Z := [0x5D; 0x90; 0x8C; 0x4A; 0x79; 0x3A; 0xA5].

Lemma fix_two_contract_witness :
  fix_two_bits_errors df11_bits10_11 56 = (-1, df11_bits10_11)
  ∨ ∃ j i, (j < i < 56)%nat
           ∧ fix_two_bits_errors df11_bits10_11 56
             = (Z.lor (Z.of_nat j) (Z.shiftl (Z.of_nat i) 8),
                flip_bit (flip_bit (take (56 / 8) df11_bits10_11) j) i
                ++ drop (56 / 8) df11_bits10_11)
           ∧ check (fix_two_bits_errors df11_bits10_11 56).2 56 = true.
Proof.
  apply (fix_two_contract df11_bits10_11 56).
  - left. reflexivity.
  - vm_compute. lia.
Defined.

(** ** Repairing a damaged frame *)

Lemma byte_index (good : list Z) (bits k : nat) :
  (bits = 56 ∨ bits = 112)%nat → length good = (bits / 8)%nat →
  (k < bits)%nat → (k / 8 < length good)%nat.
Proof.
  intros Hbits Hlen Hk. rewrite Hlen. destruct Hbits as [-> | ->].
  - change (56 / 8)%nat with 7%nat. apply Nat.Div0.div_lt_upper_bound; lia.
  - change (112 / 8)%nat with 14%nat. apply Nat.Div0.div_lt_upper_bound; lia.
Qed.

Section Damaged.

Variable good : list Z.
Variable bits : nat.
Hypothesis Hbits : (bits = 56 ∨ bits = 112)%nat.
Hypothesis Hbytes : is_bytes good.
Hypothesis Hlen : length good = (bits / 8)%nat.
Hypothesis Hgood : check good bits = true.

Lemma syndrome_one (a : nat) :
  (a < bits)%nat → syndrome (flip_bit good a) bits = pattern_syndrome bits [a].
Proof.
  intros Ha. rewrite syndrome_flip, syndrome_good by done.
  cbn [pattern_syndrome foldr]. by rewrite Z.lxor_0_l, Z.lxor_0_r.
Qed.

Lemma syndrome_two (a b : nat) :
  (a < bits)%nat → (b < bits)%nat →
  syndrome (flip_bit (flip_bit good a) b) bits = pattern_syndrome bits [a; b].
Proof.
  intros Ha Hb.
  rewrite syndrome_flip; [|done|by apply is_bytes_flip|by rewrite length_flip_bit|done].
  rewrite syndrome_flip, syndrome_good by done.
  cbn [pattern_syndrome foldr]. by rewrite Z.lxor_0_l, Z.lxor_0_r.
Qed.

(** A frame with one bit in error, tried with one more flip: it passes
    when the flip is the one that undoes the error, and only then. *)
Lemma one_error_one_flip (a i : nat) :
  (a < bits)%nat → (i < bits)%nat → i ≠ a →
  check (flip_bit (flip_bit good a) i) bits = false.
Proof.
  intros Ha Hi Hne. rewrite check_syndrome. apply Z.eqb_neq. intros H0.
  rewrite syndrome_two in H0 by done.
  assert (He : pattern_syndrome bits [a] = pattern_syndrome bits [i]).
  { cbn [pattern_syndrome foldr] in *. rewrite !Z.lxor_0_r in *.
    by apply Z.lxor_eq. }
  apply pattern_syndrome_inj in He; [congruence | done | | ]; by apply patterns_one.
Qed.

(** A frame with two bits in error does not pass with one flip. *)
Lemma two_errors_one_flip (a b i : nat) :
  (a < b < bits)%nat → (i < bits)%nat →
  check (flip_bit (flip_bit (flip_bit good a) b) i) bits = false.
Proof.
  intros Hab Hi. rewrite check_syndrome. apply Z.eqb_neq. intros H0.
  rewrite syndrome_flip in H0;
    [|done|by do 2 apply is_bytes_flip|by rewrite !length_flip_bit|done].
  rewrite syndrome_two in H0 by lia.
  assert (He : pattern_syndrome bits [a; b] = pattern_syndrome bits [i]).
  { apply Z.lxor_eq in H0. rewrite H0. cbn [pattern_syndrome foldr].
    by rewrite Z.lxor_0_r. }
  apply pattern_syndrome_inj in He; [done | done | by apply patterns_two
                                    | by apply patterns_one].
Qed.

(** Nor with two flips, unless they undo the two errors. *)
Lemma two_errors_two_flips (a b j i : nat) :
  (a < b < bits)%nat → (j < i < bits)%nat → (j, i) ≠ (a, b) →
  check (flip_bit (flip_bit (flip_bit (flip_bit good a) b) j) i) bits = false.
Proof.
  intros Hab Hji Hne. rewrite check_syndrome. apply Z.eqb_neq. intros H0.
  rewrite syndrome_flip in H0;
    [|done|by do 3 apply is_bytes_flip|by rewrite !length_flip_bit|lia].
  rewrite syndrome_flip in H0;
    [|done|by do 2 apply is_bytes_flip|by rewrite !length_flip_bit|lia].
  rewrite syndrome_two in H0 by lia.
  assert (He : pattern_syndrome bits [a; b] = pattern_syndrome bits [j; i]).
  { rewrite Z.lxor_assoc in H0. apply Z.lxor_eq in H0. rewrite H0.
    cbn [pattern_syndrome foldr]. by rewrite Z.lxor_0_r. }
  apply pattern_syndrome_inj in He; [congruence | done | | ]; by apply patterns_two.
Qed.

End Damaged.

Lemma two_errors_undone (good : list Z) (bits a b : nat) :
  (bits = 56 ∨ bits = 112)%nat → is_bytes good → length good = (bits / 8)%nat →
  (a < bits)%nat → (b < bits)%nat →
  flip_bit (flip_bit (flip_bit (flip_bit good a) b) a) b = good.
Proof.
  intros Hbits Hbytes Hlen Ha Hb.
  pose proof (byte_index good bits a Hbits Hlen Ha).
  pose proof (byte_index good bits b Hbits Hlen Hb).
  rewrite (flip_bit_comm good a b) by done.
  rewrite (flip_bit_involutive (flip_bit good b) a)
    by (by apply is_bytes_flip || by rewrite length_flip_bit).
  by apply flip_bit_involutive.
Qed.

(** A single-bit error is found and undone. *)
Lemma single_error_repaired (good rest : list Z) (bits k : nat) :
  (bits = 56 ∨ bits = 112)%nat → is_bytes good → length good = (bits / 8)%nat →
  check good bits = true → (k < bits)%nat →
  fix_single_bit_errors (flip_bit good k ++ rest) bits = (Z.of_nat k, good ++ rest).
Proof.
  intros Hbits Hb Hlen Hgood Hk.
  pose proof (byte_index good bits k Hbits Hlen Hk) as Hk8.
  unfold fix_single_bit_errors.
  rewrite (fix_single_loop_first _ bits bits 0 k).
  - rewrite take_app_length', drop_app_length' by by rewrite length_flip_bit.
    by rewrite flip_bit_involutive.
  - lia.
  - intros i Hi. rewrite take_app_length' by by rewrite length_flip_bit.
    apply one_error_one_flip; (done || lia).
  - rewrite take_app_length' by by rewrite length_flip_bit.
    by rewrite flip_bit_involutive.
Qed.

(** X3.  The single-bit fixer repairs every single-bit error.  For a
    frame of 56 or 112 bits that passes the CRC check and any message bit
    [k], [fix_single_bit_errors] on the frame with bit [k] flipped returns
    [k] and leaves the original frame in the buffer; the bytes after the
    frame are not touched. *)
Theorem fix_single_repairs (good rest : list Z) (bits k : nat) :
  (bits = 56 ∨ bits = 112)%nat → is_bytes good → length good = (bits / 8)%nat →
  check good bits = true → (k < bits)%nat →
  fix_single_bit_errors (flip_bit good k ++ rest) bits = (Z.of_nat k, good ++ rest).
Proof. apply single_error_repaired. Qed.

Lemma fix_single_repairs_witness :
  fix_single_bit_errors (flip_bit df11_good 41 ++ [1; 2; 3]) 56
  = (41, df11_good ++ [1; 2; 3]).
Proof.
  apply (fix_single_repairs df11_good [1; 2; 3] 56 41).
  - left. reflexivity.
  - repeat (constructor; [lia|]). constructor.
  - reflexivity.
  - vm_compute. reflexivity.
  - lia.
Defined.

(** A frame with two bits in error fails the check. *)
Lemma two_errors_fail (good : list Z) (bits a b : nat) :
  (bits = 56 ∨ bits = 112)%nat → is_bytes good → length good = (bits / 8)%nat →
  check good bits = true → (a < b < bits)%nat →
  check (flip_bit (flip_bit good a) b) bits = false.
Proof.
  intros Hbits Hb Hlen Hgood Hab. rewrite check_syndrome. apply Z.eqb_neq. intros H0.
  rewrite syndrome_two in H0 by (done || lia).
  change 0 with (pattern_syndrome bits []) in H0.
  apply pattern_syndrome_inj in H0; [done | done | by apply patterns_two
                                    | apply patterns_none].
Qed.

(** A two-bit error is passed over by the single-bit fixer, and found and
    undone by the two-bit fixer. *)
Lemma two_errors_repaired (good rest : list Z) (bits a b : nat) :
  (bits = 56 ∨ bits = 112)%nat → is_bytes good → length good = (bits / 8)%nat →
  check good bits = true → (a < b < bits)%nat →
  let damaged := flip_bit (flip_bit good a) b ++ rest in
  fix_single_bit_errors damaged bits = (-1, damaged)
  ∧ fix_two_bits_errors damaged bits
    = (Z.lor (Z.of_nat a) (Z.shiftl (Z.of_nat b) 8), good ++ rest).
Proof.
  intros Hbits Hb Hlen Hgood Hab damaged.
  assert (Htake : take (bits / 8) damaged = flip_bit (flip_bit good a) b).
  { subst damaged. apply take_app_length'. by rewrite !length_flip_bit. }
  assert (Hdrop : drop (bits / 8) damaged = rest).
  { subst damaged. apply drop_app_length'. by rewrite !length_flip_bit. }
  split.
  - unfold fix_single_bit_errors. apply fix_single_loop_none.
    intros i Hi. rewrite Htake. apply two_errors_one_flip; (done || lia).
  - unfold fix_two_bits_errors.
    apply (fix_two_outer_first _ bits bits 0 a); [lia | |].
    + intros j Hj. apply fix_two_inner_none. intros i Hi. rewrite Htake.
      apply two_errors_two_flips; try done; [lia|]. intros [= -> _]. lia.
    + rewrite (fix_two_inner_first _ bits a _ _ b).
      * rewrite Htake, Hdrop.
        by rewrite (two_errors_undone good bits) by (done || lia).
      * lia.
      * intros i Hi. rewrite Htake.
        apply two_errors_two_flips; try done; [lia|]. intros [= ->]. lia.
      * rewrite Htake. by rewrite (two_errors_undone good bits) by (done || lia).
Qed.

(** X4.  The two-bit fixer repairs every two-bit error.  For a frame of
    56 or 112 bits that passes the CRC check and two message bits
    [a < b], on the frame with both bits flipped the single-bit fixer
    returns [-1] and leaves the buffer as it was, and
    [fix_two_bits_errors] returns [a | (b << 8)] and leaves the original
    frame in the buffer. *)
Theorem fix_two_repairs (good rest : list Z) (bits a b : nat) :
  (bits = 56 ∨ bits = 112)%nat → is_bytes good → length good = (bits / 8)%nat →
  check good bits = true → (a < b < bits)%nat →
  let damaged := flip_bit (flip_bit good a) b ++ rest in
  fix_single_bit_errors damaged bits = (-1, damaged)
  ∧ fix_two_bits_errors damaged bits
    = (Z.lor (Z.of_nat a) (Z.shiftl (Z.of_nat b) 8), good ++ rest).
Proof. apply two_errors_repaired. Qed.

Lemma fix_two_repairs_witness :
  let damaged := flip_bit (flip_bit df11_good 10) 11 ++ [] in
  fix_single_bit_errors damaged 56 = (-1, damaged)
  ∧ fix_two_bits_errors damaged 56
    = (Z.lor (Z.of_nat 10) (Z.shiftl (Z.of_nat 11) 8), df11_good ++ []).
Proof.
  apply (fix_two_repairs df11_good [] 56 10 11).
  - left. reflexivity.
  - repeat (constructor; [lia|]). constructor.
  - reflexivity.
  - vm_compute. reflexivity.
  - lia.
Defined.

End Repair.

(** * The decoder on a damaged frame ([dump1090.c]) *)

Module DecodeRepair.
Import Checksum ICAO Decoder Repair.

(** A flip after the first five bits leaves the format of the frame as it
    was. *)
Lemma flip_keeps_type (good : list Z) (k : nat) :
  is_bytes good → (0 < length good)%nat → (5 <= k)%nat →
  Z.shiftr (at_ (flip_bit good k) 0) 3 = Z.shiftr (at_ good 0) 3.
Proof.
  intros Hb Hlen Hk.
  destruct (Nat.eq_dec (k / 8)%nat 0%nat) as [E|E].
  - rewrite <- E at 1. rewrite at_flip_bit by (done || lia).
    rewrite Z.shiftr_lxor, E.
    assert (Hk' : (k < 8)%nat).
    { destruct (Nat.lt_ge_cases k 8) as [|Hge]; [done|].
      apply (Nat.Div0.div_le_mono _ _ 8) in Hge. change (8 / 8)%nat with 1%nat in Hge. lia. }
    assert (Hcases : k = 5%nat ∨ k = 6%nat ∨ k = 7%nat) by lia.
    destruct Hcases as [-> | [-> | ->]]; apply Z.lxor_0_r.
  - by rewrite flip_bit_other by lia.
Qed.

(** X5.  The decoder repairs a single-bit error of a DF11 or DF17 frame.
    For a DF11 frame of 56 bits or a DF17 frame of 112 bits that passes
    the CRC check, and any message bit [k] but the first five (which hold
    the format): decoding the frame with bit [k] flipped gives the
    original frame with a good CRC, the error bit [k], the format and the
    address of the original, and leaves the cache of addresses as it
    was. *)
Theorem decode_repairs_single (LEN TTL : Z) (aggressive : bool) (cache : list Z)
    (now : Z) (good rest : list Z) (bits k : nat) :
  (bits = 56%nat ∧ Z.shiftr (at_ good 0) 3 = 11)
  ∨ (bits = 112%nat ∧ Z.shiftr (at_ good 0) 3 = 17) →
  is_bytes good → length good = (bits / 8)%nat → check good bits = true →
  (5 <= k < bits)%nat →
  let r := decode_modeS_message LEN TTL aggressive cache now (flip_bit good k ++ rest) in
  msg r.1 = good ++ take (14 - bits / 8) rest
  ∧ msg_bits r.1 = bits
  ∧ msg_type r.1 = Z.shiftr (at_ good 0) 3
  ∧ CRC_ok r.1 = true
  ∧ error_bit r.1 = Z.of_nat k
  ∧ AA r.1 = [at_ good 1; at_ good 2; at_ good 3]
  ∧ r.2 = cache.
Proof.
  intros Hshape Hb Hlen Hgood Hk r.
  assert (Hbits : (bits = 56 ∨ bits = 112)%nat) by tauto.
  assert (Hlen7 : (7 <= length good)%nat).
  { rewrite Hlen. destruct Hbits as [-> | ->]; [change (56 / 8)%nat with 7%nat
                                               | change (112 / 8)%nat with 14%nat]; lia. }
  assert (Hlen14 : (bits / 8 <= 14)%nat).
  { destruct Hbits as [-> | ->]; [change (56 / 8)%nat with 7%nat
                                 | change (112 / 8)%nat with 14%nat]; lia. }
  set (rest' := take (14 - bits / 8) rest).
  assert (Hmsg0 : take MODES_LONG_MSG_BYTES (flip_bit good k ++ rest)
                  = flip_bit good k ++ rest').
  { unfold MODES_LONG_MSG_BYTES.
    rewrite take_app, length_flip_bit, Hlen.
    rewrite take_ge by (rewrite length_flip_bit; lia). reflexivity. }
  assert (Hat0 : at_ (flip_bit good k ++ rest') 0 = at_ (flip_bit good k) 0).
  { unfold at_. by rewrite lookup_app_l by (rewrite length_flip_bit; lia). }
  assert (Hty : Z.shiftr (at_ (flip_bit good k ++ rest') 0) 3 = Z.shiftr (at_ good 0) 3).
  { rewrite Hat0. apply flip_keeps_type; (done || lia). }
  assert (Hbits' : modeS_message_len_by_type (Z.shiftr (at_ good 0) 3) = bits).
  { destruct Hshape as [[-> ->] | [-> ->]]; reflexivity. }
  assert (Hbad : check (flip_bit good k ++ rest') bits = false).
  { rewrite check_app by (done || by rewrite length_flip_bit).
    apply check_flip_fails; (done || lia). }
  assert (Hfix : check_and_fix aggressive (flip_bit good k ++ rest')
                   (Z.shiftr (at_ good 0) 3) bits
                 = (Z.of_nat k, good ++ rest', modeS_checksum (good ++ rest') bits, true)).
  { unfold check_and_fix. fold (check (flip_bit good k ++ rest') bits).
    rewrite Hbad.
    assert (H1117 : (Z.shiftr (at_ good 0) 3 =? 11) || (Z.shiftr (at_ good 0) 3 =? 17)
                    = true).
    { destruct Hshape as [[_ ->] | [_ ->]]; reflexivity. }
    rewrite H1117. cbn [negb andb].
    rewrite single_error_repaired by (done || lia).
    assert (Hne : (Z.of_nat k =? -1) = false) by (apply Z.eqb_neq; lia).
    by rewrite Hne. }
  assert (Hat : ∀ i, (i < 7)%nat → at_ (good ++ rest') i = at_ good i).
  { intros i Hi. unfold at_. by rewrite lookup_app_l by lia. }
  subst r. unfold decode_modeS_message. cbn [fst snd msg msg_bits msg_type CRC_ok
                                              error_bit AA].
  rewrite Hmsg0, Hty, Hbits', Hfix. cbn [fst snd].
  unfold address_stage.
  assert (Hnot : negb (Z.shiftr (at_ good 0) 3 =? 11)
                 && negb (Z.shiftr (at_ good 0) 3 =? 17) = false).
  { destruct Hshape as [[_ ->] | [_ ->]]; reflexivity. }
  rewrite Hnot.
  assert (Hne : (Z.of_nat k =? -1) = false) by (apply Z.eqb_neq; lia).
  rewrite Hne. cbn [andb fst snd].
  rewrite !Hat by lia.
  split; [reflexivity|]. split; [reflexivity|]. split; [reflexivity|].
  split; [reflexivity|]. split; [reflexivity|]. split; reflexivity.
Qed.

Lemma decode_repairs_single_witness :
  let r := decode_modeS_message 1024 60 false (replicate 2048 0) 1000
             (flip_bit df17_ident 77 ++ []) in
  msg r.1 = df17_ident ++ take (14 - 112 / 8) []
  ∧ msg_bits r.1 = 112%nat
  ∧ msg_type r.1 = Z.shiftr (at_ df17_ident 0) 3
  ∧ CRC_ok r.1 = true
  ∧ error_bit r.1 = Z.of_nat 77
  ∧ AA r.1 = [at_ df17_ident 1; at_ df17_ident 2; at_ df17_ident 3]
  ∧ r.2 = replicate 2048 0.
Proof.
  apply (decode_repairs_single 1024 60 false (replicate 2048 0) 1000 df17_ident [] 112 77).
  - right. split; reflexivity.
  - repeat (constructor; [lia|]). constructor.
  - reflexivity.
  - vm_compute. reflexivity.
  - lia.
Defined.

(** X6.  Two-bit errors of a DF17 frame.  For a DF17 frame of 112 bits
    that passes the CRC check and two message bits [a < b], none of them
    among the first five: in aggressive mode, decoding the frame with both
    bits flipped gives the original frame with a good CRC and the error
    bit [a | (b << 8)]; without the aggressive mode the damaged frame is
    decoded as it is, with a bad CRC.  Either way the cache of addresses
    is left as it was. *)
Theorem decode_repairs_two (LEN TTL : Z) (aggressive : bool) (cache : list Z)
    (now : Z) (good rest : list Z) (a b : nat) :
  Z.shiftr (at_ good 0) 3 = 17 →
  is_bytes good → length good = 14%nat → check good 112 = true →
  (5 <= a < b)%nat → (b < 112)%nat →
  let damaged := flip_bit (flip_bit good a) b in
  let r := decode_modeS_message LEN TTL aggressive cache now (damaged ++ rest) in
  msg r.1 = (if aggressive then good else damaged)
  ∧ CRC_ok r.1 = aggressive
  ∧ error_bit r.1
    = (if aggressive then Z.lor (Z.of_nat a) (Z.shiftl (Z.of_nat b) 8) else -1)
  ∧ r.2 = cache.
Proof.
  intros Hty Hb Hlen Hgood Hab Hb112 damaged r.
  assert (Hbits : (112 = 56 ∨ 112 = 112)%nat) by (by right).
  assert (Hlen' : length good = (112 / 8)%nat) by exact Hlen.
  assert (Hmsg0 : take MODES_LONG_MSG_BYTES (damaged ++ rest) = damaged ++ []).
  { rewrite app_nil_r. apply take_app_length'. subst damaged.
    by rewrite !length_flip_bit. }
  assert (Hty' : Z.shiftr (at_ (damaged ++ []) 0) 3 = 17).
  { rewrite app_nil_r. subst damaged.
    rewrite flip_keeps_type;
      [|by apply is_bytes_flip|rewrite length_flip_bit; lia|lia].
    rewrite flip_keeps_type by (done || lia). exact Hty. }
  assert (Hbad : check (damaged ++ []) 112 = false).
  { rewrite app_nil_r. apply two_errors_fail; (done || lia). }
  destruct (two_errors_repaired good [] 112 a b Hbits Hb Hlen' Hgood ltac:(lia))
    as [Hone Htwo]. fold damaged in Hone, Htwo.
  assert (Hfix : check_and_fix aggressive (damaged ++ []) 17 112
                 = if aggressive
                   then (Z.lor (Z.of_nat a) (Z.shiftl (Z.of_nat b) 8), good ++ [],
                         modeS_checksum (good ++ []) 112, true)
                   else (-1, damaged ++ [], crc_field (damaged ++ []) 112, false)).
  { unfold check_and_fix. fold (check (damaged ++ []) 112).
    rewrite Hbad. change ((17 =? 11) || (17 =? 17)) with true. cbn [negb andb].
    rewrite Hone. change (negb (-1 =? -1)) with false. cbv iota.
    change (17 =? 17) with true. rewrite andb_true_r.
    destruct aggressive; [|reflexivity].
    rewrite Htwo.
    assert (Hne : (Z.lor (Z.of_nat a) (Z.shiftl (Z.of_nat b) 8) =? -1) = false).
    { apply Z.eqb_neq. intros He.
      assert (0 <= Z.lor (Z.of_nat a) (Z.shiftl (Z.of_nat b) 8)); [|lia].
      apply Z.lor_nonneg. split; [lia|]. apply Z.shiftl_nonneg. lia. }
    by rewrite Hne. }
  subst r. unfold decode_modeS_message. cbn [fst snd msg CRC_ok error_bit].
  rewrite Hmsg0, Hty'. change (modeS_message_len_by_type 17) with 112%nat.
  rewrite Hfix. unfold address_stage.
  change (negb (17 =? 11) && negb (17 =? 17)) with false. cbv iota.
  destruct aggressive; cbn [fst snd andb]; rewrite ?app_nil_r.
  - assert (Hne : (Z.lor (Z.of_nat a) (Z.shiftl (Z.of_nat b) 8) =? -1) = false).
    { apply Z.eqb_neq. intros He.
      assert (0 <= Z.lor (Z.of_nat a) (Z.shiftl (Z.of_nat b) 8)); [|lia].
      apply Z.lor_nonneg. split; [lia|]. apply Z.shiftl_nonneg. lia. }
    rewrite Hne. cbn [fst snd].
    split; [reflexivity|]. split; [reflexivity|]. split; reflexivity.
  - split; [reflexivity|]. split; [reflexivity|]. split; reflexivity.
Qed.

Lemma decode_repairs_two_witness :
  let damaged := flip_bit (flip_bit df17_ident 40) 77 in
  let r := decode_modeS_message 1024 60 true (replicate 2048 0) 1000 (damaged ++ []) in
  msg r.1 = (if true then df17_ident else damaged)
  ∧ CRC_ok r.1 = true
  ∧ error_bit r.1 = (if true then Z.lor (Z.of_nat 40) (Z.shiftl (Z.of_nat 77) 8) else -1)
  ∧ r.2 = replicate 2048 0.
Proof.
  apply (decode_repairs_two 1024 60 true (replicate 2048 0) 1000 df17_ident [] 40 77).
  - reflexivity.
  - repeat (constructor; [lia|]). constructor.
  - reflexivity.
  - vm_compute. reflexivity.
  - lia.
  - lia.
Defined.

End DecodeRepair.

(** * The address cache and the address overlay ([dump1090.c]) *)

Module Overlay.
Import Checksum ICAO Decoder Repair.

(** The three bytes of a 24-bit address, most significant first, as a
    transponder lays them over the checksum and as [brute_force_AP] stores
    them into [mm->AA]. *)
Definition address_bytes (a : Z) : list Z :=
  [Z.land (Z.shiftr a 16) 255; Z.land (Z.shiftr a 8) 255; Z.land a 255].

(** A frame whose last 24 bits are the checksum of its body XORed with the
    address of the sender, as the formats without an address field have
    them. *)
Definition overlay (body : list Z) (bits : nat) (a : Z) : list Z :=
  store_crc body bits (Z.lxor (modeS_checksum body bits) a).

(** ** The cache *)

Lemma hash_slot (LEN k a : Z) :
  0 <= k → LEN = 2 ^ k →
  (Z.to_nat (ICAO_cache_hash_address LEN a) < Z.to_nat LEN)%nat.
Proof. intros Hk HLEN. pose proof (hash_in_table LEN k a Hk HLEN). lia. Qed.

(** Looking an address up after it was added. *)
Lemma seen_after_add (LEN TTL k : Z) (cache : list Z) (now now' x : Z) :
  0 <= k → LEN = 2 ^ k → length cache = Z.to_nat (2 * LEN) →
  ICAO_address_recently_seen LEN TTL (ICAO_cache_add_address LEN cache now x) now' x
  = negb (x =? 0) && (now' - u32 now <=? TTL).
Proof.
  intros Hk HLEN Hlen.
  pose proof (hash_slot LEN k x Hk HLEN) as Hh.
  unfold ICAO_address_recently_seen, ICAO_cache_add_address.
  set (h := Z.to_nat (ICAO_cache_hash_address LEN x)) in *.
  replace (h * 2 + 1)%nat with (2 * h + 1)%nat by lia.
  replace (h * 2)%nat with (2 * h)%nat by lia.
  rewrite at_insert_eq by (rewrite length_insert; lia).
  rewrite at_insert_ne, at_insert_eq by lia.
  by rewrite Z.eqb_refl, andb_true_r.
Qed.

(** X7.  Adding an address [y] to the cache changes what the lookup of
    another address [x] answers only when the two share a slot, and then
    [x] is no longer found: the slot holds one address.  The table has a
    power-of-two number of slots, two cells each. *)
Theorem cache_add_other (LEN TTL k : Z) (cache : list Z) (now now' x y : Z) :
  0 <= k → LEN = 2 ^ k → length cache = Z.to_nat (2 * LEN) → x ≠ y →
  ICAO_address_recently_seen LEN TTL (ICAO_cache_add_address LEN cache now y) now' x
  = if ICAO_cache_hash_address LEN x =? ICAO_cache_hash_address LEN y
    then false
    else ICAO_address_recently_seen LEN TTL cache now' x.
Proof.
  intros Hk HLEN Hlen Hxy.
  pose proof (hash_in_table LEN k x Hk HLEN) as Hx.
  pose proof (hash_in_table LEN k y Hk HLEN) as Hy.
  unfold ICAO_address_recently_seen, ICAO_cache_add_address.
  destruct (Z.eqb_spec (ICAO_cache_hash_address LEN x) (ICAO_cache_hash_address LEN y))
    as [Heq|Hne].
  - rewrite Heq.
    set (h := Z.to_nat (ICAO_cache_hash_address LEN y)) in *.
    replace (h * 2 + 1)%nat with (2 * h + 1)%nat by lia.
    replace (h * 2)%nat with (2 * h)%nat by lia.
    rewrite (at_insert_ne _ _ (2 * h)), at_insert_eq by lia.
    assert (Hyx : (y =? x) = false) by (apply Z.eqb_neq; congruence).
    by rewrite Hyx, andb_false_r.
  - by rewrite !at_insert_ne by lia.
Qed.

Lemma cache_add_other_witness :
  ICAO_address_recently_seen 1024 60
    (ICAO_cache_add_address 1024 (replicate 2048 0) 1000 0x4840D6) 1000 0x40621D
  = if ICAO_cache_hash_address 1024 0x40621D =? ICAO_cache_hash_address 1024 0x4840D6
    then false
    else ICAO_address_recently_seen 1024 60 (replicate 2048 0) 1000 0x40621D.
Proof.
  apply (cache_add_other 1024 60 10 (replicate 2048 0) 1000 1000 0x40621D 0x4840D6).
  - lia.
  - reflexivity.
  - reflexivity.
  - discriminate.
Defined.

(** X8.  The lookup finds nothing in a cache that was never written, and
    never finds the address 0, whatever the cache holds: a slot with
    address 0 counts as empty. *)
Theorem cache_lookup_empty (LEN TTL : Z) (cache : list Z) (n : nat) (now x : Z) :
  ICAO_address_recently_seen LEN TTL (replicate n 0) now x = false
  ∧ ICAO_address_recently_seen LEN TTL cache now 0 = false.
Proof.
  unfold ICAO_address_recently_seen. split.
  - by rewrite at_replicate_0.
  - match goal with
    | |- negb (?a =? 0) && (?a =? 0) && _ = false =>
        by destruct (Z.eqb_spec a 0)
    end.
Qed.

(** ** The overlay *)

Lemma lxor_land_mask (a b m : Z) :
  Z.lxor (Z.land a m) (Z.land b m) = Z.land (Z.lxor a b) m.
Proof.
  apply Z.bits_inj'. intros n Hn.
  rewrite !Z.lxor_spec, !Z.land_spec, Z.lxor_spec.
  by destruct (Z.testbit a n), (Z.testbit b n), (Z.testbit m n).
Qed.

Lemma land_255_range (x : Z) : 0 <= Z.land x 255 < 256.
Proof. change 255 with (Z.ones 8). rewrite Z.land_ones by lia. apply Z.mod_pos_bound. lia. Qed.

Lemma lxor_cancel (c a : Z) : Z.lxor (Z.lxor c a) c = a.
Proof. by rewrite (Z.lxor_comm c a), Z.lxor_assoc, Z.lxor_nilpotent, Z.lxor_0_r. Qed.

(** One byte of the overlay XORed with the same byte of the checksum. *)
Lemma overlay_byte (c a s : Z) :
  u8 (Z.lxor (Z.land (Z.shiftr (Z.lxor c a) s) 255) (Z.land (Z.shiftr c s) 255))
  = Z.land (Z.shiftr a s) 255.
Proof.
  rewrite lxor_land_mask, <- Z.shiftr_lxor, lxor_cancel.
  unfold u8. apply Z.mod_small, land_255_range.
Qed.

(** The address read back from its three bytes. *)
Lemma address_of_bytes (a : Z) :
  0 <= a < 2 ^ 24 →
  aircraft_get_addr (Z.land (Z.shiftr a 16) 255) (Z.land (Z.shiftr a 8) 255)
                    (Z.land a 255) = a.
Proof.
  intros Ha. unfold aircraft_get_addr.
  rewrite be24_sum by apply land_255_range.
  change 255 with (Z.ones 8).
  rewrite !Z.land_ones, !Z.shiftr_div_pow2 by lia.
  change (2 ^ 24) with 16777216 in Ha.
  change (2 ^ 16) with 65536. change (2 ^ 8) with 256.
  Z.div_mod_to_equations. lia.
Qed.

(** The checksum of an overlaid frame is the checksum of its body. *)
Lemma checksum_store (body : list Z) (bits : nat) (v : Z) :
  (bits = 56 ∨ bits = 112)%nat →
  modeS_checksum (store_crc body bits v) bits = modeS_checksum body bits.
Proof.
  intros Hbits. unfold modeS_checksum. apply checksum_fold_ext. intros j Hj Hnz.
  apply elem_of_seq in Hj. apply bit_set_store.
  apply checksum_reads_body; [done | lia | done].
Qed.

(** What [brute_force_AP] finds in an overlaid frame. *)
Lemma brute_force_overlay (LEN TTL : Z) (cache : list Z) (now : Z)
    (body rest : list Z) (bits : nat) (ty a : Z) :
  (bits = 56 ∨ bits = 112)%nat → length body = (bits / 8)%nat → 0 <= a < 2 ^ 24 →
  brute_force_AP LEN TTL cache now (overlay body bits a ++ rest) ty bits
  = if (ty =? 0) || (ty =? 4) || (ty =? 5) || (ty =? 16)
       || (ty =? 20) || (ty =? 21) || (ty =? 24)
    then if ICAO_address_recently_seen LEN TTL cache now a
         then Some (address_bytes a) else None
    else None.
Proof.
  intros Hbits Hlen Ha. unfold brute_force_AP.
  destruct ((ty =? 0) || (ty =? 4) || (ty =? 5) || (ty =? 16)
            || (ty =? 20) || (ty =? 21) || (ty =? 24)); [|reflexivity].
  assert (Hn : (3 <= bits / 8)%nat).
  { destruct Hbits as [-> | ->]; [change (56 / 8)%nat with 7%nat
                                 | change (112 / 8)%nat with 14%nat]; lia. }
  assert (Hframe : length (overlay body bits a) = (bits / 8)%nat).
  { unfold overlay, store_crc. by rewrite !length_insert. }
  rewrite take_app_length' by done.
  assert (Hc : modeS_checksum (overlay body bits a) bits = modeS_checksum body bits)
    by by apply checksum_store.
  rewrite Hc.
  assert (H1 : at_ (overlay body bits a) (bits / 8 - 1)
               = Z.land (Z.lxor (modeS_checksum body bits) a) 255).
  { unfold overlay, store_crc. apply at_insert_eq. rewrite !length_insert. lia. }
  assert (H2 : at_ (overlay body bits a) (bits / 8 - 2)
               = Z.land (Z.shiftr (Z.lxor (modeS_checksum body bits) a) 8) 255).
  { unfold overlay, store_crc.
    rewrite at_insert_ne by lia. apply at_insert_eq. rewrite !length_insert. lia. }
  assert (H3 : at_ (overlay body bits a) (bits / 8 - 3)
               = Z.land (Z.shiftr (Z.lxor (modeS_checksum body bits) a) 16) 255).
  { unfold overlay, store_crc.
    rewrite !at_insert_ne by lia. apply at_insert_eq. lia. }
  set (c := modeS_checksum body bits) in *.
  set (frame := overlay body bits a) in *.
  clearbody frame c. clear Hlen Hbits.
  remember (bits / 8)%nat as n eqn:En. clear En.
  replace (n - 1 - 1)%nat with (n - 2)%nat by lia.
  replace (n - 1 - 2)%nat with (n - 3)%nat by lia.
  rewrite H1.
  rewrite (at_insert_ne _ (n - 1) (n - 2)), H2 by lia.
  rewrite (at_insert_ne _ (n - 2) (n - 3)), (at_insert_ne _ (n - 1) (n - 3)), H3 by lia.
  rewrite (at_insert_eq _ (n - 3)) by (rewrite !length_insert; lia).
  rewrite (at_insert_ne _ (n - 3) (n - 2)) by lia.
  rewrite (at_insert_eq _ (n - 2)) by (rewrite !length_insert; lia).
  rewrite (at_insert_ne _ (n - 3) (n - 1)), (at_insert_ne _ (n - 2) (n - 1)) by lia.
  rewrite (at_insert_eq _ (n - 1)) by lia.
  change 0xFF with 255.
  replace (Z.land (Z.lxor c a) 255) with (Z.land (Z.shiftr (Z.lxor c a) 0) 255)
    by (by rewrite Z.shiftr_0_r).
  replace (Z.land c 255) with (Z.land (Z.shiftr c 0) 255) by (by rewrite Z.shiftr_0_r).
  rewrite !overlay_byte, Z.shiftr_0_r.
  by rewrite address_of_bytes.
Qed.

(** X9.  [brute_force_AP] recovers the address laid over the checksum.
    For a frame of 56 or 112 bits whose last 24 bits are the checksum of
    its body XORed with a 24-bit address [a], and a format among 0, 4, 5,
    16, 20, 21 and 24: the function succeeds exactly when [a] is found in
    the cache of recent addresses, and then stores the three bytes of [a];
    for every other format it fails. *)
Theorem brute_force_recovers (LEN TTL : Z) (cache : list Z) (now : Z)
    (body rest : list Z) (bits : nat) (ty a : Z) :
  (bits = 56 ∨ bits = 112)%nat → length body = (bits / 8)%nat → 0 <= a < 2 ^ 24 →
  brute_force_AP LEN TTL cache now (overlay body bits a ++ rest) ty bits
  = if (ty =? 0) || (ty =? 4) || (ty =? 5) || (ty =? 16)
       || (ty =? 20) || (ty =? 21) || (ty =? 24)
    then if ICAO_address_recently_seen LEN TTL cache now a
         then Some (address_bytes a) else None
    else None.
Proof. apply brute_force_overlay. Qed.

(** A DF4 body (altitude reply), without its last three bytes set. *)
Definition df4_body : list Z := [0x20; 0x00; 0x17; 0x18; 0; 0; 0].

Lemma brute_force_recovers_witness :
  brute_force_AP 1024 60
    (ICAO_cache_add_address 1024 (replicate 2048 0) 1000 0x4840D6) 1010
    (overlay df4_body 56 0x4840D6 ++ []) 4 56
  = Some [0x48; 0x40; 0xD6].
Proof.
  rewrite (brute_force_recovers 1024 60 _ 1010 df4_body [] 56 4 0x4840D6).
  - vm_compute. reflexivity.
  - left. reflexivity.
  - reflexivity.
  - lia.
Defined.

(** ** The decoder on the two kinds of frames *)

Lemma take_frame (frame rest : list Z) (bits : nat) :
  (bits = 56 ∨ bits = 112)%nat → length frame = (bits / 8)%nat →
  take MODES_LONG_MSG_BYTES (frame ++ rest) = frame ++ take (14 - bits / 8) rest.
Proof.
  intros Hbits Hlen. unfold MODES_LONG_MSG_BYTES.
  rewrite take_app, Hlen. rewrite take_ge; [done|].
  rewrite Hlen. destruct Hbits as [-> | ->]; [change (56 / 8)%nat with 7%nat
                                             | change (112 / 8)%nat with 14%nat]; lia.
Qed.

Lemma frame_length (bits : nat) :
  (bits = 56 ∨ bits = 112)%nat → (7 <= bits / 8)%nat.
Proof.
  intros [-> | ->]; [change (56 / 8)%nat with 7%nat
                    | change (112 / 8)%nat with 14%nat]; lia.
Qed.

(** A DF11 or DF17 frame that passes the check as received is decoded as
    it is and enters the cache. *)
Lemma decode_good_frame (LEN TTL : Z) (aggressive : bool) (cache : list Z) (now : Z)
    (good rest : list Z) (bits : nat) :
  (bits = 56%nat ∧ Z.shiftr (at_ good 0) 3 = 11)
  ∨ (bits = 112%nat ∧ Z.shiftr (at_ good 0) 3 = 17) →
  length good = (bits / 8)%nat → check good bits = true →
  let r := decode_modeS_message LEN TTL aggressive cache now (good ++ rest) in
  CRC_ok r.1 = true
  ∧ r.2 = ICAO_cache_add_address LEN cache now
            (aircraft_get_addr (at_ good 1) (at_ good 2) (at_ good 3))
  ∧ msg r.1 = good ++ take (14 - bits / 8) rest
  ∧ msg_bits r.1 = bits
  ∧ error_bit r.1 = -1.
Proof.
  intros Hshape Hlen Hgood r.
  assert (Hbits : (bits = 56 ∨ bits = 112)%nat) by tauto.
  pose proof (frame_length bits Hbits) as H7.
  set (rest' := take (14 - bits / 8) rest).
  assert (Hat : ∀ i, (i < 7)%nat → at_ (good ++ rest') i = at_ good i).
  { intros i Hi. unfold at_. by rewrite lookup_app_l by lia. }
  assert (Hbits' : modeS_message_len_by_type (Z.shiftr (at_ good 0) 3) = bits).
  { destruct Hshape as [[-> ->] | [-> ->]]; reflexivity. }
  assert (Hfix : check_and_fix aggressive (good ++ rest') (Z.shiftr (at_ good 0) 3) bits
                 = (-1, good ++ rest', crc_field (good ++ rest') bits, true)).
  { unfold check_and_fix. fold (check (good ++ rest') bits).
    by rewrite check_app, Hgood by done. }
  subst r. unfold decode_modeS_message. cbn [fst snd CRC_ok msg msg_bits error_bit].
  rewrite (take_frame good rest bits) by done. fold rest'.
  rewrite Hat, Hbits', Hfix by lia. cbn [fst snd].
  unfold address_stage.
  assert (Hnot : negb (Z.shiftr (at_ good 0) 3 =? 11)
                 && negb (Z.shiftr (at_ good 0) 3 =? 17) = false).
  { destruct Hshape as [[_ ->] | [_ ->]]; reflexivity. }
  rewrite Hnot. change (true && (-1 =? -1)) with true. cbv iota. cbn [fst snd].
  rewrite !Hat by lia.
  split; [reflexivity|]. split; [reflexivity|]. split; [reflexivity|].
  split; reflexivity.
Qed.

(** A frame of another format, with the address laid over its checksum,
    is accepted when the address is found in the cache; the cache is not
    written. *)
Lemma decode_overlay_frame (LEN TTL : Z) (aggressive : bool) (cache : list Z) (now : Z)
    (body rest : list Z) (bits : nat) (a : Z) :
  let ty := Z.shiftr (at_ body 0) 3 in
  ty = 0 ∨ ty = 4 ∨ ty = 5 ∨ ty = 16 ∨ ty = 20 ∨ ty = 21 ∨ ty = 24 →
  bits = modeS_message_len_by_type ty →
  length body = (bits / 8)%nat → 0 <= a < 2 ^ 24 →
  let r := decode_modeS_message LEN TTL aggressive cache now
             (overlay body bits a ++ rest) in
  CRC_ok r.1 = ICAO_address_recently_seen LEN TTL cache now a
  ∧ (CRC_ok r.1 = true → AA r.1 = address_bytes a)
  ∧ r.2 = cache.
Proof.
  intros ty Hty Hbits' Hlen Ha r.
  assert (Hbits : (bits = 56 ∨ bits = 112)%nat).
  { rewrite Hbits'. unfold modeS_message_len_by_type.
    destruct (_ || _); [by right | by left]. }
  pose proof (frame_length bits Hbits) as H7.
  assert (Hframe : length (overlay body bits a) = (bits / 8)%nat).
  { unfold overlay, store_crc. by rewrite !length_insert. }
  set (rest' := take (14 - bits / 8) rest).
  assert (Hat0 : at_ (overlay body bits a ++ rest') 0 = at_ body 0).
  { unfold at_. rewrite lookup_app_l by lia. unfold overlay, store_crc.
    by rewrite !list_lookup_insert_ne by lia. }
  assert (Hsel : (ty =? 0) || (ty =? 4) || (ty =? 5) || (ty =? 16)
                 || (ty =? 20) || (ty =? 21) || (ty =? 24) = true).
  { destruct Hty as [-> | [-> | [-> | [-> | [-> | [-> | ->]]]]]]; reflexivity. }
  assert (H1117 : (ty =? 11) || (ty =? 17) = false).
  { destruct Hty as [-> | [-> | [-> | [-> | [-> | [-> | ->]]]]]]; reflexivity. }
  assert (Hnot : negb (ty =? 11) && negb (ty =? 17) = true).
  { destruct Hty as [-> | [-> | [-> | [-> | [-> | [-> | ->]]]]]]; reflexivity. }
  assert (Hfix : ∃ c ok, check_and_fix aggressive (overlay body bits a ++ rest') ty bits
                         = (-1, overlay body bits a ++ rest', c, ok)).
  { unfold check_and_fix. rewrite H1117, andb_false_r. by eexists _, _. }
  destruct Hfix as (c & ok & Hfix).
  subst r. unfold decode_modeS_message. cbn [fst snd CRC_ok AA].
  rewrite (take_frame _ rest bits) by done. fold rest'.
  rewrite Hat0. fold ty. rewrite <- Hbits', Hfix. cbn [fst snd].
  unfold address_stage. rewrite Hnot.
  rewrite brute_force_overlay, Hsel by done.
  destruct (ICAO_address_recently_seen LEN TTL cache now a); cbn [fst snd].
  - split; [reflexivity|]. split; [reflexivity | reflexivity].
  - split; [reflexivity|]. split; [intros [=] | reflexivity].
Qed.

(** The address of a frame of bytes, taken apart again. *)
Lemma address_bytes_of (g1 g2 g3 : Z) :
  0 <= g1 < 256 → 0 <= g2 < 256 → 0 <= g3 < 256 →
  0 <= aircraft_get_addr g1 g2 g3 < 2 ^ 24
  ∧ address_bytes (aircraft_get_addr g1 g2 g3) = [g1; g2; g3].
Proof.
  intros H1 H2 H3. unfold address_bytes, aircraft_get_addr.
  rewrite be24_sum by done.
  change 255 with (Z.ones 8).
  rewrite !Z.land_ones, !Z.shiftr_div_pow2 by lia.
  change (2 ^ 24) with 16777216.
  change (2 ^ 16) with 65536. change (2 ^ 8) with 256.
  split; [lia|].
  f_equal; [|f_equal; [|f_equal]]; Z.div_mod_to_equations; lia.
Qed.

(** X10.  An aircraft heard once is recognised afterwards.  After the
    decoder took a DF11 or DF17 frame that passes the CRC check, with the
    address [a] (not zero), at time [now], a frame of format 0, 4, 5, 16,
    20, 21 or 24 whose last 24 bits are the checksum of its body XORed
    with [a] is accepted at time [now']: [CRC_ok] is set and [AA] holds
    the address, provided [now' - now] (the first taken as [uint32_t]) is
    at most the time-to-live of the cache.  The same frame decoded against
    a cache that was never written is rejected.  The second frame does
    not alter the cache. *)
Theorem address_learned_then_accepted (LEN TTL k : Z) (aggressive : bool)
    (cache : list Z) (now now' : Z) (good rest body rest2 : list Z) (bits bits2 : nat) :
  0 <= k → LEN = 2 ^ k → length cache = Z.to_nat (2 * LEN) →
  (bits = 56%nat ∧ Z.shiftr (at_ good 0) 3 = 11)
  ∨ (bits = 112%nat ∧ Z.shiftr (at_ good 0) 3 = 17) →
  is_bytes good → length good = (bits / 8)%nat → check good bits = true →
  let a := aircraft_get_addr (at_ good 1) (at_ good 2) (at_ good 3) in
  a ≠ 0 →
  let ty := Z.shiftr (at_ body 0) 3 in
  ty = 0 ∨ ty = 4 ∨ ty = 5 ∨ ty = 16 ∨ ty = 20 ∨ ty = 21 ∨ ty = 24 →
  bits2 = modeS_message_len_by_type ty → length body = (bits2 / 8)%nat →
  now' - u32 now <= TTL →
  let r1 := decode_modeS_message LEN TTL aggressive cache now (good ++ rest) in
  let r2 := decode_modeS_message LEN TTL aggressive r1.2 now'
              (overlay body bits2 a ++ rest2) in
  CRC_ok r1.1 = true
  ∧ CRC_ok r2.1 = true
  ∧ AA r2.1 = [at_ good 1; at_ good 2; at_ good 3]
  ∧ r2.2 = r1.2
  ∧ CRC_ok (decode_modeS_message LEN TTL aggressive (replicate (length cache) 0) now'
              (overlay body bits2 a ++ rest2)).1 = false.
Proof.
  intros Hk HLEN Hcache Hshape Hb Hlen Hgood a Ha0 ty Hty Hbits2 Hlen2 Httl r1 r2.
  destruct (address_bytes_of (at_ good 1) (at_ good 2) (at_ good 3)) as [Ha Hbytes];
    try by apply at_bytes.
  fold a in Ha, Hbytes.
  destruct (decode_good_frame LEN TTL aggressive cache now good rest bits Hshape Hlen Hgood)
    as (Hok1 & Hcache1 & _).
  fold r1 in Hok1, Hcache1. fold a in Hcache1.
  destruct (decode_overlay_frame LEN TTL aggressive r1.2 now' body rest2 bits2 a
              Hty Hbits2 Hlen2 Ha) as (Hok2 & HAA & Hcache2).
  fold r2 in Hok2, HAA, Hcache2.
  assert (Hseen : ICAO_address_recently_seen LEN TTL r1.2 now' a = true).
  { rewrite Hcache1, (seen_after_add LEN TTL k) by done.
    apply andb_true_intro. split.
    - apply negb_true_iff, Z.eqb_neq, Ha0.
    - by apply Z.leb_le. }
  rewrite Hseen in Hok2.
  split; [exact Hok1|]. split; [exact Hok2|].
  split; [by rewrite HAA, Hbytes|]. split; [exact Hcache2|].
  destruct (decode_overlay_frame LEN TTL aggressive (replicate (length cache) 0) now'
              body rest2 bits2 a Hty Hbits2 Hlen2 Ha) as (Hok3 & _ & _).
  rewrite Hok3. unfold ICAO_address_recently_seen. by rewrite at_replicate_0.
Qed.

Lemma address_learned_then_accepted_witness :
  let a := aircraft_get_addr (at_ df17_ident 1) (at_ df17_ident 2) (at_ df17_ident 3) in
  let cache := replicate 2048 0 in
  let r1 := decode_modeS_message 1024 60 false cache 1000 (df17_ident ++ []) in
  let r2 := decode_modeS_message 1024 60 false r1.2 1010 (overlay df4_body 56 a ++ []) in
  CRC_ok r1.1 = true
  ∧ CRC_ok r2.1 = true
  ∧ AA r2.1 = [at_ df17_ident 1; at_ df17_ident 2; at_ df17_ident 3]
  ∧ r2.2 = r1.2
  ∧ CRC_ok (decode_modeS_message 1024 60 false (replicate (length cache) 0) 1010
              (overlay df4_body 56 a ++ [])).1 = false.
Proof.
  apply (address_learned_then_accepted 1024 60 10 false (replicate 2048 0) 1000 1010
           df17_ident [] df4_body [] 112 56).
  - lia.
  - reflexivity.
  - reflexivity.
  - right. split; reflexivity.
  - repeat (constructor; [lia|]). constructor.
  - reflexivity.
  - vm_compute. reflexivity.
  - vm_compute. discriminate.
  - vm_compute. tauto.
  - reflexivity.
  - reflexivity.
  - vm_compute. discriminate.
Defined.

End Overlay.

(** * The demodulator on a clean signal ([dump1090.c]) *)

Module CleanSignal.
Import Checksum ICAO Decoder Demod Repair Overlay.

(** Message bit [k] as the slicer stores it. *)
Definition bit_value (msg : list Z) (k : nat) : Z := if bit_set msg k then 1 else 0.

(** Bit [t] of a byte, counted from the most significant one. *)
Definition bit_of (x : Z) (t : nat) : Z :=
  if negb (Z.land x (Z.shiftl 1 (Z.of_nat (7 - t))) =? 0) then 1 else 0.

(** A byte put together again from its eight bits, as "pack bits into
    bytes" does. *)
Definition recomposed (x : Z) : Z :=
  u8 (Z.lor (Z.lor (Z.lor (Z.lor (Z.lor (Z.lor (Z.lor
        (Z.shiftl (bit_of x 0) 7)
        (Z.shiftl (bit_of x 1) 6))
        (Z.shiftl (bit_of x 2) 5))
        (Z.shiftl (bit_of x 3) 4))
        (Z.shiftl (bit_of x 4) 3))
        (Z.shiftl (bit_of x 5) 2))
        (Z.shiftl (bit_of x 6) 1))
        (bit_of x 7)).

(** ** The samples of a modulated frame *)

Lemma symbols_at (msg : list Z) (n s k : nat) (tail : list Z) :
  (k < n)%nat →
  at_ (flat_map (λ k, if bit_set msg k then [10000; 0] else [0; 10000]) (seq s n) ++ tail)
      (2 * k)
  = (if bit_set msg (s + k) then 10000 else 0)
  ∧ at_ (flat_map (λ k, if bit_set msg k then [10000; 0] else [0; 10000]) (seq s n) ++ tail)
        (2 * k + 1)
    = (if bit_set msg (s + k) then 0 else 10000).
Proof.
  revert s k. induction n as [|n IH]; intros s k Hk; [lia|].
  cbn [seq flat_map]. destruct k as [|k].
  - rewrite Nat.add_0_r. by destruct (bit_set msg s).
  - replace (2 * S k)%nat with (S (S (2 * k))) by lia.
    replace (S (S (2 * k)) + 1)%nat with (S (S (2 * k + 1))) by lia.
    replace (s + S k)%nat with (S s + k)%nat by lia.
    destruct (IH (S s) k ltac:(lia)) as [H1 H2].
    by destruct (bit_set msg s).
Qed.

(** The two samples of bit [k] of a frame of [nbits] bits that starts at
    sample [j]. *)
Lemma sample_symbol (before msg rest : list Z) (j : Z) (nbits k : nat) :
  Z.to_nat j = length before → (k < nbits)%nat →
  let m := before ++ modulate msg nbits ++ rest in
  sample m j (2 * k + 2 * MODES_PREAMBLE_US) = (if bit_set msg k then 10000 else 0)
  ∧ sample m j (2 * k + 2 * MODES_PREAMBLE_US + 1) = (if bit_set msg k then 0 else 10000).
Proof.
  intros Hj Hk m. subst m. unfold sample, modulate. rewrite Hj.
  change (2 * MODES_PREAMBLE_US)%nat with 16%nat.
  assert (Hat : ∀ i x, at_ (before ++ (preamble_pulses ++ x) ++ rest) (length before + (i + 16))
                       = at_ (x ++ rest) i).
  { intros i x. unfold at_. rewrite lookup_app_r by lia.
    rewrite <- app_assoc, lookup_app_r by (change (length preamble_pulses) with 16%nat; lia).
    do 2 f_equal. change (length preamble_pulses) with 16%nat. lia. }
  replace (length before + (2 * k + 16 + 1))%nat
    with (length before + (2 * k + 1 + 16))%nat by lia.
  rewrite !Hat.
  apply (symbols_at msg nbits 0 k rest Hk).
Qed.

(** The preamble of a modulated frame is recognised. *)
Lemma modulated_preamble (before msg rest : list Z) (j : Z) (nbits : nat) :
  Z.to_nat j = length before →
  valid_preamble (before ++ modulate msg nbits ++ rest) j = true.
Proof.
  intros Hj.
  assert (Hat : ∀ i, (i < 16)%nat →
            sample (before ++ modulate msg nbits ++ rest) j i = at_ preamble_pulses i).
  { intros i Hi. unfold sample, modulate, at_. rewrite Hj.
    rewrite lookup_app_r by lia.
    rewrite <- app_assoc, lookup_app_l by (change (length preamble_pulses) with 16%nat; lia).
    do 2 f_equal. lia. }
  unfold valid_preamble, preamble_relations, preamble_quiet.
  rewrite !Hat by lia. reflexivity.
Qed.

(** ** Slicing *)

Lemma slice_branch_clean (i : nat) :
  slice_branch_of i 10000 0 = One ∧ slice_branch_of i 0 10000 = Zero.
Proof. unfold slice_branch_of. by destruct (0 <? i)%nat. Qed.

Lemma slice_step_clean (before msg rest : list Z) (j : Z) (nbits : nat)
    (acc : list Z * Z) (k : nat) :
  Z.to_nat j = length before → (k < nbits)%nat →
  slice_step (before ++ modulate msg nbits ++ rest) j acc k
  = (<[k := bit_value msg k]> acc.1, acc.2).
Proof.
  intros Hj Hk. unfold slice_step, bit_value.
  destruct (sample_symbol before msg rest j nbits k Hj Hk) as [-> ->].
  destruct (slice_branch_clean (2 * k)) as [H1 H0].
  destruct (bit_set msg k); [by rewrite H1 | by rewrite H0].
Qed.

Lemma slice_fold_clean (before msg rest : list Z) (j : Z) (nbits n : nat) :
  Z.to_nat j = length before → (n <= nbits)%nat → (n <= 112)%nat →
  let r := foldl (slice_step (before ++ modulate msg nbits ++ rest) j)
                 (replicate MODES_LONG_MSG_BITS 0, 0) (seq 0 n) in
  r.2 = 0 ∧ length r.1 = 112%nat ∧ ∀ i, (i < n)%nat → at_ r.1 i = bit_value msg i.
Proof.
  intros Hj. induction n as [|n IH]; intros Hn Hn'.
  - cbn [seq foldl fst snd]. split; [done|]. split; [done | intros; lia].
  - destruct (IH ltac:(lia) ltac:(lia)) as (He & Hlen & Hbits).
    rewrite (seq_S n 0), foldl_app. cbn [foldl]. rewrite Nat.add_0_l.
    rewrite slice_step_clean by (done || lia). cbn [fst snd].
    split; [exact He|]. split; [by rewrite length_insert|].
    intros i Hi. destruct (Nat.eq_dec i n) as [->|Hne].
    + apply at_insert_eq. lia.
    + rewrite at_insert_ne by done. apply Hbits. lia.
Qed.

(** A turn of the slicer writes the bit of its own index only. *)
Lemma slice_step_other (m : list Z) (j : Z) (acc : list Z * Z) (k i : nat) :
  i ≠ k → at_ (slice_step m j acc k).1 i = at_ acc.1 i.
Proof.
  intros Hne. unfold slice_step. cbv zeta.
  destruct (slice_branch_of _ _ _); cbn [fst]; by rewrite at_insert_ne.
Qed.

Lemma slice_fold_other (m : list Z) (j : Z) (l : list nat) (acc : list Z * Z) (i : nat) :
  Forall (λ k, i ≠ k) l → at_ (foldl (slice_step m j) acc l).1 i = at_ acc.1 i.
Proof.
  revert acc. induction l as [|k l IH]; intros acc Hl; [done|].
  apply Forall_cons in Hl as [Hk Hl]. cbn [foldl].
  rewrite IH by done. by apply slice_step_other.
Qed.

(** The bits of a frame of [nbits] bits, whatever follows it in the
    buffer: no error is counted, and the first [nbits] bits are those
    sent. *)
Lemma sliced_frame (before msg rest : list Z) (j : Z) (nbits : nat) :
  Z.to_nat j = length before → (1 <= nbits <= 112)%nat →
  let m := before ++ modulate msg nbits ++ rest in
  (slice_bits m j).2 = 0
  ∧ ∀ i, (i < nbits)%nat → at_ (slice_bits m j).1 i = bit_value msg i.
Proof.
  intros Hj Hn m. unfold slice_bits, MODES_LONG_MSG_BITS.
  replace (seq 0 112) with (seq 0 nbits ++ seq nbits (112 - nbits)).
  2:{ rewrite <- seq_app. f_equal. lia. }
  rewrite foldl_app.
  destruct (slice_fold_clean before msg rest j nbits nbits Hj ltac:(lia) ltac:(lia))
    as (He & _ & Hbits).
  fold m in He, Hbits. split.
  - rewrite slice_fold_errors_later; [exact He|].
    apply Forall_forall. intros k Hk. apply elem_of_seq in Hk. lia.
  - intros i Hi. rewrite slice_fold_other; [by apply Hbits|].
    apply Forall_forall. intros k Hk. apply elem_of_seq in Hk. lia.
Qed.

(** ** Packing *)

Lemma recomposed_all :
  forallb (λ n, recomposed (Z.of_nat n) =? Z.of_nat n) (seq 0 256) = true.
Proof. vm_compute. reflexivity. Qed.

Lemma recomposed_byte (x : Z) : 0 <= x < 256 → recomposed x = x.
Proof.
  intros Hx. pose proof recomposed_all as H.
  rewrite forallb_forall in H. specialize (H (Z.to_nat x)).
  rewrite Z2Nat.id in H by lia. apply Z.eqb_eq, H, in_seq. lia.
Qed.

Lemma bit_value_at (msg : list Z) (n t : nat) :
  (t < 8)%nat → bit_value msg (8 * n + t) = bit_of (at_ msg n) t.
Proof.
  intros Ht. unfold bit_value, bit_of, bit_set, bitmask.
  replace ((8 * n + t) / 8)%nat with n
    by (apply (Nat.div_unique _ 8 n t); lia).
  replace ((8 * n + t) mod 8)%nat with t
    by (apply (Nat.mod_unique _ 8 n t); lia).
  reflexivity.
Qed.

Lemma pack_byte_clean (msg bits : list Z) (nbits n : nat) :
  is_bytes msg → (8 * n + 8 <= nbits)%nat →
  (∀ i, (i < nbits)%nat → at_ bits i = bit_value msg i) →
  pack_byte bits (8 * n) = at_ msg n.
Proof.
  intros Hb Hn Hbits. unfold pack_byte.
  replace (at_ bits (8 * n)) with (at_ bits (8 * n + 0)) by (f_equal; lia).
  rewrite !Hbits by lia. rewrite !bit_value_at by lia.
  apply (recomposed_byte (at_ msg n)). by apply at_bytes.
Qed.

Lemma map_at (l : list Z) (f : nat → Z) :
  (∀ n, (n < length l)%nat → f n = at_ l n) → map f (seq 0 (length l)) = l.
Proof.
  intros H. apply list_eq. intros i.
  destruct (Nat.lt_ge_cases i (length l)) as [Hi|Hi].
  - rewrite (at_lookup l i Hi).
    change (map f (seq 0 (length l))) with (f <$> seq 0 (length l)).
    rewrite list_lookup_fmap, lookup_seq_lt by done. cbn. f_equal. by apply H.
  - rewrite (proj2 (lookup_ge_None l i)) by done.
    apply lookup_ge_None. rewrite length_map, length_seq. done.
Qed.

(** The bytes packed from the bits of a frame: the frame, then what the
    bits after it give. *)
Lemma packed_frame (msg bits : list Z) (nbits : nat) :
  is_bytes msg → length msg = (nbits / 8)%nat → (nbits = 56 ∨ nbits = 112)%nat →
  (∀ i, (i < nbits)%nat → at_ bits i = bit_value msg i) →
  pack_bits bits = msg ++ drop (nbits / 8) (pack_bits bits)
  ∧ length (drop (nbits / 8) (pack_bits bits)) = (14 - nbits / 8)%nat.
Proof.
  intros Hb Hlen Hn Hbits.
  assert (Hk : (nbits / 8 <= 14 ∧ 8 * (nbits / 8) = nbits)%nat).
  { destruct Hn as [-> | ->]; split; (reflexivity || (cbn; lia)). }
  assert (Htake : take (nbits / 8) (pack_bits bits) = msg).
  { unfold pack_bits, MODES_LONG_MSG_BYTES.
    change (map ?f ?l) with (f <$> l). rewrite <- fmap_take, take_seq.
    rewrite <- Hlen, Nat.min_l by (rewrite Hlen; apply Hk).
    apply map_at. intros n Hn'. apply (pack_byte_clean msg bits nbits); [done | lia | done]. }
  split.
  - rewrite <- Htake at 1. by rewrite take_drop.
  - rewrite length_drop. unfold pack_bits, MODES_LONG_MSG_BYTES.
    by rewrite length_map, length_seq.
Qed.

(** A modulated frame of 14 bytes, sliced and packed. *)
Lemma modulated_sliced (before msg rest : list Z) (j : Z) :
  Z.to_nat j = length before → is_bytes msg → length msg = 14%nat →
  let m := before ++ modulate msg 112 ++ rest in
  (slice_bits m j).2 = 0 ∧ pack_bits (slice_bits m j).1 = msg.
Proof.
  intros Hj Hb Hlen m.
  destruct (sliced_frame before msg rest j 112 Hj ltac:(lia)) as (He & Hbits).
  fold m in He, Hbits.
  split; [exact He|].
  destruct (packed_frame msg (slice_bits m j).1 112 Hb Hlen ltac:(by right) Hbits)
    as [Hpack Hl].
  rewrite Hpack. change (112 / 8)%nat with 14%nat in *.
  destruct (drop 14 (pack_bits (slice_bits m j).1)); [apply app_nil_r | done].
Qed.

(** X11.  Demodulating a clean frame gives its bytes back.  For a frame
    of 14 bytes sent as pulses (the four pulses of the preamble, then two
    samples per bit, high-low for a one and low-high for a zero), wherever
    it starts in the buffer: the preamble test accepts the position, the
    slicer counts no error, and the bits packed into bytes are the
    frame. *)
Theorem modulated_frame_demodulated (before msg rest : list Z) (j : Z) :
  Z.to_nat j = length before → is_bytes msg → length msg = 14%nat →
  let m := before ++ modulate msg 112 ++ rest in
  valid_preamble m j = true
  ∧ (slice_bits m j).2 = 0
  ∧ pack_bits (slice_bits m j).1 = msg.
Proof.
  intros Hj Hb Hlen m. split; [by apply modulated_preamble|].
  by apply modulated_sliced.
Qed.

Lemma modulated_frame_demodulated_witness :
  let m := [7; 7; 7] ++ modulate df17_ident 112 ++ [] in
  valid_preamble m 3 = true
  ∧ (slice_bits m 3).2 = 0
  ∧ pack_bits (slice_bits m 3).1 = df17_ident.
Proof.
  apply (modulated_frame_demodulated [7; 7; 7] df17_ident [] 3).
  - reflexivity.
  - repeat (constructor; [lia|]). constructor.
  - reflexivity.
Defined.

(** ** A turn of the loop on a clean frame *)

Lemma working_buffer_plain (st : state) :
  use_correction st = false → working_buffer st = m st.
Proof. intros Huc. unfold working_buffer. by rewrite Huc. Qed.

(** The sum of the noise filter over the first [n] bits. *)
Lemma delta_sum_clean (before msg rest : list Z) (j : Z) (nbits n : nat) :
  Z.to_nat j = length before → (n <= nbits)%nat →
  foldl (λ delta k,
           delta + Z.abs (sample (before ++ modulate msg nbits ++ rest) j
                                 (2 * k + 2 * MODES_PREAMBLE_US)
                          - sample (before ++ modulate msg nbits ++ rest) j
                                   (2 * k + 2 * MODES_PREAMBLE_US + 1)))
        0 (seq 0 n)
  = 10000 * Z.of_nat n.
Proof.
  intros Hj. induction n as [|n IH]; intros Hn; [done|].
  rewrite (seq_S n 0), foldl_app, IH by lia. cbn [foldl]. rewrite Nat.add_0_l.
  destruct (sample_symbol before msg rest j nbits n Hj ltac:(lia)) as [-> ->].
  destruct (bit_set msg n); lia.
Qed.

Lemma mean_delta_clean (before msg rest : list Z) (j : Z) (nbits : nat) :
  Z.to_nat j = length before → (nbits = 56 ∨ nbits = 112)%nat →
  mean_delta (before ++ modulate msg nbits ++ rest) j (nbits / 8) = 20000.
Proof.
  intros Hj Hn. unfold mean_delta.
  rewrite delta_sum_clean by (done || (destruct Hn as [-> | ->]; cbn; lia)).
  destruct Hn as [-> | ->]; reflexivity.
Qed.

(** X12.  A clean frame in the sample buffer is delivered.  Let the
    buffer hold, anywhere, the pulses of a DF11 frame of 56 bits or of a
    DF17 frame of 112 bits that passes the CRC check, followed by any
    samples.  The turn of the scan loop at the first sample of the frame,
    not a retry, hands one message over: its first [bits / 8] bytes are
    the frame as sent (for a DF11 frame the other 7 bytes of the buffer
    are what the slicer makes of the samples after the frame), the length
    is that of the frame, the CRC is good, no bit was fixed, and the
    message is not phase corrected.  The address enters the cache, the
    scan position moves past the frame ([j + 2 * (8 + bits) + 1]), and the
    samples are left as they were. *)
Theorem clean_frame_delivered (LEN TTL : Z) (aggressive : bool) (now : Z)
    (before good rest : list Z) (bits : nat) (st : state) :
  (bits = 56%nat ∧ Z.shiftr (at_ good 0) 3 = 11)
  ∨ (bits = 112%nat ∧ Z.shiftr (at_ good 0) 3 = 17) →
  is_bytes good → length good = (bits / 8)%nat → check good bits = true →
  m st = before ++ modulate good bits ++ rest →
  j st = Z.of_nat (length before) → use_correction st = false →
  let st' := detect_step LEN TTL aggressive now st in
  ∃ mm, delivered st' = delivered st ++ [mm]
        ∧ msg mm = good ++ drop (bits / 8) (pack_bits (slice_bits (m st) (j st)).1)
        ∧ length (msg mm) = 14%nat
        ∧ msg_bits mm = bits
        ∧ CRC_ok mm = true ∧ error_bit mm = -1 ∧ phase_corrected mm = false
        ∧ cache st' = ICAO_cache_add_address LEN (cache st) now
                        (aircraft_get_addr (at_ good 1) (at_ good 2) (at_ good 3))
        ∧ j st' = u32 (u32 (j st + 2 * (8 + Z.of_nat bits)) + 1)
        ∧ use_correction st' = false
        ∧ m st' = m st.
Proof.
  intros Hshape Hb Hlen Hgood Hm Hj Huc st'.
  assert (Hbits : (bits = 56 ∨ bits = 112)%nat) by tauto.
  assert (Hj' : Z.to_nat (j st) = length before) by (rewrite Hj; lia).
  destruct (sliced_frame before good rest (j st) bits Hj'
              ltac:(destruct Hbits as [-> | ->]; lia)) as [Herr Hsl].
  pose proof (modulated_preamble before good rest (j st) bits Hj') as Hpre.
  rewrite <- Hm in Herr, Hsl, Hpre.
  destruct (packed_frame good (slice_bits (m st) (j st)).1 bits Hb Hlen Hbits Hsl)
    as [Hpack Htl].
  set (tail := drop (bits / 8) (pack_bits (slice_bits (m st) (j st)).1)) in *.
  assert (Hat0 : at_ (good ++ tail) 0 = at_ good 0).
  { unfold at_. rewrite lookup_app_l; [done|].
    pose proof (frame_length bits Hbits). lia. }
  assert (Hlen' : modeS_message_len_by_type (Z.shiftr (at_ good 0) 3) = bits).
  { destruct Hshape as [[-> ->] | [-> ->]]; reflexivity. }
  assert (Hmean : mean_delta (m st) (j st) (bits / 8) = 20000).
  { rewrite Hm. by apply mean_delta_clean. }
  destruct (decode_good_frame LEN TTL aggressive (cache st) now good tail bits
              Hshape Hlen Hgood) as (Hok & Hcache & Hmsg & Hmb & Hebit).
  assert (Htail : take (14 - bits / 8) tail = tail) by (apply take_ge; lia).
  rewrite Htail in Hmsg.
  subst st'. unfold detect_step.
  rewrite Huc, Hpre. cbn [negb andb].
  rewrite restored_buffer_eq, working_buffer_plain by done.
  cbv zeta. rewrite Hpack, Hat0, Hlen', Hmean, Herr.
  change (20000 <? 10 * 255) with false. cbv iota.
  unfold accepted. change (0 =? 0) with true. cbn [orb].
  rewrite Hok.
  exists (set_phase_corrected false
            (decode_modeS_message LEN TTL aggressive (cache st) now (good ++ tail)).1).
  cbn [delivered cache j use_correction m set_phase_corrected msg CRC_ok error_bit
       phase_corrected msg_bits].
  split; [reflexivity|]. split; [exact Hmsg|].
  split; [rewrite Hmsg, length_app, Hlen, Htl; destruct Hbits as [-> | ->]; reflexivity|].
  split; [exact Hmb|]. split; [exact Hok|].
  split; [exact Hebit|]. split; [reflexivity|]. split; [exact Hcache|].
  split; [|split; reflexivity].
  do 3 f_equal. destruct Hbits as [-> | ->]; reflexivity.
Qed.

Lemma clean_frame_delivered_witness :
  let st := {| m := [7; 7; 7] ++ modulate df11_good 56 ++ replicate 130 0;
               j := 3; use_correction := false;
               cache := replicate 2048 0; delivered := [] |} in
  let st' := detect_step 1024 60 false 1000 st in
  ∃ mm, delivered st' = delivered st ++ [mm]
        ∧ msg mm = df11_good ++ drop (56 / 8) (pack_bits (slice_bits (m st) (j st)).1)
        ∧ length (msg mm) = 14%nat
        ∧ msg_bits mm = 56%nat
        ∧ CRC_ok mm = true ∧ error_bit mm = -1 ∧ phase_corrected mm = false
        ∧ cache st' = ICAO_cache_add_address 1024 (cache st) 1000
                        (aircraft_get_addr (at_ df11_good 1) (at_ df11_good 2)
                                           (at_ df11_good 3))
        ∧ j st' = u32 (u32 (j st + 2 * (8 + Z.of_nat 56)) + 1)
        ∧ use_correction st' = false
        ∧ m st' = m st.
Proof.
  intros st.
  apply (clean_frame_delivered 1024 60 false 1000 [7; 7; 7] df11_good (replicate 130 0)
           56 st).
  - left. split; reflexivity.
  - repeat (constructor; [lia|]). constructor.
  - reflexivity.
  - vm_compute. reflexivity.
  - reflexivity.
  - reflexivity.
  - reflexivity.
Defined.

(** A DF11 frame followed by silence: the seven bytes after the frame
    repeat its last bit, here a one. *)
Lemma lone_frame_padded :
  let st := {| m := [7; 7; 7] ++ modulate df11_good 56 ++ replicate 130 0;
               j := 3; use_correction := false;
               cache := replicate 2048 0; delivered := [] |} in
  map msg (delivered (detect_step 1024 60 false 1000 st))
  = [df11_good ++ replicate 7 255].
Proof. vm_compute. reflexivity. Qed.

End CleanSignal.

(** * The scan loop of the demodulator ([dump1090.c]) *)

Module Scan.
Import Checksum ICAO Decoder Demod.

(** ** One turn *)

(** What a turn adds to the messages handed over: nothing, or one message
    with a good CRC. *)
Lemma detect_step_delivered (LEN TTL : Z) (aggressive : bool) (now : Z) (st : state) :
  let st' := detect_step LEN TTL aggressive now st in
  delivered st' = delivered st
  ∨ ∃ mm, delivered st' = delivered st ++ [mm] ∧ CRC_ok mm = true.
Proof.
  intros st'. subst st'. unfold detect_step.
  destruct (negb (use_correction st) && negb (valid_preamble (m st) (j st)));
    [by left|].
  set (sliced := slice_bits (working_buffer st) (j st)).
  set (msg := pack_bits sliced.1).
  set (len := (modeS_message_len_by_type (Z.shiftr (at_ msg 0) 3) / 8)%nat).
  destruct (mean_delta (restored_buffer st) (j st) len <? 10 * 255); [by left|].
  destruct (accepted aggressive sliced.2).
  - set (decoded := decode_modeS_message LEN TTL aggressive (cache st) now msg).
    destruct (CRC_ok decoded.1) eqn:Hok.
    + right. exists (set_phase_corrected (use_correction st) decoded.1).
      cbn [delivered set_phase_corrected CRC_ok]. split; [reflexivity | exact Hok].
    + left. unfold no_message. cbn [use_correction delivered].
      by destruct (negb (use_correction st)).
  - left. unfold no_message. by destruct (negb (use_correction st)).
Qed.

Lemma message_bytes (ty : Z) :
  (modeS_message_len_by_type ty / 8 = 7 ∨ modeS_message_len_by_type ty / 8 = 14)%nat.
Proof.
  unfold modeS_message_len_by_type. destruct (_ || _); [by right | by left].
Qed.

(** How the scan position moves in a turn: forward, by 241 at most, or
    not at all when the turn arms the retry. *)
Lemma detect_step_progress (LEN TTL : Z) (aggressive : bool) (now : Z) (st : state) :
  0 <= j st → j st + 242 <= 2 ^ 32 →
  let st' := detect_step LEN TTL aggressive now st in
  (j st < j st' <= j st + 241 ∧ use_correction st' = false)
  ∨ (j st' = j st ∧ use_correction st = false ∧ use_correction st' = true).
Proof.
  intros Hj0 Hj1 st'. subst st'. unfold detect_step.
  change (2 ^ 32) with 4294967296 in Hj1.
  assert (Hinc : u32 (j st + 1) = j st + 1).
  { unfold u32. apply Z.mod_small. lia. }
  assert (Hnone : ∀ c,
    let st' := no_message {| m := m st; j := j st; use_correction := use_correction st;
                             cache := c; delivered := delivered st |}
                          (restored_buffer st) in
    (j st < j st' <= j st + 241 ∧ use_correction st' = false)
    ∨ (j st' = j st ∧ use_correction st = false ∧ use_correction st' = true)).
  { intros c. unfold no_message. cbn [use_correction j].
    destruct (use_correction st) eqn:Huc; cbn [negb use_correction j].
    - left. rewrite Hinc. split; [lia | done].
    - right. split; [|done]. apply u32_dec_inc. change (2 ^ 32) with 4294967296. lia. }
  destruct (negb (use_correction st) && negb (valid_preamble (m st) (j st))) eqn:Hpre.
  { left. cbn [j use_correction]. rewrite Hinc. split; [lia|].
    apply andb_prop in Hpre as [Huc _]. by apply negb_true_iff in Huc. }
  set (sliced := slice_bits (working_buffer st) (j st)).
  set (msg := pack_bits sliced.1).
  pose proof (message_bytes (Z.shiftr (at_ msg 0) 3)) as Hlen.
  set (len := (modeS_message_len_by_type (Z.shiftr (at_ msg 0) 3) / 8)%nat) in *.
  destruct (mean_delta (restored_buffer st) (j st) len <? 10 * 255).
  { left. cbn [j use_correction]. rewrite Hinc. split; [lia | done]. }
  destruct (accepted aggressive sliced.2).
  - set (decoded := decode_modeS_message LEN TTL aggressive (cache st) now msg).
    destruct (CRC_ok decoded.1).
    + left. cbn [j use_correction]. split; [|done].
      unfold MODES_PREAMBLE_US, u32.
      rewrite (Z.mod_small (j st + _)) by (destruct Hlen as [-> | ->]; lia).
      rewrite Z.mod_small by (destruct Hlen as [-> | ->]; lia).
      destruct Hlen as [-> | ->]; lia.
    + apply (Hnone decoded.2).
  - destruct st as [m0 j0 uc0 c0 d0]. apply (Hnone c0).
Qed.

Section Loop.

Variable LEN TTL : Z.
Variable aggressive : bool.
Variable MODES_FULL_LEN : Z.
Variable now mlen : Z.

(** The end of the scan: [mlen - 2 * MODES_FULL_LEN] as the [uint32_t]
    the loop compares [j] with. *)
Definition scan_end : Z := u32 (mlen - 2 * MODES_FULL_LEN).

Lemma detect_loop_S (fuel : nat) (st : state) :
  detect_loop LEN TTL aggressive MODES_FULL_LEN now mlen (S fuel) st
  = if j st <? scan_end
    then detect_loop LEN TTL aggressive MODES_FULL_LEN now mlen fuel
           (detect_step LEN TTL aggressive now st)
    else st.
Proof. reflexivity. Qed.

(** With enough turns the loop leaves by its condition. *)
Lemma detect_loop_leaves (fuel : nat) (st : state) :
  0 <= j st → scan_end + 242 <= 2 ^ 32 →
  2 * (scan_end - j st) - (if use_correction st then 1 else 0) < Z.of_nat fuel →
  scan_end <= j (detect_loop LEN TTL aggressive MODES_FULL_LEN now mlen fuel st).
Proof.
  revert st. induction fuel as [|fuel IH]; intros st Hj0 Hend Hfuel.
  - cbn [detect_loop]. destruct (use_correction st); lia.
  - rewrite detect_loop_S. destruct (Z.ltb_spec (j st) scan_end) as [Hlt|Hge]; [|done].
    destruct (detect_step_progress LEN TTL aggressive now st Hj0 ltac:(lia))
      as [[Hj' Huc'] | (Hj' & Huc & Huc')].
    + apply IH; [lia | done |]. rewrite Huc'. destruct (use_correction st); lia.
    + apply IH; [lia | done |]. rewrite Hj', Huc'. rewrite Huc in Hfuel. lia.
Qed.

(** Once it has left, more turns change nothing. *)
Lemma detect_loop_stable (fuel extra : nat) (st : state) :
  scan_end <= j (detect_loop LEN TTL aggressive MODES_FULL_LEN now mlen fuel st) →
  detect_loop LEN TTL aggressive MODES_FULL_LEN now mlen (fuel + extra) st
  = detect_loop LEN TTL aggressive MODES_FULL_LEN now mlen fuel st.
Proof.
  revert st. induction fuel as [|fuel IH]; intros st Hend.
  - cbn [detect_loop] in Hend. cbn [Nat.add detect_loop].
    destruct extra as [|extra]; [done|]. rewrite detect_loop_S.
    destruct (Z.ltb_spec (j st) scan_end); [lia | done].
  - change (S fuel + extra)%nat with (S (fuel + extra)).
    rewrite !detect_loop_S in *.
    destruct (j st <? scan_end); [by apply IH | done].
Qed.

(** The messages handed over by the loop. *)
Lemma detect_loop_delivered (fuel : nat) (st : state) :
  ∃ new, delivered (detect_loop LEN TTL aggressive MODES_FULL_LEN now mlen fuel st)
         = delivered st ++ new
         ∧ Forall (λ mm, CRC_ok mm = true) new.
Proof.
  revert st. induction fuel as [|fuel IH]; intros st.
  - exists []. by rewrite app_nil_r.
  - rewrite detect_loop_S. destruct (j st <? scan_end).
    + destruct (IH (detect_step LEN TTL aggressive now st)) as (new & Hnew & Hall).
      destruct (detect_step_delivered LEN TTL aggressive now st)
        as [Hsame | (mm & Hone & Hok)].
      * exists new. by rewrite Hnew, Hsame.
      * exists (mm :: new). rewrite Hnew, Hone, <- app_assoc. split; [done|].
        by constructor.
    + exists []. by rewrite app_nil_r.
Qed.

End Loop.

(** X13.  The scan loop of [detect_modeS] ends.  From a scan position
    [j >= 0], not in a retry, and with the end of the scan
    [mlen - 2 * MODES_FULL_LEN] (as [uint32_t]) at least 242 below
    [2^32]: after at most [2 * (end - j) + 1] turns the loop has left by
    its condition [j < end], although a turn that arms the retry does not
    move [j]; and any further turns granted change nothing. *)
Theorem detect_loop_terminates (LEN TTL : Z) (aggressive : bool) (FULL now mlen : Z)
    (st : state) (fuel extra : nat) :
  0 <= j st → use_correction st = false →
  scan_end FULL mlen + 242 <= 2 ^ 32 →
  2 * (scan_end FULL mlen - j st) < Z.of_nat fuel →
  scan_end FULL mlen <= j (detect_loop LEN TTL aggressive FULL now mlen fuel st)
  ∧ detect_loop LEN TTL aggressive FULL now mlen (fuel + extra) st
    = detect_loop LEN TTL aggressive FULL now mlen fuel st.
Proof.
  intros Hj Huc Hend Hfuel.
  assert (Hleft : scan_end FULL mlen
                  <= j (detect_loop LEN TTL aggressive FULL now mlen fuel st)).
  { apply detect_loop_leaves; [done | done |]. rewrite Huc. lia. }
  split; [exact Hleft | by apply detect_loop_stable].
Qed.

Lemma detect_loop_terminates_witness :
  let st := buffer_with df11_good in
  scan_end 121 250 <= j (detect_loop 1024 60 false 121 1000 250 17 st)
  ∧ detect_loop 1024 60 false 121 1000 250 (17 + 5) st
    = detect_loop 1024 60 false 121 1000 250 17 st.
Proof.
  intros st.
  apply (detect_loop_terminates 1024 60 false 121 1000 250 st 17 5).
  - vm_compute. discriminate.
  - reflexivity.
  - vm_compute. discriminate.
  - vm_compute. reflexivity.
Defined.

(** X14.  The demodulator hands over only messages with a good CRC.
    Whatever the samples, the loop of [detect_modeS] never removes a
    message from those handed to [modeS_user_message] so far, and every
    message it adds has [CRC_ok] set. *)
Theorem only_good_messages_delivered (LEN TTL : Z) (aggressive : bool)
    (FULL now mlen : Z) (fuel : nat) (st : state) :
  ∃ new, delivered (detect_loop LEN TTL aggressive FULL now mlen fuel st)
         = delivered st ++ new
         ∧ Forall (λ mm, CRC_ok mm = true) new.
Proof. apply detect_loop_delivered. Qed.

End Scan.

(** * Raw messages in and out ([dump1090.c]) *)

Module RawInput.
Import Checksum ICAO Decoder.

(** [tolower] and [isspace] of the C library, in the "C" locale, on a
    character given by its code. *)
Definition tolower (c : Z) : Z := if (65 <=? c) && (c <=? 90) then c + 32 else c.

Definition isspace (c : Z) : bool := (c =? 32) || ((9 <=? c) && (c <=? 13)).

(** [hex_digit_val]. *)
Definition hex_digit_val (c : Z) : Z :=
  let c := tolower c in
  if (48 <=? c) && (c <=? 57) then c - 48
  else if (97 <=? c) && (c <=? 102) then c - 97 + 10
  else -1.

(** [memchr (buf, c, n)] on a buffer of [n] bytes: the index of the first
    [c]. *)
Fixpoint memchr (buf : list Z) (c : Z) : option nat :=
  match buf with
  | [] => None
  | b :: rest => if b =? c then Some 0%nat else option_map S (memchr rest c)
  end.

(** The C string an array of characters holds: what precedes the first
    NUL. *)
Fixpoint c_str (l : list Z) : list Z :=
  match l with
  | [] => []
  | c :: rest => if c =? 0 then [] else c :: c_str rest
  end.

(** Modelled from the spec: [MODES_RAW_HEART_BEAT], a macro of [misc.h],
    which is not among the sources.  The specification has the heartbeat
    [*0000;], and so has the comment of [decode_hex_message]. *)
Definition MODES_RAW_HEART_BEAT : list Z := [42; 48; 48; 48; 48; 59].

(** [while (len && isspace (hex[len-1])) { hex[len-1] = '\0'; len--; }] *)
Fixpoint rtrim (hex : list Z) (len : nat) : list Z * nat :=
  match len with
  | O => (hex, 0%nat)
  | S len' =>
      if isspace (at_ hex len') then rtrim (<[len' := 0]> hex) len' else (hex, len)
  end.

(** [while (isspace ( *hex)) { hex++; len--; }]: the pointer [hex] is the
    rest of the buffer it points to. *)
Fixpoint ltrim (hex : list Z) (len : Z) : list Z * Z :=
  match hex with
  | [] => (hex, len)
  | c :: rest => if isspace c then ltrim rest (len - 1) else (hex, len)
  end.

(** The loop [for (j = 0; j < len; j += 2)], [n] turns left, at index [j]:
    [None] when a character is no hex digit. *)
Fixpoint hex_loop (hex : list Z) (n j : nat) (bin_msg : list Z) : option (list Z) :=
  match n with
  | O => Some bin_msg
  | S n' =>
      let high := hex_digit_val (at_ hex j) in
      let low := hex_digit_val (at_ hex (j + 1)) in
      if (high =? -1) || (low =? -1) then None
      else hex_loop hex n' (j + 2)
             (<[(j / 2)%nat := u8 (Z.lor (Z.shiftl high 4) low)]> bin_msg)
  end.

Definition found (r : option nat) : bool :=
  match r with Some _ => true | None => false end.

(** What [decode_hex_message] does with the record at the start of the
    buffer. *)
Inductive outcome :=
  | Bogus                        (* no end of line; [unrecognized_raw++] *)
  | HeartBeat
  | Empty                        (* [empty_raw++] *)
  | Unrecognized                 (* [unrecognized_raw++] *)
  | Good (bin_msg : list Z).     (* [good_raw++]; [bin_msg] goes to the decoder *)

(** [decode_hex_message]: the outcome and the buffer afterwards.  [buf]
    holds the [msg->len] bytes of [msg->buf]; [bin_msg] is the content of
    the local array of that name, which the function does not initialise.
    [mg_iobuf_del (msg, 0, n)], of the Mongoose library, removes the first
    [n] bytes of the buffer.  When the end of line is the first byte,
    [end[-2]] is the byte before the buffer; the model writes nothing
    then. *)
Definition decode_hex_message (bin_msg : list Z) (buf : list Z) : outcome * list Z :=
  match memchr buf 10 with
  | None => (Bogus, [])
  | Some e =>
      let buf := <[e := 0]> buf in
      let buf := if (0 <? e)%nat && (at_ buf (e - 1) =? 13)
                 then <[(e - 1)%nat := 0]> buf else buf in
      if bool_decide (c_str buf = MODES_RAW_HEART_BEAT) then (HeartBeat, [])
      else
        let trimmed := rtrim buf e in
        let buf := trimmed.1 in
        let left := ltrim buf (Z.of_nat trimmed.2) in
        let hex := left.1 in
        let len := left.2 in
        if len <? 2 then (Empty, drop (e + 1) buf)
        else if negb (at_ hex 0 =? 42) || negb (found (memchr (take (Z.to_nat len) buf) 59))
        then (Unrecognized, drop (e + 1) buf)
        else
          let hex := drop 1 hex in
          let len := len - 2 in
          if len >? 2 * Z.of_nat MODES_LONG_MSG_BYTES then (Unrecognized, drop (e + 1) buf)
          else
            match hex_loop hex (Z.to_nat ((len + 1) / 2)) 0 bin_msg with
            | None => (Unrecognized, drop (e + 1) buf)
            | Some bin => (Good bin, drop (e + 1) buf)
            end
  end.

(** The bytes a string of hex digits stands for, two digits a byte. *)
Fixpoint hex_bytes (ds : list Z) : list Z :=
  match ds with
  | high :: low :: rest => (16 * hex_digit_val high + hex_digit_val low) :: hex_bytes rest
  | _ => []
  end.

Definition is_digit (c : Z) : Prop := hex_digit_val c ≠ -1.

(** White space inside a record: it holds no end of line. *)
Definition is_blank (c : Z) : Prop := isspace c = true ∧ c ≠ 10.

(** What follows the star of a record that is taken: an even number of hex
    digits, 28 at most, the semicolon, and white space that does not end
    in a carriage return; the heartbeat apart. *)
Definition well_formed (ds ws : list Z) : Prop :=
  Forall is_digit ds ∧ Nat.Even (length ds) ∧ (length ds <= 28)%nat
  ∧ Forall is_blank ws ∧ last ws ≠ Some 13
  ∧ ds ++ ws ≠ [48; 48; 48; 48].

(** [mg_hex] of the Mongoose library, which is not among the sources:
    two hex digits a byte, the high one first.  The case of the letters is
    left open: [upper] chooses it. *)
Definition hex_char (upper : bool) (v : Z) : Z :=
  if v <? 10 then 48 + v else if upper then 55 + v else 87 + v.

Definition mg_hex (upper : bool) (bytes : list Z) : list Z :=
  flat_map (λ b, [hex_char upper (Z.shiftr b 4); hex_char upper (Z.land b 15)]) bytes.

(** [modeS_send_raw_output]: the bytes handed to [connection_send] when
    the service is sending. *)
Definition modeS_send_raw_output (upper : bool) (mm : modeS_message) : list Z :=
  [42] ++ mg_hex upper (take (msg_bits mm / 8) (msg mm)) ++ [59; 10].

(** ** Characters *)

Lemma hex_digit_val_range (c : Z) : hex_digit_val c = -1 ∨ 0 <= hex_digit_val c < 16.
Proof. unfold hex_digit_val. repeat case_match; lia. Qed.

Lemma digit_not_special (c : Z) :
  is_digit c → c ≠ 0 ∧ c ≠ 10 ∧ c ≠ 59 ∧ c ≠ 42 ∧ isspace c = false.
Proof.
  unfold is_digit, hex_digit_val, tolower, isspace. intros H.
  repeat split; try (intros ->; by apply H).
  repeat case_match; lia.
Qed.

Lemma blank_not_special (c : Z) : is_blank c → c ≠ 0 ∧ c ≠ 59 ∧ c ≠ 42.
Proof. unfold is_blank, isspace. intros [H _]. repeat split; intros ->; done. Qed.

(** ** Searching and strings *)

Lemma memchr_app (pre post : list Z) (c : Z) :
  Forall (λ b, b ≠ c) pre → memchr (pre ++ c :: post) c = Some (length pre).
Proof.
  induction pre as [|b pre IH]; intros Hpre; cbn [memchr app length].
  - by rewrite Z.eqb_refl.
  - apply Forall_cons in Hpre as [Hb Hpre].
    destruct (Z.eqb_spec b c); [done|]. by rewrite IH.
Qed.

Lemma memchr_Some (buf : list Z) (c : Z) (e : nat) :
  memchr buf c = Some e →
  buf = take e buf ++ c :: drop (S e) buf ∧ Forall (λ b, b ≠ c) (take e buf)
  ∧ length (take e buf) = e.
Proof.
  revert e. induction buf as [|b buf IH]; intros e H; [done|].
  cbn [memchr] in H. destruct (Z.eqb_spec b c) as [->|Hne].
  - injection H as <-. by repeat split.
  - destruct (memchr buf c) as [e'|]; [|done]. injection H as <-.
    destruct (IH e' eq_refl) as (Hsplit & Hpre & Hlen).
    cbn [take drop app length]. repeat split.
    + by rewrite <- Hsplit.
    + by constructor.
    + by rewrite Hlen.
Qed.

Lemma found_elem (buf : list Z) (c : Z) : found (memchr buf c) = true → c ∈ buf.
Proof.
  induction buf as [|b buf IH]; [done|]. cbn [memchr].
  destruct (Z.eqb_spec b c) as [->|Hne]; [by left|].
  destruct (memchr buf c); [|done]. intros _. right. by apply IH.
Qed.

Lemma elem_found (buf : list Z) (c : Z) : c ∈ buf → found (memchr buf c) = true.
Proof.
  induction buf as [|b buf IH]; [by intros ?%elem_of_nil|]. cbn [memchr].
  destruct (Z.eqb_spec b c) as [->|Hne]; [done|].
  intros [?|Hin]%elem_of_cons; [congruence|].
  specialize (IH Hin). by destruct (memchr buf c).
Qed.

Lemma c_str_app (s rest : list Z) :
  Forall (λ c, c ≠ 0) s → c_str (s ++ 0 :: rest) = s.
Proof.
  induction s as [|c s IH]; intros Hs; [done|].
  apply Forall_cons in Hs as [Hc Hs]. cbn [c_str app].
  destruct (Z.eqb_spec c 0); [done|]. by rewrite IH.
Qed.

(** ** The two trimming loops *)

Lemma rtrim_spec (l : list Z) (len : nat) :
  let r := rtrim l len in
  (r.2 <= len)%nat ∧ length r.1 = length l
  ∧ (∀ i, (i < r.2)%nat → at_ r.1 i = at_ l i)
  ∧ (∀ i, (len <= i)%nat → at_ r.1 i = at_ l i)
  ∧ (∀ i, (r.2 <= i < len)%nat → isspace (at_ l i) = true)
  ∧ (r.2 = 0%nat ∨ isspace (at_ l (r.2 - 1)) = false).
Proof.
  revert l. induction len as [|len IH]; intros l r; subst r.
  - cbn [rtrim fst snd]. repeat split; first [lia | done | (intros; lia) | by left].
  - cbn [rtrim]. destruct (isspace (at_ l len)) eqn:Hsp.
    + destruct (IH (<[len := 0]> l)) as (H1 & H2 & H3 & H4 & H5 & H6).
      split; [lia|]. split; [by rewrite H2, length_insert|].
      split; [intros i Hi; rewrite H3 by done; apply at_insert_ne; lia|].
      split; [intros i Hi; rewrite H4 by lia; apply at_insert_ne; lia|].
      split.
      * intros i Hi. destruct (Nat.eq_dec i len) as [->|Hne]; [done|].
        rewrite <- (at_insert_ne l len i 0) by lia. apply H5. lia.
      * destruct H6 as [H6|H6]; [by left|].
        destruct (Nat.eq_dec (rtrim (<[len:=0]> l) len).2 0%nat) as [H0|H0]; [by left | right].
        rewrite at_insert_ne in H6 by lia. exact H6.
    + cbn [fst snd]. split; [lia|]. split; [done|]. split; [done|]. split; [done|].
      split; [intros; lia|]. right. by replace (S len - 1)%nat with len by lia.
Qed.

Lemma ltrim_spec (l : list Z) (len : Z) :
  let r := ltrim l len in
  ∃ k, r.1 = drop k l ∧ r.2 = len - Z.of_nat k ∧ (k <= length l)%nat
       ∧ (∀ i, (i < k)%nat → isspace (at_ l i) = true)
       ∧ isspace (at_ r.1 0) = false.
Proof.
  revert len. induction l as [|c l IH]; intros len r; subst r.
  - exists 0%nat. cbn. repeat split; first [lia | done | (intros; lia)].
  - cbn [ltrim]. destruct (isspace c) eqn:Hsp.
    + destruct (IH (len - 1)) as (k & H1 & H2 & H3 & H4 & H5).
      exists (S k). cbn [drop length].
      split; [done|]. split; [lia|]. split; [lia|]. split; [|done].
      intros [|i] Hi; [done|]. apply H4. lia.
    + exists 0%nat. cbn [fst snd drop length].
      split; [done|]. split; [lia|]. split; [lia|]. split; [intros; lia | done].
Qed.

(** ** The digits *)

Lemma hex_loop_S (hex : list Z) (n j : nat) (bin : list Z) :
  hex_loop hex (S n) j bin
  = if (hex_digit_val (at_ hex j) =? -1) || (hex_digit_val (at_ hex (j + 1)) =? -1)
    then None
    else hex_loop hex n (j + 2)
           (<[(j / 2)%nat := u8 (Z.lor (Z.shiftl (hex_digit_val (at_ hex j)) 4)
                                       (hex_digit_val (at_ hex (j + 1))))]> bin).
Proof. reflexivity. Qed.

(** The loop succeeds only when all it read were digits. *)
Lemma hex_loop_digits (hex : list Z) (n j : nat) (bin bin' : list Z) :
  hex_loop hex n j bin = Some bin' →
  ∀ k, (j <= k < j + 2 * n)%nat → is_digit (at_ hex k).
Proof.
  revert j bin. induction n as [|n IH]; intros j bin H k Hk; [lia|].
  rewrite hex_loop_S in H.
  destruct (Z.eqb_spec (hex_digit_val (at_ hex j)) (-1)) as [|H1]; [done|].
  destruct (Z.eqb_spec (hex_digit_val (at_ hex (j + 1))) (-1)) as [|H2]; [done|].
  cbn [orb] in H.
  destruct (Nat.eq_dec k j) as [->|]; [done|].
  destruct (Nat.eq_dec k (j + 1)%nat) as [->|]; [done|].
  apply (IH _ _ H). lia.
Qed.

Lemma digit_pair (high low : Z) :
  is_digit high → is_digit low →
  u8 (Z.lor (Z.shiftl (hex_digit_val high) 4) (hex_digit_val low))
  = 16 * hex_digit_val high + hex_digit_val low.
Proof.
  unfold is_digit. intros Hh Hl.
  destruct (hex_digit_val_range high) as [|Hh']; [done|].
  destruct (hex_digit_val_range low) as [|Hl']; [done|].
  rewrite lor_shiftl_add by lia. unfold u8. rewrite Z.mod_small; lia.
Qed.

(** On digits the loop stores their bytes. *)
Lemma hex_loop_bytes (ds : list Z) (n : nat) (pre tail bin : list Z) (q : nat) :
  Forall is_digit ds → length ds = (2 * n)%nat → length pre = (2 * q)%nat →
  (q + n <= length bin)%nat →
  hex_loop (pre ++ ds ++ tail) n (2 * q) bin
  = Some (take q bin ++ hex_bytes ds ++ drop (q + n) bin).
Proof.
  revert ds pre bin q. induction n as [|n IH]; intros ds pre bin q Hd Hlen Hpre Hbin.
  - destruct ds; [|done]. cbn [hex_loop hex_bytes app].
    by rewrite Nat.add_0_r, take_drop.
  - destruct ds as [|high [|low ds]]; try (cbn in Hlen; lia).
    apply Forall_cons in Hd as [Hh Hd]. apply Forall_cons in Hd as [Hl Hd].
    rewrite hex_loop_S.
    assert (Hat0 : at_ (pre ++ (high :: low :: ds) ++ tail) (2 * q) = high).
    { unfold at_. rewrite lookup_app_r by lia.
      by replace (2 * q - length pre)%nat with 0%nat by lia. }
    assert (Hat1 : at_ (pre ++ (high :: low :: ds) ++ tail) (2 * q + 1) = low).
    { unfold at_. rewrite lookup_app_r by lia.
      by replace (2 * q + 1 - length pre)%nat with 1%nat by lia. }
    rewrite Hat0, Hat1.
    destruct (Z.eqb_spec (hex_digit_val high) (-1)) as [|_]; [done|].
    destruct (Z.eqb_spec (hex_digit_val low) (-1)) as [|_]; [done|].
    cbn [orb]. rewrite digit_pair by done.
    replace (2 * q / 2)%nat with q by (rewrite Nat.mul_comm, Nat.div_mul; lia).
    replace (2 * q + 2)%nat with (2 * (q + 1))%nat by lia.
    replace (pre ++ (high :: low :: ds) ++ tail)
      with ((pre ++ [high; low]) ++ ds ++ tail) by (by rewrite <- app_assoc).
    rewrite IH; [|done|cbn in Hlen; lia|rewrite length_app; cbn; lia
                 |rewrite length_insert; lia].
    f_equal. cbn [hex_bytes].
    replace (q + 1)%nat with (S q) by lia.
    rewrite (take_S_r _ _ (16 * hex_digit_val high + hex_digit_val low))
      by (apply list_lookup_insert_eq; lia).
    rewrite take_insert_ge by lia.
    rewrite drop_insert_lt by lia.
    rewrite <- app_assoc. cbn [app].
    by replace (S q + n)%nat with (q + S n)%nat by lia.
Qed.

Lemma take_rtrim (l : list Z) (len : nat) :
  take (rtrim l len).2 (rtrim l len).1 = take (rtrim l len).2 l
  ∧ drop len (rtrim l len).1 = drop len l.
Proof.
  revert l. induction len as [|len IH]; intros l; [done|].
  cbn [rtrim]. destruct (isspace (at_ l len)); [|done].
  destruct (IH (<[len := 0]> l)) as [H1 H2].
  pose proof (rtrim_spec (<[len := 0]> l) len) as (Hle & _).
  split.
  - rewrite H1. apply take_insert_ge. exact Hle.
  - replace (S len) with (len + 1)%nat by lia.
    rewrite <- !drop_drop, H2, !drop_drop.
    apply drop_insert_lt. lia.
Qed.

(** ** The record after the trimming *)

(** What the tests after the trimming let through: with [len1] characters
    left of the record in [b], the last of them no white space, the record
    is a star, digits (an even number, 28 at most) and a semicolon, and
    the left trim removed nothing. *)
Lemma good_shape (b : list Z) (len1 : nat) (stack bin : list Z) :
  let left := ltrim b (Z.of_nat len1) in
  (len1 <= length b)%nat →
  (left.2 <? 2) = false →
  negb (at_ left.1 0 =? 42) || negb (found (memchr (take (Z.to_nat left.2) b) 59)) = false →
  (left.2 - 2 >? 2 * Z.of_nat MODES_LONG_MSG_BYTES) = false →
  hex_loop (drop 1 left.1) (Z.to_nat ((left.2 - 2 + 1) / 2)) 0 stack = Some bin →
  left = (b, Z.of_nat len1)
  ∧ (2 <= len1 <= 30)%nat ∧ Nat.Even len1
  ∧ at_ b 0 = 42 ∧ at_ b (len1 - 1) = 59
  ∧ ∀ j, (1 <= j < len1 - 1)%nat → is_digit (at_ b j).
Proof.
  intros left Hlen Hlen2 Htests Hmax Hloop.
  destruct (ltrim_spec b (Z.of_nat len1)) as (k & Hhex & Hl & Hk & Hsp & Hfirst).
  fold left in Hhex, Hl, Hfirst.
  apply Z.ltb_ge in Hlen2.
  apply orb_false_elim in Htests as [Hstar Hsemi].
  apply negb_false_iff, Z.eqb_eq in Hstar. apply negb_false_iff in Hsemi.
  unfold MODES_LONG_MSG_BYTES in Hmax.
  assert (Hmax' : left.2 - 2 <= 28).
  { destruct (Z.gtb_spec (left.2 - 2) (2 * Z.of_nat 14)); [done | lia]. }
  clear Hmax.
  apply found_elem, elem_of_take in Hsemi as (i & Hi & Hilt).
  assert (Hat_i : at_ b i = 59) by (unfold at_; by rewrite Hi).
  pose proof (hex_loop_digits _ _ _ _ _ Hloop) as Hdig.
  set (n := Z.to_nat ((left.2 - 2 + 1) / 2)) in *.
  assert (Hn : (Z.to_nat left.2 - 2 <= 2 * n)%nat).
  { subst n. Z.div_mod_to_equations. lia. }
  assert (Hhexat : ∀ p, at_ left.1 p = at_ b (k + p)).
  { intros p. rewrite Hhex. apply at_drop. }
  assert (Hdig' : ∀ p, (1 <= p < 1 + 2 * n)%nat → is_digit (at_ b (k + p))).
  { intros p Hp. rewrite <- Hhexat.
    replace p with (1 + (p - 1))%nat by lia. rewrite <- at_drop.
    apply Hdig. lia. }
  rewrite Hhexat, Nat.add_0_r in Hstar.
  (* the semicolon is the last character, and nothing was trimmed on the left *)
  assert (Hik : (k <= i)%nat).
  { destruct (Nat.lt_ge_cases i k) as [Hlt|]; [|done].
    specialize (Hsp i Hlt). by rewrite Hat_i in Hsp. }
  assert (Hk0 : k = 0%nat ∧ i = (len1 - 1)%nat).
  { destruct (Nat.eq_dec i k) as [->|Hne]; [congruence|].
    destruct (Nat.lt_ge_cases (i - k) (1 + 2 * n)) as [Hlt|Hge].
    - specialize (Hdig' (i - k)%nat ltac:(lia)).
      replace (k + (i - k))%nat with i in Hdig' by lia.
      rewrite Hat_i in Hdig'. exfalso. by apply Hdig'.
    - lia. }
  destruct Hk0 as [-> ->].
  assert (Hleft : left = (b, Z.of_nat len1)).
  { destruct left as [h l]. cbn [fst snd] in *. rewrite Hhex, Hl. f_equal. lia. }
  rewrite Hl in *. cbn [Nat.add] in *.
  assert (Heven : Nat.Even len1).
  { destruct (Nat.Even_or_Odd len1) as [|[m Hm]]; [done|].
    exfalso. specialize (Hdig' (len1 - 1)%nat).
    rewrite Hat_i in Hdig'. apply Hdig'; [|done].
    subst n. Z.div_mod_to_equations. lia. }
  split; [exact Hleft|]. split; [lia|]. split; [exact Heven|].
  split; [exact Hstar|]. split; [exact Hat_i|].
  intros j Hj. apply Hdig'. lia.
Qed.

(** ** A record that is taken *)

Lemma at_lookup' (l : list Z) (i : nat) :
  (i < length l)%nat → ∀ a, l !! i = Some (at_ (a :: l) (S i)).
Proof.
  intros Hi a. change (at_ (a :: l) (S i)) with (at_ l i). unfold at_.
  destruct (l !! i) eqn:E; [done|]. apply lookup_ge_None in E. lia.
Qed.

Lemma last_at (l : list Z) : last l = l !! (length l - 1)%nat.
Proof. rewrite last_lookup. f_equal. lia. Qed.

(** The characters of a well-formed record. *)
Lemma record_chars (ds ws : list Z) :
  Forall is_digit ds → Forall is_blank ws →
  let line := (42 :: ds ++ [59]) ++ ws in
  length line = (2 + length ds + length ws)%nat
  ∧ Forall (λ c, c ≠ 10) line ∧ Forall (λ c, c ≠ 0) line
  ∧ at_ line (1 + length ds) = 59
  ∧ (∀ j, (j < length ws)%nat → is_blank (at_ line (2 + length ds + j))).
Proof.
  intros Hd Hb line. subst line.
  assert (Hl : length (42 :: ds ++ [59]) = (2 + length ds)%nat).
  { cbn [length]. rewrite length_app. cbn [length]. lia. }
  split; [rewrite length_app, Hl; lia|].
  assert (Hall : ∀ v, v = 0 ∨ v = 10 → Forall (λ c, c ≠ v) ((42 :: ds ++ [59]) ++ ws)).
  { intros v Hv. apply Forall_app. split.
    - constructor; [lia|]. apply Forall_app. split.
      + eapply Forall_impl; [exact Hd|]. intros c Hc%digit_not_special. lia.
      + constructor; [lia | constructor].
    - eapply Forall_impl; [exact Hb|]. intros c Hc.
      pose proof (blank_not_special c Hc). destruct Hc as [_ Hc]. lia. }
  split; [apply Hall; by right|]. split; [apply Hall; by left|].
  split.
  - rewrite at_app_l by lia.
    change (42 :: ds ++ [59]) with ((42 :: ds) ++ [59]).
    replace (1 + length ds)%nat with (length (42%Z :: ds) + 0)%nat by (cbn [length]; lia).
    by rewrite at_app_r.
  - intros j Hj. rewrite <- Hl, at_app_r.
    apply (proj1 (Forall_forall _ _) Hb). by apply at_elem.
Qed.

(** A list is cut in one way only at the first element of a kind. *)
Lemma app_cons_unique (P : Z → Prop) (x : Z) (l1 l2 k1 k2 : list Z) :
  Forall P l1 → Forall P l2 → ¬ P x →
  l1 ++ x :: k1 = l2 ++ x :: k2 → l1 = l2 ∧ k1 = k2.
Proof.
  revert l2. induction l1 as [|a l1 IH]; intros [|b l2] H1 H2 Hx Heq; cbn [app] in Heq.
  - by injection Heq as ->.
  - injection Heq as <- _. apply Forall_cons in H2 as [? _]. done.
  - injection Heq as -> _. apply Forall_cons in H1 as [? _]. done.
  - injection Heq as -> Heq.
    apply Forall_cons in H1 as [_ H1]. apply Forall_cons in H2 as [_ H2].
    destruct (IH l2 H1 H2 Hx Heq) as [-> ->]. done.
Qed.

Lemma not_heart_beat (ds ws : list Z) :
  Forall is_digit ds → ds ++ ws ≠ [48; 48; 48; 48] →
  (42 :: ds ++ [59]) ++ ws ≠ MODES_RAW_HEART_BEAT.
Proof.
  intros Hd Hne Heq. apply Hne. unfold MODES_RAW_HEART_BEAT in Heq.
  cbn [app] in Heq. injection Heq as Heq. rewrite <- app_assoc in Heq. cbn [app] in Heq.
  destruct (app_cons_unique is_digit 59 ds [48; 48; 48; 48] ws [] Hd) as [-> ->];
    try done.
  - repeat (constructor; [by intros ?|]). constructor.
  - intros H. by apply H.
Qed.

(** A well-formed record is taken, with the bytes of its digits. *)
Lemma record_accepted (stack ds ws rest : list Z) :
  length stack = 14%nat → well_formed ds ws →
  decode_hex_message stack ([42] ++ ds ++ [59] ++ ws ++ [10] ++ rest)
  = (Good (hex_bytes ds ++ drop (length ds / 2) stack), rest).
Proof.
  intros Hstack (Hd & [m Hm] & Hmax & Hb & Hlast & Hhb).
  destruct (record_chars ds ws Hd Hb) as (Hlen & H10 & H0 & H59 & Hblank).
  set (line := (42 :: ds ++ [59]) ++ ws) in *.
  assert (Hbuf : [42] ++ ds ++ [59] ++ ws ++ [10] ++ rest = line ++ 10 :: rest).
  { subst line. cbn [app]. by rewrite <- !app_assoc. }
  rewrite Hbuf. unfold decode_hex_message. rewrite memchr_app by done. cbv zeta.
  assert (Hb1 : <[length line := 0]> (line ++ 10 :: rest) = line ++ 0 :: rest).
  { replace (length line) with (length line + 0)%nat at 1 by lia.
    by rewrite insert_app_r. }
  rewrite Hb1.
  assert (Hcr : (0 <? length line)%nat
                && (at_ (line ++ 0 :: rest) (length line - 1) =? 13) = false).
  { apply andb_false_iff. right. apply Z.eqb_neq.
    rewrite at_app_l by lia. unfold at_. rewrite <- last_at. subst line.
    rewrite last_app. destruct (last ws) as [w|]; [cbn; congruence|].
    change (42 :: ds ++ [59]) with ((42 :: ds) ++ [59]). by rewrite last_snoc. }
  rewrite Hcr, c_str_app by done.
  rewrite bool_decide_eq_false_2 by by apply not_heart_beat.
  pose proof (rtrim_spec (line ++ 0 :: rest) (length line)) as (Hr1 & _ & _ & _ & Hr5 & Hr6).
  pose proof (take_rtrim (line ++ 0 :: rest) (length line)) as [Ht Hdr].
  set (r := rtrim (line ++ 0 :: rest) (length line)) in *.
  assert (Hlen1 : r.2 = (2 + length ds)%nat).
  { destruct (Nat.lt_ge_cases r.2 (2 + length ds)) as [Hlt|Hge].
    - specialize (Hr5 (1 + length ds)%nat ltac:(lia)).
      rewrite at_app_l, H59 in Hr5 by lia. done.
    - destruct (Nat.eq_dec r.2 (2 + length ds)%nat) as [|Hne]; [done|].
      destruct Hr6 as [Hr6|Hr6]; [lia|].
      rewrite at_app_l in Hr6 by lia.
      destruct (Hblank (r.2 - 1 - (2 + length ds))%nat ltac:(lia)) as [Hsp _].
      replace (2 + length ds + (r.2 - 1 - (2 + length ds)))%nat with (r.2 - 1)%nat
        in Hsp by lia.
      congruence. }
  assert (Hform : r.1 = (42 :: ds ++ [59]) ++ drop (2 + length ds) r.1).
  { rewrite <- (take_drop (2 + length ds) r.1) at 1. f_equal.
    rewrite <- Hlen1, Ht, Hlen1. rewrite take_app_le by lia. subst line.
    apply take_app_length'. cbn [length]. rewrite length_app. cbn [length]. lia. }
  assert (Hrest : drop (length line + 1) r.1 = rest).
  { rewrite <- drop_drop, Hdr, drop_app_length. reflexivity. }
  rewrite Hrest, Hlen1, Hform.
  set (tl := drop (2 + length ds) r.1).
  cbn [app ltrim]. change (isspace 42) with false. cbv iota. cbn [fst snd].
  assert (H2 : (Z.of_nat (2 + length ds) <? 2) = false) by (apply Z.ltb_ge; lia).
  rewrite H2.
  assert (Hsemi : found (memchr (take (Z.to_nat (Z.of_nat (2 + length ds)))
                                      (42 :: (ds ++ [59]) ++ tl)) 59) = true).
  { apply elem_found. rewrite Nat2Z.id.
    change (42 :: (ds ++ [59]) ++ tl) with ((42 :: ds ++ [59]) ++ tl).
    rewrite take_app_length' by (cbn [length]; rewrite length_app; cbn [length]; lia).
    right. apply elem_of_app. right. by left. }
  rewrite Hsemi. cbn [negb orb].
  assert (H28 : (Z.of_nat (2 + length ds) - 2 >? 2 * Z.of_nat MODES_LONG_MSG_BYTES) = false).
  { unfold MODES_LONG_MSG_BYTES.
    destruct (Z.gtb_spec (Z.of_nat (2 + length ds) - 2) (2 * Z.of_nat 14)); [lia | done]. }
  rewrite H28.
  replace (Z.to_nat ((Z.of_nat (2 + length ds) - 2 + 1) / 2)) with m
    by (Z.div_mod_to_equations; lia).
  change (drop 1 (42 :: (ds ++ [59]) ++ tl)) with ((ds ++ [59]) ++ tl).
  rewrite <- app_assoc.
  pose proof (hex_loop_bytes ds m [] ([59] ++ tl) stack 0 Hd Hm eq_refl ltac:(lia))
    as Hloop.
  cbn [app Nat.mul take Nat.add] in Hloop. cbn [app]. rewrite Hloop.
  change (at_ (42 :: ds ++ 59 :: tl) 0 =? 42) with true. cbn [negb orb take app].
  replace (length ds / 2)%nat with m; [done|].
  rewrite Hm, Nat.mul_comm, Nat.div_mul; lia.
Qed.

(** ** Only such records are taken *)

Lemma split_line (l : list Z) (n : nat) :
  (2 <= n <= length l)%nat →
  l = (at_ l 0 :: take (n - 2) (drop 1 l) ++ [at_ l (n - 1)]) ++ drop n l.
Proof.
  intros Hn. destruct l as [|a l]; [cbn in Hn; lia|].
  cbn [length] in Hn. change (at_ (a :: l) 0) with a. cbn [drop app]. f_equal.
  rewrite <- (take_drop (n - 2) l) at 1. rewrite <- app_assoc. f_equal.
  assert (Hat : l !! (n - 2)%nat = Some (at_ (a :: l) (n - 1))).
  { replace (n - 1)%nat with (S (n - 2)) by lia. apply at_lookup'. lia. }
  rewrite (drop_S _ _ _ Hat). cbn [app]. f_equal.
  replace n with (S (S (n - 2))) at 2 by lia. reflexivity.
Qed.

(** The record of a buffer that is taken. *)
Lemma record_shape (stack buf bin rem : list Z) :
  decode_hex_message stack buf = (Good bin, rem) →
  ∃ ds ws, buf = [42] ++ ds ++ [59] ++ ws ++ [10] ++ rem ∧ well_formed ds ws.
Proof.
  unfold decode_hex_message. intros H.
  destruct (memchr buf 10) as [e|] eqn:He; [|done].
  apply memchr_Some in He as (Hsplit & Hno10 & Hlen_e).
  set (line := take e buf) in *. set (rest := drop (S e) buf) in *.
  cbv zeta in H.
  assert (Hb1 : <[e := 0]> buf = line ++ 0 :: rest).
  { rewrite Hsplit. replace e with (length line + 0)%nat at 1 by lia.
    by rewrite insert_app_r. }
  rewrite Hb1 in H.
  destruct ((0 <? e)%nat && (at_ (line ++ 0 :: rest) (e - 1) =? 13)) eqn:Hcr.
  - (* a carriage return before the end of line *)
    exfalso. apply andb_prop in Hcr as [He0 _]. apply Nat.ltb_lt in He0.
    destruct (bool_decide _); [done|].
    set (b := <[(e - 1)%nat := 0]> (line ++ 0 :: rest)) in *.
    assert (Hlast : at_ b (e - 1) = 0).
    { subst b. apply at_insert_eq. rewrite length_app. lia. }
    assert (Hr : rtrim b e = (b, e)).
    { destruct e as [|e']; [lia|]. cbn [rtrim].
      replace (S e' - 1)%nat with e' in Hlast by lia. by rewrite Hlast. }
    rewrite Hr in H. cbn [fst snd] in H.
    destruct (_ <? 2) eqn:H2; [done|].
    destruct (negb _ || negb _) eqn:Htests; [done|].
    destruct (_ >? _) eqn:Hmax; [done|].
    destruct (hex_loop _ _ _ _) as [bin'|] eqn:Hloop; [|done].
    destruct (good_shape b e stack bin') as (_ & _ & _ & _ & H59 & _); try done.
    + subst b. rewrite length_insert, length_app. lia.
    + congruence.
  - destruct (bool_decide _) eqn:Hhb; [done|]. apply bool_decide_eq_false_1 in Hhb.
    pose proof (rtrim_spec (line ++ 0 :: rest) e) as (Hr1 & Hr2 & _ & _ & Hr5 & _).
    pose proof (take_rtrim (line ++ 0 :: rest) e) as [Ht Hdr].
    set (r := rtrim (line ++ 0 :: rest) e) in *.
    destruct (_ <? 2) eqn:H2; [done|].
    destruct (negb _ || negb _) eqn:Htests; [done|].
    destruct (_ >? _) eqn:Hmax; [done|].
    destruct (hex_loop _ _ _ _) as [bin'|] eqn:Hloop; [|done].
    injection H as _ Hrem.
    destruct (good_shape r.1 r.2 stack bin')
      as (_ & Hn & Heven & Hstar & Hsemi & Hdig); try done.
    { rewrite Hr2, length_app. lia. }
    assert (Hat : ∀ i, (i < r.2)%nat → at_ r.1 i = at_ line i).
    { intros i Hi. rewrite <- (at_take r.1 r.2), Ht, at_take by done.
      apply at_app_l. lia. }
    rewrite Hat in Hstar, Hsemi by lia.
    assert (Hrest : rem = rest).
    { rewrite <- Hrem. replace (e + 1)%nat with (length line + 1)%nat by lia.
      rewrite <- drop_drop. rewrite <- Hlen_e in Hdr. fold line in Hdr.
      by rewrite Hdr, drop_app_length. }
    exists (take (r.2 - 2) (drop 1 line)), (drop r.2 line).
    set (ds := take (r.2 - 2) (drop 1 line)). set (ws := drop r.2 line).
    assert (Hline : line = (42 :: ds ++ [59]) ++ ws).
    { rewrite <- Hstar, <- Hsemi. apply split_line. lia. }
    assert (Hlds : length ds = (r.2 - 2)%nat).
    { subst ds. rewrite length_take, length_drop. lia. }
    assert (Hd : Forall is_digit ds).
    { apply Forall_lookup. intros j c Hj.
      assert (Hjlt : (j < r.2 - 2)%nat).
      { rewrite <- Hlds. by apply lookup_lt_Some in Hj. }
      subst ds. rewrite lookup_take_lt, lookup_drop in Hj by done.
      specialize (Hdig (1 + j)%nat ltac:(lia)). rewrite Hat in Hdig by lia.
      unfold at_ in Hdig. by rewrite Hj in Hdig. }
    assert (Hb : Forall is_blank ws).
    { apply Forall_lookup. intros j c Hj. subst ws. rewrite lookup_drop in Hj.
      assert (Hjlt : (r.2 + j < e)%nat).
      { apply lookup_lt_Some in Hj. lia. }
      split.
      - specialize (Hr5 (r.2 + j)%nat ltac:(lia)).
        rewrite at_app_l in Hr5 by lia. unfold at_ in Hr5. by rewrite Hj in Hr5.
      - apply (proj1 (Forall_lookup _ _) Hno10 _ _ Hj). }
    split.
    { rewrite Hsplit at 1. fold line. fold rest. rewrite Hline, Hrest.
      cbn [app]. by rewrite <- !app_assoc. }
    split; [exact Hd|]. split; [by rewrite Hlds; destruct Heven as [k ->]; exists (k - 1)%nat; lia|].
    split; [lia|]. split; [exact Hb|]. split.
    + (* the white space does not end in a carriage return *)
      intros Hlast. rewrite last_at in Hlast.
      assert (Hws : (0 < length ws)%nat).
      { destruct ws; [done | cbn; lia]. }
      assert (Hlw : length ws = (e - r.2)%nat).
      { subst ws. rewrite length_drop. lia. }
      subst ws. rewrite lookup_drop in Hlast.
      replace (r.2 + (length (drop r.2 line) - 1))%nat with (e - 1)%nat in Hlast by lia.
      apply andb_false_iff in Hcr as [Hcr|Hcr].
      * apply Nat.ltb_ge in Hcr. lia.
      * apply Z.eqb_neq in Hcr. apply Hcr.
        rewrite at_app_l by lia. unfold at_. by rewrite Hlast.
    + (* the record is not the heartbeat *)
      intros Heq. apply Hhb.
      assert (Hws : ws = []).
      { destruct (last ws) as [w|] eqn:Hw.
        - exfalso.
          assert (Hin : w ∈ ws) by (rewrite last_lookup in Hw; by apply list_elem_of_lookup_2 in Hw).
          assert (Hwb : is_blank w) by (by apply (proj1 (Forall_forall _ _) Hb)).
          assert (Hw4 : last (ds ++ ws) = Some w)
            by (rewrite last_app, Hw; done).
          rewrite Heq in Hw4. injection Hw4 as <-. by destruct Hwb.
        - by apply last_None in Hw. }
      rewrite Hws, app_nil_r in Heq.
      rewrite c_str_app.
      * rewrite Hline, Hws, Heq. reflexivity.
      * rewrite Hline, Hws, Heq. repeat (constructor; [lia|]). constructor.
Qed.

(** ** The records that are taken *)

(** The characters of a string, as codes. *)
Definition chars (s : string) : list Z :=
  map (λ c, Z.of_nat (nat_of_ascii c)) (list_ascii_of_string s).

(** X15.  [decode_hex_message] passes bytes to the decoder exactly for the
    records of the form [*], an even number of hex digits (28 at most, of
    either case), [;], white space that does not end in a carriage
    return, and the end of line, the heartbeat [*0000;] apart.  The bytes
    are those of the digits, followed by what the array [bin_msg] held
    before (the function does not initialise it), and the record is
    removed from the buffer. *)
Theorem raw_record_taken (stack buf bin rem : list Z) :
  length stack = 14%nat →
  decode_hex_message stack buf = (Good bin, rem)
  ↔ ∃ ds ws, buf = [42] ++ ds ++ [59] ++ ws ++ [10] ++ rem
             ∧ well_formed ds ws
             ∧ bin = hex_bytes ds ++ drop (length ds / 2) stack.
Proof.
  intros Hstack. split.
  - intros H. destruct (record_shape stack buf bin rem H) as (ds & ws & Hbuf & Hwf).
    exists ds, ws. split; [exact Hbuf|]. split; [exact Hwf|].
    rewrite Hbuf, (record_accepted stack ds ws rem Hstack Hwf) in H.
    by injection H as <-.
  - intros (ds & ws & -> & Hwf & ->). by apply record_accepted.
Qed.

Lemma raw_record_taken_witness :
  decode_hex_message (replicate 14 255) (chars "*5da08C4A793AA5; " ++ [10] ++ chars "*00")
  = (Good ([0x5D; 0xA0; 0x8C; 0x4A; 0x79; 0x3A; 0xA5] ++ replicate 7 255), chars "*00").
Proof.
  apply (proj2 (raw_record_taken (replicate 14 255) _ _ _ eq_refl)).
  exists (chars "5da08C4A793AA5"), (chars " ").
  split; [reflexivity|]. split; [|reflexivity].
  split; [|split; [|split; [|split; [|split]]]].
  - repeat (constructor; [by intros ?|]). constructor.
  - by exists 7%nat.
  - cbn. lia.
  - repeat (constructor; [by split|]). constructor.
  - discriminate.
  - discriminate.
Defined.

(** X16.  [decode_hex_message] never passes to the decoder a record that
    starts with white space, nor one whose end of line follows a carriage
    return, whatever else the record holds. *)
Theorem raw_record_refused (stack buf : list Z) :
  isspace (at_ buf 0) = true
  ∨ (∃ e, memchr buf 10 = Some (S e) ∧ at_ buf e = 13) →
  ∀ bin rem, decode_hex_message stack buf ≠ (Good bin, rem).
Proof.
  intros Hbad bin rem H.
  destruct (record_shape stack buf bin rem H)
    as (ds & ws & -> & Hd & _ & _ & Hb & Hlast & _).
  destruct Hbad as [Hsp | (e & He & Hcr)]; [done|].
  destruct (record_chars ds ws Hd Hb) as (Hlen & H10 & _ & H59 & Hblank).
  set (line := (42 :: ds ++ [59]) ++ ws) in *.
  assert (Hbuf : [42] ++ ds ++ [59] ++ ws ++ [10] ++ rem = line ++ 10 :: rem).
  { subst line. cbn [app]. by rewrite <- !app_assoc. }
  rewrite Hbuf in He, Hcr. rewrite memchr_app in He by done.
  assert (He' : length line = S e) by congruence.
  rewrite at_app_l in Hcr by lia.
  assert (Hl : last line = Some 13).
  { rewrite last_at, He'. replace (S e - 1)%nat with e by lia.
    rewrite (at_lookup line e) by lia. by rewrite Hcr. }
  subst line. rewrite last_app in Hl. destruct (last ws) as [w|]; [congruence|].
  change (42 :: ds ++ [59]) with ((42 :: ds) ++ [59]) in Hl. by rewrite last_snoc in Hl.
Qed.

Lemma raw_record_refused_witness :
  let buf := chars "*5DA08C4A793AA5;" ++ [13; 10] in
  (memchr buf 10 = Some 17%nat ∧ at_ buf 16 = 13)
  ∧ ∀ bin rem, decode_hex_message (replicate 14 0) buf ≠ (Good bin, rem).
Proof.
  split; [split; reflexivity|].
  apply (raw_record_refused (replicate 14 0) (chars "*5DA08C4A793AA5;" ++ [13; 10])).
  right. exists 16%nat. split; reflexivity.
Defined.

(** ** Output read back *)

Lemma hex_char_val (upper : bool) (v : Z) :
  0 <= v < 16 → hex_digit_val (hex_char upper v) = v.
Proof.
  intros Hv.
  assert (Hcases : v = 0 ∨ v = 1 ∨ v = 2 ∨ v = 3 ∨ v = 4 ∨ v = 5 ∨ v = 6 ∨ v = 7
                   ∨ v = 8 ∨ v = 9 ∨ v = 10 ∨ v = 11 ∨ v = 12 ∨ v = 13 ∨ v = 14
                   ∨ v = 15) by lia.
  repeat (destruct Hcases as [-> | Hcases]; [by destruct upper|]).
  subst v. by destruct upper.
Qed.

Lemma mg_hex_digits (upper : bool) (bytes : list Z) :
  is_bytes bytes →
  Forall is_digit (mg_hex upper bytes)
  ∧ length (mg_hex upper bytes) = (2 * length bytes)%nat
  ∧ hex_bytes (mg_hex upper bytes) = bytes.
Proof.
  induction 1 as [|b bytes Hb Hbytes (IH1 & IH2 & IH3)]; [done|].
  assert (Hhi : 0 <= Z.shiftr b 4 < 16).
  { rewrite Z.shiftr_div_pow2 by lia. change (2 ^ 4) with 16.
    Z.div_mod_to_equations. lia. }
  assert (Hlo : 0 <= Z.land b 15 < 16).
  { change 15 with (Z.ones 4). rewrite Z.land_ones by lia. apply Z.mod_pos_bound. lia. }
  cbn [mg_hex flat_map app hex_bytes length]. fold (mg_hex upper bytes).
  split; [|split].
  - constructor; [|constructor; [|done]]; unfold is_digit; rewrite hex_char_val; lia.
  - rewrite IH2. lia.
  - rewrite !hex_char_val, IH3 by done. f_equal.
    rewrite Z.shiftr_div_pow2 by lia. change 15 with (Z.ones 4).
    rewrite Z.land_ones by lia. change (2 ^ 4) with 16.
    Z.div_mod_to_equations. lia.
Qed.

(** X17.  What [modeS_send_raw_output] writes, [decode_hex_message] reads
    back.  For a message of 56 or 112 bits, the bytes written to the raw
    output, read as raw input, are taken, and the bytes passed to the
    decoder are the [msg_bits / 8] bytes of the message (followed by what
    the array [bin_msg] held before); the hex letters may be of either
    case. *)
Theorem raw_round_trip (upper : bool) (mm : modeS_message) (stack rest : list Z) :
  length stack = 14%nat → is_bytes (msg mm) →
  (msg_bits mm = 56 ∨ msg_bits mm = 112)%nat →
  (msg_bits mm / 8 <= length (msg mm))%nat →
  decode_hex_message stack (modeS_send_raw_output upper mm ++ rest)
  = (Good (take (msg_bits mm / 8) (msg mm) ++ drop (msg_bits mm / 8) stack), rest).
Proof.
  intros Hstack Hb Hbits Hlen.
  set (bytes := take (msg_bits mm / 8) (msg mm)).
  assert (Hn : length bytes = (msg_bits mm / 8)%nat).
  { subst bytes. rewrite length_take. lia. }
  destruct (mg_hex_digits upper bytes) as (Hd & Hl & Hv).
  { subst bytes. by apply Forall_take. }
  assert (H7 : (msg_bits mm / 8 = 7 ∨ msg_bits mm / 8 = 14)%nat).
  { destruct Hbits as [-> | ->]; [by left | by right]. }
  assert (Hwf : well_formed (mg_hex upper bytes) []).
  { split; [exact Hd|]. split; [by exists (length bytes)|].
    split; [lia|]. split; [constructor|]. split; [discriminate|].
    rewrite app_nil_r. intros Heq. apply (f_equal length) in Heq.
    rewrite Hl, Hn in Heq. cbn [length] in Heq. lia. }
  unfold modeS_send_raw_output. fold bytes.
  replace (([42] ++ mg_hex upper bytes ++ [59; 10]) ++ rest)
    with ([42] ++ mg_hex upper bytes ++ [59] ++ [] ++ [10] ++ rest)
    by (cbn [app]; by rewrite <- app_assoc).
  rewrite (record_accepted stack _ [] rest Hstack Hwf).
  rewrite Hv, Hl, Hn.
  replace (2 * (msg_bits mm / 8) / 2)%nat with (msg_bits mm / 8)%nat; [done|].
  rewrite Nat.mul_comm, Nat.div_mul; lia.
Qed.

Lemma raw_round_trip_witness :
  let mm := (decode_modeS_message 1024 60 false (replicate 2048 0) 1000 df17_ident).1 in
  decode_hex_message (replicate 14 0) (modeS_send_raw_output true mm ++ [])
  = (Good (take (msg_bits mm / 8) (msg mm) ++ drop (msg_bits mm / 8) (replicate 14 0)),
     []).
Proof.
  intros mm.
  apply (raw_round_trip true mm (replicate 14 0) []).
  - reflexivity.
  - replace (msg mm) with df17_ident by (vm_compute; reflexivity).
    repeat (constructor; [lia|]). constructor.
  - right. vm_compute. reflexivity.
  - vm_compute. lia.
Defined.

End RawInput.

(** * The zones of the CPR decoder ([misc.c]) *)

Module Zones.
Import Tracker.

Lemma NL_lookup_range (table : list (float * Z)) (lat : float) :
  Forall (λ row, 1 <= row.2 <= 59) table → 1 <= NL_lookup table lat <= 59.
Proof.
  induction 1 as [|[bound n] table Hn Htable IH]; cbn [NL_lookup]; [lia|].
  destruct (PrimFloat.ltb lat bound); [exact Hn | exact IH].
Qed.

Lemma NL_table_range : Forall (λ row : float * Z, 1 <= row.2 <= 59) NL_table.
Proof. unfold NL_table. repeat (constructor; [cbn; lia|]). constructor. Qed.

(** X18.  [CPR_mod_func] is the modulo that is never negative: for a
    positive [b] it gives [a mod b], in [0 .. b-1], also for a negative
    [a], where C's [%] gives a negative remainder. *)
Theorem CPR_mod_func_modulo (a b : Z) :
  0 < b → CPR_mod_func a b = a mod b ∧ 0 <= CPR_mod_func a b < b.
Proof.
  intros Hb.
  assert (H : CPR_mod_func a b = a mod b).
  { unfold CPR_mod_func. cbv zeta.
    pose proof (Z.rem_bound_abs a b ltac:(lia)) as Habs.
    pose proof (Z.quot_rem' a b) as Hqr.
    pose proof (Z.mod_pos_bound a b Hb) as Hm.
    pose proof (Z.div_mod a b ltac:(lia)) as Hdm.
    destruct (Z.ltb_spec (Z.rem a b) 0) as [Hneg|Hpos].
    - apply (Z.mod_unique a b (Z.quot a b - 1)); lia.
    - apply (Z.mod_unique a b (Z.quot a b)); lia. }
  split; [exact H|]. rewrite H. apply Z.mod_pos_bound. exact Hb.
Qed.

Lemma CPR_mod_func_modulo_witness :
  CPR_mod_func (-7) 60 = (-7) mod 60 ∧ 0 <= CPR_mod_func (-7) 60 < 60.
Proof. apply (CPR_mod_func_modulo (-7) 60). lia. Defined.

(** X19.  The number of longitude zones.  For every latitude, also one
    that is no number, [CPR_NL_func] gives a value from 1 to 59, and
    [CPR_N_func] gives at least 1 (and at most [59 - is_odd], or 1), so
    that [CPR_Dlong_func] does not divide by zero and the last argument
    of [CPR_mod_func] in [decode_CPR] is positive. *)
Theorem CPR_zone_numbers (lat : float) (is_odd : Z) :
  1 <= CPR_NL_func lat <= 59
  ∧ 1 <= CPR_N_func lat is_odd <= Z.max 1 (59 - is_odd).
Proof.
  assert (H : 1 <= CPR_NL_func lat <= 59).
  { unfold CPR_NL_func. apply NL_lookup_range, NL_table_range. }
  split; [exact H|]. unfold CPR_N_func. cbv zeta.
  destruct (Z.ltb_spec (CPR_NL_func lat - is_odd) 1); lia.
Qed.

End Zones.

(** * Helpers of the command line and of file names ([misc.c]) *)

Module Misc.

(** The least and the greatest [int]. *)
Definition INT_MIN : Z := -2147483648.
Definition INT_MAX : Z := 2147483647.

(** C's [a % b] on [int].  It is undefined for [b = 0] and for
    [INT_MIN % -1], whose quotient is no [int]; the program traps there.
    Elsewhere it is the remainder of the truncating division. *)
Definition c_rem (a b : Z) : option Z :=
  if (b =? 0) || ((a =? INT_MIN) && (b =? -1)) then None else Some (Z.rem a b).

(** What a call of [gcd] comes to: it returns, it traps in a [%], or the
    turns granted do not suffice. *)
Inductive run := Returns (v : Z) | Traps | Unfinished.

(** The loop of [gcd]: [b] and [c] at its test, [fuel] turns at most. *)
Fixpoint gcd_loop (fuel : nat) (b c : Z) : run :=
  match fuel with
  | O => if negb (c =? 0) then Unfinished else Returns b
  | S fuel' =>
      if negb (c =? 0) then
        match c_rem b c with
        | Some c' => gcd_loop fuel' c c'
        | None => Traps
        end
      else Returns b
  end.

(** [gcd (a, b)].  The absolute value of [c] decreases with every turn, so
    [|b|] turns are granted. *)
Definition gcd (a b : Z) : run :=
  match c_rem a b with
  | Some c => gcd_loop (Z.to_nat (Z.abs b)) b c
  | None => Traps
  end.

(** The loop of [str_endswith], which walks both strings from their last
    characters down: [r1] and [r2] hold the characters from [s1_end] and
    from [s2_end] down to the first. *)
Fixpoint ends_loop (r1 r2 : list Z) {struct r2} : bool :=
  match r2 with
  | [] => true
  | c2 :: r2' =>
      match r1 with
      | c1 :: r1' => if negb (c1 =? c2) then false else ends_loop r1' r2'
      | [] => false
      end
  end.

(** [str_endswith (s1, s2)] on the characters of the two strings. *)
Definition str_endswith (s1 s2 : list Z) : bool :=
  if (length s1 <? length s2)%nat then false else ends_loop (rev s1) (rev s2).

(** ** The greatest common divisor *)

Lemma c_rem_defined (a b : Z) :
  b ≠ 0 → ¬ (a = INT_MIN ∧ b = -1) → c_rem a b = Some (Z.rem a b).
Proof.
  intros Hb Hab. unfold c_rem.
  destruct (Z.eqb_spec b 0) as [|_]; [done|]. cbn [orb].
  destruct (Z.eqb_spec a INT_MIN) as [Ha|_]; [|done].
  destruct (Z.eqb_spec b (-1)) as [Hb'|_]; [|done].
  exfalso. by apply Hab.
Qed.

(** The remainder of an [int] other than [INT_MIN] by [INT_MIN] is the
    number itself. *)
Lemma rem_INT_MIN (a : Z) : INT_MIN < a <= INT_MAX → Z.rem a INT_MIN = a.
Proof.
  unfold INT_MIN, INT_MAX. intros Ha.
  change (-2147483648) with (Z.opp 2147483648). rewrite Z.rem_opp_r by lia.
  destruct (Z.le_gt_cases 0 a) as [Hpos|Hneg].
  - apply Z.rem_small. lia.
  - rewrite <- (Z.opp_involutive a) at 1. rewrite Z.rem_opp_l by lia.
    rewrite Z.rem_small by lia. lia.
Qed.

Lemma gcd_loop_spec (fuel : nat) (b c : Z) :
  INT_MIN <= b <= INT_MAX → b ≠ 0 → Z.abs c < Z.abs b → Z.abs c <= Z.of_nat fuel →
  ¬ (b = INT_MIN ∧ c = -1) →
  ∃ g, gcd_loop fuel b c = Returns g
       ∧ Z.abs g = Z.gcd b c
       ∧ INT_MIN <= g <= INT_MAX
       ∧ (0 < b → 0 <= c → 0 < g).
Proof.
  revert b c. induction fuel as [|fuel IH]; intros b c Hint Hb Hlt Hfuel Hno.
  - assert (c = 0) as -> by lia. cbn. exists b. rewrite Z.gcd_0_r.
    split; [done|]. split; [done|]. split; [done | lia].
  - cbn [gcd_loop]. destruct (Z.eqb_spec c 0) as [->|Hc]; cbn [negb].
    + exists b. rewrite Z.gcd_0_r. split; [done|]. split; [done|]. split; [done | lia].
    + rewrite c_rem_defined by done.
      pose proof (Z.rem_bound_abs b c Hc) as Hrem.
      assert (Hcint : INT_MIN < c <= INT_MAX) by (unfold INT_MIN, INT_MAX in *; lia).
      destruct (IH c (Z.rem b c) ltac:(lia) Hc Hrem ltac:(lia) ltac:(lia))
        as (g & Hrun & Habs & Hg & Hpos).
      exists g. split; [exact Hrun|]. split.
      * rewrite Habs, (Z.gcd_comm c), Z.gcd_rem by done. apply Z.gcd_comm.
      * split; [exact Hg|]. intros Hb0 Hc0. apply Hpos; [lia|].
        apply Z.rem_nonneg; lia.
Qed.

Lemma gcd_returns (a b : Z) :
  INT_MIN <= a <= INT_MAX → INT_MIN <= b <= INT_MAX →
  b ≠ 0 → ¬ (a = INT_MIN ∧ b = -1) → ¬ (a = -1 ∧ b = INT_MIN) →
  ∃ g, gcd a b = Returns g
       ∧ Z.abs g = Z.gcd a b
       ∧ INT_MIN <= g <= INT_MAX
       ∧ (0 <= a → 0 < b → g = Z.gcd a b).
Proof.
  intros Ha Hbi Hb H1 H2. unfold gcd. rewrite c_rem_defined by done.
  pose proof (Z.rem_bound_abs a b Hb) as Hrem.
  assert (Hno : ¬ (b = INT_MIN ∧ Z.rem a b = -1)).
  { intros [-> Hr]. destruct (Z.eq_dec a INT_MIN) as [->|Hne].
    - by rewrite Z.rem_same in Hr.
    - rewrite rem_INT_MIN in Hr by lia. by apply H2. }
  destruct (gcd_loop_spec (Z.to_nat (Z.abs b)) b (Z.rem a b) Hbi Hb Hrem ltac:(lia) Hno)
    as (g & Hrun & Habs & Hg & Hpos).
  assert (Hgcd : Z.gcd b (Z.rem a b) = Z.gcd a b).
  { rewrite (Z.gcd_comm b), Z.gcd_rem by done. apply Z.gcd_comm. }
  rewrite Hgcd in Habs.
  exists g. split; [exact Hrun|]. split; [exact Habs|]. split; [exact Hg|].
  intros Ha0 Hb0. rewrite <- Habs. symmetry. apply Z.abs_eq.
  apply Z.lt_le_incl, Hpos; [done|]. apply Z.rem_nonneg; lia.
Qed.

Lemma gcd_traps (a b : Z) :
  b = 0 ∨ (a = INT_MIN ∧ b = -1) ∨ (a = -1 ∧ b = INT_MIN) → gcd a b = Traps.
Proof.
  intros [-> | [[-> ->] | [-> ->]]].
  - unfold gcd, c_rem. by rewrite Z.eqb_refl.
  - reflexivity.
  - unfold gcd.
    assert (Hc : c_rem (-1) INT_MIN = Some (-1)) by reflexivity.
    rewrite Hc.
    assert (Hfuel : ∃ n, Z.to_nat (Z.abs INT_MIN) = S n).
    { exists (Z.to_nat INT_MAX). unfold INT_MIN, INT_MAX. lia. }
    destruct Hfuel as [n ->]. reflexivity.
Qed.

(** X20.  [gcd] on [int] arguments.  The call traps, in a [%] that C
    leaves undefined, exactly for [b = 0], for [(INT_MIN, -1)] and for
    [(-1, INT_MIN)].  For every other pair the loop ends and returns an
    [int] whose absolute value is the greatest common divisor of [a] and
    [b]; for the block lengths [permute_args] calls it with ([a] not
    negative, [b] positive) it returns that divisor itself. *)
Theorem gcd_correct (a b : Z) :
  INT_MIN <= a <= INT_MAX → INT_MIN <= b <= INT_MAX →
  if (b =? 0) || ((a =? INT_MIN) && (b =? -1)) || ((a =? -1) && (b =? INT_MIN))
  then gcd a b = Traps
  else ∃ g, gcd a b = Returns g
            ∧ Z.abs g = Z.gcd a b
            ∧ INT_MIN <= g <= INT_MAX
            ∧ (0 <= a → 0 < b → g = Z.gcd a b).
Proof.
  intros Ha Hb.
  destruct (Z.eqb_spec b 0) as [H0|H0]; cbn [orb].
  { apply gcd_traps. by left. }
  destruct (Z.eqb_spec a INT_MIN) as [H1|H1], (Z.eqb_spec b (-1)) as [H2|H2];
    cbn [andb orb]; try (apply gcd_traps; right; left; done).
  all: destruct (Z.eqb_spec a (-1)) as [H3|H3], (Z.eqb_spec b INT_MIN) as [H4|H4];
    cbn [andb]; try (apply gcd_traps; right; right; done).
  all: apply gcd_returns; try done; intros [? ?]; done.
Qed.

Lemma gcd_correct_witness :
  if (18 =? 0) || ((12 =? INT_MIN) && (18 =? -1)) || ((12 =? -1) && (18 =? INT_MIN))
  then gcd 12 18 = Traps
  else ∃ g, gcd 12 18 = Returns g
            ∧ Z.abs g = Z.gcd 12 18
            ∧ INT_MIN <= g <= INT_MAX
            ∧ (0 <= 12 → 0 < 18 → g = Z.gcd 12 18).
Proof. apply (gcd_correct 12 18); unfold INT_MIN, INT_MAX; lia. Defined.

(** ** The end of a string *)

Lemma ends_loop_prefix (r1 r2 : list Z) : ends_loop r1 r2 = true ↔ r2 `prefix_of` r1.
Proof.
  revert r1. induction r2 as [|c2 r2 IH]; intros r1; cbn [ends_loop].
  - split; [intros _; apply prefix_nil | done].
  - destruct r1 as [|c1 r1].
    + split; [done|]. intros H. by apply prefix_nil_inv in H.
    + destruct (Z.eqb_spec c1 c2) as [->|Hne]; cbn [negb].
      * rewrite IH. split; [apply prefix_cons | apply prefix_cons_inv_2].
      * split; [done|]. intros H. by apply prefix_cons_inv_1 in H.
Qed.

(** X21.  [str_endswith (s1, s2)] is true exactly when [s2] is the end of
    [s1]. *)
Theorem str_endswith_suffix (s1 s2 : list Z) :
  str_endswith s1 s2 = true ↔ s2 `suffix_of` s1.
Proof.
  unfold str_endswith. destruct (Nat.ltb_spec (length s1) (length s2)) as [Hlt|Hge].
  - split; [done|]. intros H%suffix_length. lia.
  - rewrite ends_loop_prefix, !rev_alt. symmetry. apply suffix_prefix_reverse.
Qed.

End Misc.

(** * Stripping quiet samples ([dump1090.c]) *)

Module StripMode.
Import Demod.

(** [abs (I-127) < level && abs (Q-127) < level]. *)
Definition quiet (level : Z) (i q : Z) : bool :=
  (Z.abs (i - 127) <? level) && (Z.abs (q - 127) <? level).

(** The loop of [strip_mode]: [input] is what [getchar] reads from the
    standard input up to the end of file, [c] is the [uint64_t] count of
    quiet pairs in a row; the result is what [putchar] writes. *)
Fixpoint strip_loop (level : Z) (c : Z) (input : list Z) : list Z :=
  match input with
  | i :: q :: rest =>
      if quiet level i q then
        let c := (c + 1) mod 2 ^ 64 in
        if c >? 4 * Z.of_nat MODES_PREAMBLE_US then strip_loop level c rest
        else i :: q :: strip_loop level c rest
      else i :: q :: strip_loop level 0 rest
  | _ => []
  end.

(** [strip_mode (level)]. *)
Definition strip_mode (level : Z) (input : list Z) : list Z := strip_loop level 0 input.

(** The pairs of I and Q a stream of bytes holds. *)
Fixpoint pairs (l : list Z) : list (Z * Z) :=
  match l with
  | i :: q :: rest => (i, q) :: pairs rest
  | _ => []
  end.

Lemma pair_induction (P : list Z → Prop) :
  P [] → (∀ i, P [i]) → (∀ i q rest, P rest → P (i :: q :: rest)) → ∀ l, P l.
Proof.
  intros H0 H1 H2.
  assert (H : ∀ l, P l ∧ ∀ i, P (i :: l)).
  { induction l as [|q l [IHl IHc]]; [by split|].
    split; [apply IHc|]. intros i. by apply H2. }
  intros l. apply H.
Qed.

Lemma strip_loop_keeps (level c : Z) (input : list Z) :
  strip_loop level c input `sublist_of` input
  ∧ List.filter (λ p, negb (quiet level p.1 p.2)) (pairs (strip_loop level c input))
    = List.filter (λ p, negb (quiet level p.1 p.2)) (pairs input).
Proof.
  revert c. induction input as [|i|i q rest IH] using pair_induction; intros c.
  - split; [constructor | done].
  - split; [apply sublist_nil_l | done].
  - cbn [strip_loop]. destruct (quiet level i q) eqn:Hq.
    + cbv zeta. destruct (_ >? _).
      * destruct (IH ((c + 1) mod 2 ^ 64)) as [Hs Hf]. split.
        -- by do 2 apply sublist_cons.
        -- cbn [pairs List.filter fst snd]. by rewrite Hq.
      * destruct (IH ((c + 1) mod 2 ^ 64)) as [Hs Hf]. split.
        -- by do 2 apply sublist_skip.
        -- cbn [pairs List.filter fst snd]. by rewrite Hq.
    + destruct (IH 0) as [Hs Hf]. split.
      * by do 2 apply sublist_skip.
      * cbn [pairs List.filter fst snd]. rewrite Hq. cbn [negb]. by rewrite Hf.
Qed.

(** X22.  [strip_mode] only removes quiet samples.  What it writes is
    what it read with some pairs of bytes left out, in the same order, and
    no pair it leaves out has [|I - 127|] or [|Q - 127|] at or above the
    level: the pairs that are not quiet are all written. *)
Theorem strip_mode_keeps_signal (level : Z) (input : list Z) :
  strip_mode level input `sublist_of` input
  ∧ List.filter (λ p, negb (quiet level p.1 p.2)) (pairs (strip_mode level input))
    = List.filter (λ p, negb (quiet level p.1 p.2)) (pairs input).
Proof. apply strip_loop_keeps. Qed.

End StripMode.

(** * The ranges of the decoded fields ([dump1090.c]) *)

Module Fields.
Import Checksum ICAO Decoder Repair.

(** ** Masks and shifts *)

Lemma land_bit (x k : Z) :
  0 <= k → Z.land x (2 ^ k) = 0 ∨ Z.land x (2 ^ k) = 2 ^ k.
Proof.
  intros Hk. destruct (Z.testbit x k) eqn:Hb; [right | left].
  - apply Z.bits_inj'. intros n Hn.
    rewrite Z.land_spec, Z.pow2_bits_eqb by lia.
    destruct (Z.eqb_spec k n) as [<-|]; [by rewrite Hb | apply andb_false_r].
  - apply Z.bits_inj'. intros n Hn.
    rewrite Z.land_spec, Z.bits_0, Z.pow2_bits_eqb by lia.
    destruct (Z.eqb_spec k n) as [<-|]; [by rewrite Hb | apply andb_false_r].
Qed.

Lemma land_low (x n : Z) : 0 <= n → 0 <= Z.land x (Z.ones n) < 2 ^ n.
Proof. intros Hn. rewrite Z.land_ones by done. apply Z.mod_pos_bound. lia. Qed.

Lemma lor_range (a b n : Z) :
  0 <= n → 0 <= a < 2 ^ n → 0 <= b < 2 ^ n → 0 <= Z.lor a b < 2 ^ n.
Proof.
  intros Hn Ha Hb.
  assert (H0 : 0 <= Z.lor a b) by (apply Z.lor_nonneg; lia).
  split; [done|].
  destruct (Z.eq_dec (Z.lor a b) 0) as [->|Hnz]; [lia|].
  assert (Hpos : 0 < n).
  { destruct (Z.eq_dec n 0) as [->|]; [|lia]. exfalso. apply Hnz.
    replace a with 0 by (simpl in Ha; lia). replace b with 0 by (simpl in Hb; lia).
    reflexivity. }
  apply Z.log2_lt_pow2; [lia|].
  rewrite Z.log2_lor by lia.
  apply Z.max_lub_lt.
  - destruct (Z.eq_dec a 0) as [->|]; [simpl; lia|]. apply Z.log2_lt_pow2; lia.
  - destruct (Z.eq_dec b 0) as [->|]; [simpl; lia|]. apply Z.log2_lt_pow2; lia.
Qed.

(** Three bits gathered into an octal digit. *)
Lemma octal_digit (x y z : Z) :
  x = 0 ∨ x = 4 → y = 0 ∨ y = 2 → z = 0 ∨ z = 1 → 0 <= Z.lor (Z.lor x y) z <= 7.
Proof. intros [-> | ->] [-> | ->] [-> | ->]; split; by vm_compute. Qed.

Lemma bit_moved (x k : Z) (f : Z → Z) (v : Z) :
  0 <= k → f 0 = 0 → f (2 ^ k) = v →
  f (Z.land x (2 ^ k)) = 0 ∨ f (Z.land x (2 ^ k)) = v.
Proof.
  intros Hk H0 Hv. destruct (land_bit x k Hk) as [-> | ->]; [by left | by right].
Qed.

(** ** The squawk *)

Lemma identity_digits (msg : list Z) :
  ∃ a b c d, decode_identity msg = a * 1000 + b * 100 + c * 10 + d
             ∧ 0 <= a <= 7 ∧ 0 <= b <= 7 ∧ 0 <= c <= 7 ∧ 0 <= d <= 7.
Proof.
  unfold decode_identity. cbv zeta.
  eexists _, _, _, _. split; [reflexivity|].
  split; [|split; [|split]].
  - apply octal_digit.
    + apply (bit_moved (at_ msg 3) 7 (λ v, Z.shiftr v 5)); [lia | done | done].
    + apply (bit_moved (at_ msg 2) 1 (λ v, Z.shiftr v 0)); [lia | done | done].
    + apply (bit_moved (at_ msg 2) 3 (λ v, Z.shiftr v 3)); [lia | done | done].
  - apply octal_digit.
    + apply (bit_moved (at_ msg 3) 1 (λ v, Z.shiftl v 1)); [lia | done | done].
    + apply (bit_moved (at_ msg 3) 3 (λ v, Z.shiftr v 2)); [lia | done | done].
    + apply (bit_moved (at_ msg 3) 5 (λ v, Z.shiftr v 5)); [lia | done | done].
  - apply octal_digit.
    + apply (bit_moved (at_ msg 2) 0 (λ v, Z.shiftl v 2)); [lia | done | done].
    + apply (bit_moved (at_ msg 2) 2 (λ v, Z.shiftr v 1)); [lia | done | done].
    + apply (bit_moved (at_ msg 2) 4 (λ v, Z.shiftr v 4)); [lia | done | done].
  - apply octal_digit.
    + apply (bit_moved (at_ msg 3) 0 (λ v, Z.shiftl v 2)); [lia | done | done].
    + apply (bit_moved (at_ msg 3) 2 (λ v, Z.shiftr v 1)); [lia | done | done].
    + apply (bit_moved (at_ msg 3) 4 (λ v, Z.shiftr v 4)); [lia | done | done].
Qed.

Lemma identity_range (msg : list Z) : 0 <= decode_identity msg <= 7777.
Proof.
  destruct (identity_digits msg) as (a & b & c & d & -> & Ha & Hb & Hc & Hd). lia.
Qed.

(** ** The altitude *)

Lemma altitude_of (n : Z) :
  0 <= n < 2 ^ 11 →
  let ret := 25 * n - 1000 in
  0 <= (if ret <? 0 then 0 else ret) <= 50175
  ∧ (if ret <? 0 then 0 else ret) mod 25 = 0.
Proof.
  intros Hn ret. subst ret. change (2 ^ 11) with 2048 in Hn.
  destruct (Z.ltb_spec (25 * n - 1000) 0); [done|].
  split; [lia|]. replace (25 * n - 1000) with ((n - 40) * 25) by lia.
  apply Z.mod_mul. lia.
Qed.

Lemma AC13_range (msg : list Z) :
  0 <= (decode_AC13_field msg).1 <= 50175 ∧ (decode_AC13_field msg).1 mod 25 = 0.
Proof.
  unfold decode_AC13_field. cbv zeta.
  destruct (_ =? 0); [|done]. destruct (negb _); [|done].
  cbn [fst]. apply altitude_of.
  assert (H2 : 0 <= Z.land (at_ msg 2) 31 < 32) by apply (land_low _ 5 ltac:(lia)).
  assert (H3 : 0 <= Z.land (at_ msg 3) 15 < 16) by apply (land_low _ 4 ltac:(lia)).
  repeat apply lor_range; try lia.
  - rewrite Z.shiftl_mul_pow2 by lia. change (2 ^ 6) with 64. change (2 ^ 11) with 2048. lia.
  - destruct (bit_moved (at_ msg 3) 7 (λ v, Z.shiftr v 2) 32 ltac:(lia) eq_refl eq_refl)
      as [H | H]; cbv beta in H; change (2 ^ 7) with 128 in H; rewrite H; done.
  - destruct (bit_moved (at_ msg 3) 5 (λ v, Z.shiftr v 1) 16 ltac:(lia) eq_refl eq_refl)
      as [H | H]; cbv beta in H; change (2 ^ 5) with 32 in H; rewrite H; done.
Qed.

Lemma AC12_range (msg : list Z) :
  0 <= at_ msg 5 < 256 →
  0 <= (decode_AC12_field msg).1 <= 50175 ∧ (decode_AC12_field msg).1 mod 25 = 0.
Proof.
  intros H5. unfold decode_AC12_field. cbv zeta.
  destruct (negb _); [|done]. cbn [fst]. apply altitude_of.
  apply lor_range; [lia | |].
  - rewrite Z.shiftl_mul_pow2, Z.shiftr_div_pow2 by lia.
    change (2 ^ 1) with 2. change (2 ^ 4) with 16. change (2 ^ 11) with 2048.
    pose proof (Z.div_pos (at_ msg 5) 2 ltac:(lia) ltac:(lia)).
    pose proof (Z.div_lt_upper_bound (at_ msg 5) 2 128 ltac:(lia) ltac:(lia)). lia.
  - assert (H : Z.shiftr (Z.land (at_ msg 6) 240) 4 = Z.land (Z.shiftr (at_ msg 6) 4) 15).
    { by rewrite Z.shiftr_land. }
    rewrite H. pose proof (land_low (Z.shiftr (at_ msg 6) 4) 4 ltac:(lia)) as Hl.
    change (Z.ones 4) with 15 in Hl. change (2 ^ 4) with 16 in Hl.
    change (2 ^ 11) with 2048. lia.
Qed.

Lemma altitude_stage_range (msg : list Z) (msg_type ME_type : Z) :
  0 <= at_ msg 5 < 256 →
  0 <= (altitude_stage msg msg_type ME_type).1 <= 50175
  ∧ (altitude_stage msg msg_type ME_type).1 mod 25 = 0.
Proof.
  intros H5. unfold altitude_stage. cbv zeta.
  destruct (_ && _); cbn [fst].
  - by apply AC12_range.
  - destruct (_ || _); cbn [fst]; [apply AC13_range | done].
Qed.

(** X23.  The altitude fields.  On a message of bytes [decode_AC13_field]
    and [decode_AC12_field] return an altitude from 0 to 50175 that is a
    multiple of 25: the 11-bit number [n] gives [25 * n - 1000], and what
    would be below zero is returned as 0. *)
Theorem altitude_fields_range (msg : list Z) :
  is_bytes msg →
  (0 <= (decode_AC13_field msg).1 <= 50175 ∧ (decode_AC13_field msg).1 mod 25 = 0)
  ∧ (0 <= (decode_AC12_field msg).1 <= 50175 ∧ (decode_AC12_field msg).1 mod 25 = 0).
Proof.
  intros Hb. split; [apply AC13_range | apply AC12_range, at_bytes, Hb].
Qed.

Lemma altitude_fields_range_witness :
  (0 <= (decode_AC13_field df17_ident).1 <= 50175
   ∧ (decode_AC13_field df17_ident).1 mod 25 = 0)
  ∧ (0 <= (decode_AC12_field df17_ident).1 <= 50175
     ∧ (decode_AC12_field df17_ident).1 mod 25 = 0).
Proof.
  apply (altitude_fields_range df17_ident).
  unfold df17_ident. repeat (constructor; [lia|]). constructor.
Defined.

(** X24.  The squawk is four octal digits.  Whatever the message, the
    identity [decode_modeS_message] computes is [a*1000 + b*100 + c*10 + d]
    with each of the four at most 7: a number from 0 to 7777 none of whose
    decimal digits is 8 or 9. *)
Theorem identity_octal_digits (msg : list Z) :
  let id := decode_identity msg in
  0 <= id <= 7777
  ∧ id / 1000 <= 7 ∧ (id / 100) mod 10 <= 7 ∧ (id / 10) mod 10 <= 7 ∧ id mod 10 <= 7.
Proof.
  intros id. subst id.
  destruct (identity_digits msg) as (a & b & c & d & -> & Ha & Hb & Hc & Hd).
  split; [lia|].
  assert (H1 : (a * 1000 + b * 100 + c * 10 + d) / 1000 = a).
  { symmetry. apply (Z.div_unique _ 1000 a (b * 100 + c * 10 + d)); lia. }
  assert (H2 : (a * 1000 + b * 100 + c * 10 + d) / 100 = a * 10 + b).
  { symmetry. apply (Z.div_unique _ 100 (a * 10 + b) (c * 10 + d)); lia. }
  assert (H3 : (a * 1000 + b * 100 + c * 10 + d) / 10 = a * 100 + b * 10 + c).
  { symmetry. apply (Z.div_unique _ 10 (a * 100 + b * 10 + c) d); lia. }
  assert (H4 : (a * 1000 + b * 100 + c * 10 + d) mod 10 = d).
  { symmetry. apply (Z.mod_unique _ 10 (a * 100 + b * 10 + c) d); lia. }
  assert (H5 : (a * 10 + b) mod 10 = b).
  { symmetry. apply (Z.mod_unique _ 10 a b); lia. }
  assert (H6 : (a * 100 + b * 10 + c) mod 10 = c).
  { symmetry. apply (Z.mod_unique _ 10 (a * 10 + b) c); lia. }
  rewrite H1, H2, H3, H4, H5, H6. lia.
Qed.

(** ** The message after the CRC stage *)

Lemma is_bytes_patch (msg aux : list Z) (n : nat) :
  is_bytes msg → is_bytes aux → length aux = length (take n msg) →
  is_bytes (aux ++ drop n msg) ∧ length (aux ++ drop n msg) = length msg.
Proof.
  intros Hm Ha Hl. split.
  - apply Forall_app. split; [done | by apply Forall_drop].
  - rewrite length_app, Hl, <- length_app, take_drop. reflexivity.
Qed.

Lemma fix_single_bytes (msg : list Z) (bits : nat) :
  is_bytes msg →
  is_bytes (fix_single_bit_errors msg bits).2
  ∧ length (fix_single_bit_errors msg bits).2 = length msg.
Proof.
  intros Hm. unfold fix_single_bit_errors.
  destruct (fix_single_loop_result msg bits bits 0) as [-> | (k & _ & _ & ->)];
    cbn [snd]; [done|].
  apply is_bytes_patch; [done | | apply length_flip_bit].
  apply is_bytes_flip. by apply Forall_take.
Qed.

Lemma fix_two_bytes (msg : list Z) (bits : nat) :
  is_bytes msg →
  is_bytes (fix_two_bits_errors msg bits).2
  ∧ length (fix_two_bits_errors msg bits).2 = length msg.
Proof.
  intros Hm. unfold fix_two_bits_errors.
  destruct (fix_two_outer_result msg bits bits 0) as [-> | (a & b & _ & _ & _ & ->)];
    cbn [snd]; [done|].
  apply is_bytes_patch; [done | | by rewrite !length_flip_bit].
  do 2 apply is_bytes_flip. by apply Forall_take.
Qed.

Lemma check_and_fix_bytes (aggressive : bool) (msg0 : list Z) (ty : Z) (bits : nat) :
  is_bytes msg0 →
  is_bytes (check_and_fix aggressive msg0 ty bits).1.1.2
  ∧ length (check_and_fix aggressive msg0 ty bits).1.1.2 = length msg0.
Proof.
  intros Hm. unfold check_and_fix. cbv zeta.
  destruct (_ && _); [|done].
  pose proof (fix_single_bytes msg0 bits Hm) as [H1 L1].
  destruct (fix_single_bit_errors msg0 bits) as [e1 m1]. cbn [snd] in H1, L1.
  destruct (negb (e1 =? -1)); [done|].
  destruct (_ && _); [|done].
  pose proof (fix_two_bytes m1 bits H1) as [H2 L2].
  destruct (fix_two_bits_errors m1 bits) as [e2 m2]. cbn [snd] in H2, L2.
  destruct (negb (e2 =? -1)); cbn [fst snd]; (split; [done | congruence]).
Qed.

(** X25.  What the decoder makes of any bytes.  For every buffer of bytes,
    whatever the cache and the mode: the message kept in [mm->msg] is again
    made of bytes and has the length of what was copied (14 bytes at
    most), the length is 56 or 112 bits, the type is below 32, the altitude
    is a multiple of 25 from 0 to 50175, the squawk is at most 7777, and
    the raw latitude and longitude are 17-bit numbers. *)
Theorem decoded_fields_in_range (LEN TTL : Z) (aggressive : bool) (cache : list Z)
    (now : Z) (raw : list Z) :
  is_bytes raw →
  let mm := (decode_modeS_message LEN TTL aggressive cache now raw).1 in
  is_bytes (msg mm) ∧ length (msg mm) = (length raw `min` 14)%nat
  ∧ (msg_bits mm = 56 ∨ msg_bits mm = 112)%nat
  ∧ 0 <= msg_type mm < 32
  ∧ (0 <= altitude mm <= 50175 ∧ altitude mm mod 25 = 0)
  ∧ 0 <= identity mm <= 7777
  ∧ 0 <= raw_latitude mm < 2 ^ 17
  ∧ 0 <= raw_longitude mm < 2 ^ 17.
Proof.
  intros Hraw mm. subst mm. unfold decode_modeS_message. cbv zeta.
  cbn [fst msg msg_bits msg_type altitude identity raw_latitude raw_longitude].
  set (msg0 := take MODES_LONG_MSG_BYTES raw).
  assert (H0 : is_bytes msg0) by by apply Forall_take.
  set (ty := Z.shiftr (at_ msg0 0) 3).
  set (bits := modeS_message_len_by_type ty).
  destruct (check_and_fix_bytes aggressive msg0 ty bits H0) as [Hb Hl].
  set (m := (check_and_fix aggressive msg0 ty bits).1.1.2) in *.
  split; [exact Hb|].
  split; [rewrite Hl; unfold msg0, MODES_LONG_MSG_BYTES; rewrite length_take; lia|].
  split.
  { unfold bits, modeS_message_len_by_type. destruct (_ || _); [by right | by left]. }
  split.
  { unfold ty. pose proof (at_bytes msg0 0 H0) as Hr.
    rewrite Z.shiftr_div_pow2 by lia. change (2 ^ 3) with 8.
    pose proof (Z.div_pos (at_ msg0 0) 8 ltac:(lia) ltac:(lia)).
    pose proof (Z.div_lt_upper_bound (at_ msg0 0) 8 32 ltac:(lia) ltac:(lia)). lia. }
  split; [apply altitude_stage_range, at_bytes, Hb|].
  split; [apply identity_range|].
  pose proof (at_bytes m 7 Hb) as H7. pose proof (at_bytes m 8 Hb) as H8.
  pose proof (at_bytes m 9 Hb) as H9. pose proof (at_bytes m 10 Hb) as H10.
  split.
  - destruct (_ && _); [|done].
    pose proof (land_low (at_ m 6) 2 ltac:(lia)) as H6.
    change (Z.ones 2) with 3 in H6. change (2 ^ 2) with 4 in H6.
    repeat apply lor_range; try lia;
      rewrite ?Z.shiftl_mul_pow2, ?Z.shiftr_div_pow2 by lia;
      change (2 ^ 17) with 131072; change (2 ^ 15) with 32768;
      change (2 ^ 7) with 128; change (2 ^ 1) with 2; try lia.
    pose proof (Z.div_pos (at_ m 8) 2 ltac:(lia) ltac:(lia)).
    pose proof (Z.div_lt_upper_bound (at_ m 8) 2 128 ltac:(lia) ltac:(lia)). lia.
  - destruct (_ && _); [|done].
    pose proof (land_low (at_ m 8) 1 ltac:(lia)) as H6.
    change (Z.ones 1) with 1 in H6. change (2 ^ 1) with 2 in H6.
    repeat apply lor_range; try lia;
      rewrite ?Z.shiftl_mul_pow2 by lia;
      change (2 ^ 17) with 131072; change (2 ^ 16) with 65536;
      change (2 ^ 8) with 256; lia.
Qed.

Lemma decoded_fields_in_range_witness :
  let mm := (decode_modeS_message 1024 60 false (replicate 2048 0) 1000 df17_ident).1 in
  is_bytes (msg mm) ∧ length (msg mm) = (length df17_ident `min` 14)%nat
  ∧ (msg_bits mm = 56 ∨ msg_bits mm = 112)%nat
  ∧ 0 <= msg_type mm < 32
  ∧ (0 <= altitude mm <= 50175 ∧ altitude mm mod 25 = 0)
  ∧ 0 <= identity mm <= 7777
  ∧ 0 <= raw_latitude mm < 2 ^ 17
  ∧ 0 <= raw_longitude mm < 2 ^ 17.
Proof.
  apply (decoded_fields_in_range 1024 60 false (replicate 2048 0) 1000 df17_ident).
  unfold df17_ident. repeat (constructor; [lia|]). constructor.
Defined.

End Fields.

(** * The table of aircraft ([interactive.c]) *)

Module Table.
Import Checksum ICAO Decoder Tracker.

Lemma receive_update_kept (mm : modeS_message) (now : Z) (a : aircraft) :
  addr (receive_update mm now a) = addr a
  ∧ seen_first (receive_update mm now a) = seen_first a
  ∧ seen_last (receive_update mm now a) = now
  ∧ messages (receive_update mm now a) = u32 (messages a + 1)
  ∧ show (receive_update mm now a) = show a.
Proof.
  unfold receive_update. cbv zeta.
  destruct (_ && _); [|done].
  unfold decode_CPR. by destruct (CPR_position _).
Qed.

Lemma aircraft_find_absent (address : Z) (table : list aircraft) :
  aircraft_find address table = None → address ∉ map addr table.
Proof.
  induction table as [|a rest IH]; intros Hfind; [apply not_elem_of_nil|].
  cbn [aircraft_find] in Hfind. cbn [map].
  destruct (Z.eqb_spec (addr a) address) as [Heq|Hne]; [done|].
  destruct (aircraft_find address rest); [done|].
  apply not_elem_of_cons. split; [done | by apply IH].
Qed.

Lemma aircraft_find_first (address : Z) (table : list aircraft) (i : nat) :
  aircraft_find address table = Some i → (i < length table)%nat.
Proof.
  intros H. destruct (aircraft_find_lookup address table i H) as (a & Ha & _).
  by apply lookup_lt_Some in Ha.
Qed.

Lemma map_addr_insert (table : list aircraft) (k : nat) (a' a : aircraft) :
  table !! k = Some a → addr a' = addr a → map addr (<[k := a']> table) = map addr table.
Proof.
  intros Ha Heq. change (map addr ?l) with (addr <$> l).
  rewrite list_fmap_insert. apply list_insert_id.
  by rewrite list_lookup_fmap, Ha, Heq.
Qed.

Lemma receive_table (mm : modeS_message) (now : Z) (table : list aircraft) :
  CRC_ok mm = true →
  let r := interactive_receive_data mm now table in
  let old := match aircraft_find (address mm) table with
             | Some i => default (new_aircraft (address mm) now) (table !! i)
             | None => new_aircraft (address mm) now
             end in
  r.2 = Some (receive_update mm now old)
  ∧ map addr r.1 = match aircraft_find (address mm) table with
                   | Some _ => map addr table
                   | None => map addr table ++ [address mm]
                   end
  ∧ ∀ i b, table !! i = Some b → addr b ≠ address mm → r.1 !! i = Some b.
Proof.
  intros Hok r old. subst r old. unfold interactive_receive_data.
  rewrite Hok. cbn [negb]. cbv zeta.
  pose proof (aircraft_find_or_create_lookup (address mm) now table) as Hlook.
  cbv zeta in Hlook. unfold aircraft_find_or_create in *.
  destruct (aircraft_find (address mm) table) as [k|] eqn:Hfind; cbn [fst snd] in *.
  - destruct Hlook as (a & Ha & Haddr). rewrite Ha. cbn [fst snd default].
    split; [done|]. split.
    + apply (map_addr_insert _ _ _ a Ha), receive_update_kept.
    + intros i b Hb Hne. rewrite list_lookup_insert_ne; [done|].
      intros <-. rewrite Ha in Hb. injection Hb as <-. done.
  - destruct Hlook as (a & Ha & Haddr). rewrite Ha. cbn [fst snd].
    rewrite lookup_app_r, Nat.sub_diag in Ha by done. injection Ha as <-.
    split; [done|]. split.
    + rewrite (map_addr_insert _ _ _ (new_aircraft (address mm) now)).
      * by rewrite map_app.
      * by rewrite lookup_app_r, Nat.sub_diag.
      * apply receive_update_kept.
    + intros i b Hb Hne. pose proof (lookup_lt_Some _ _ _ Hb) as Hlt.
      rewrite list_lookup_insert_ne by lia.
      by rewrite lookup_app_l.
Qed.

(** X26.  One record per aircraft.  For a message with a good CRC
    [interactive_receive_data] returns the record of the message's address,
    with [seen_last] set to the time given and the message count one
    higher (1 for a record just made).  A table with no address twice has
    no address twice afterwards; its addresses are those it had, with the
    message's address added at the end when it was absent; and the records
    of the other aircraft are what they were. *)
Theorem receive_keeps_one_record (mm : modeS_message) (now : Z) (table : list aircraft) :
  CRC_ok mm = true → NoDup (map addr table) →
  let r := interactive_receive_data mm now table in
  (∃ a old, r.2 = Some a ∧ addr a = address mm ∧ seen_last a = now
            ∧ messages a = u32 (messages old + 1)
            ∧ match aircraft_find (address mm) table with
              | Some i => table !! i = Some old
              | None => messages old = 0
              end)
  ∧ NoDup (map addr r.1)
  ∧ map addr r.1 = match aircraft_find (address mm) table with
                   | Some _ => map addr table
                   | None => map addr table ++ [address mm]
                   end
  ∧ ∀ i b, table !! i = Some b → addr b ≠ address mm → r.1 !! i = Some b.
Proof.
  intros Hok Hnd r. subst r.
  destruct (receive_table mm now table Hok) as (Hret & Hmap & Hother).
  cbv zeta in Hret, Hmap, Hother.
  split; [|split; [|split; [exact Hmap | exact Hother]]].
  - destruct (aircraft_find (address mm) table) as [k|] eqn:Hfind.
    + destruct (aircraft_find_lookup _ _ _ Hfind) as (a & Ha & Haddr).
      rewrite Ha in Hret. cbn [default] in Hret.
      exists (receive_update mm now a), a. split; [done|].
      destruct (receive_update_kept mm now a) as (H1 & _ & H3 & H4 & _).
      by rewrite H1, H3, H4.
    + exists (receive_update mm now (new_aircraft (address mm) now)),
             (new_aircraft (address mm) now). split; [done|].
      destruct (receive_update_kept mm now (new_aircraft (address mm) now))
        as (H1 & _ & H3 & H4 & _).
      by rewrite H1, H3, H4.
  - rewrite Hmap. destruct (aircraft_find (address mm) table) eqn:Hfind; [done|].
    apply NoDup_app. split; [done|]. split; [|apply NoDup_singleton].
    intros x Hx Hx'. apply list_elem_of_singleton in Hx' as ->.
    by apply (aircraft_find_absent _ _ Hfind).
Qed.

Lemma receive_keeps_one_record_witness :
  let mm := decoded even_frame in
  let table := [new_aircraft 1 0; new_aircraft 2 0] in
  let r := interactive_receive_data mm 5 table in
  (∃ a old, r.2 = Some a ∧ addr a = address mm ∧ seen_last a = 5
            ∧ messages a = u32 (messages old + 1)
            ∧ match aircraft_find (address mm) table with
              | Some i => table !! i = Some old
              | None => messages old = 0
              end)
  ∧ NoDup (map addr r.1)
  ∧ map addr r.1 = match aircraft_find (address mm) table with
                   | Some _ => map addr table
                   | None => map addr table ++ [address mm]
                   end
  ∧ ∀ i b, table !! i = Some b → addr b ≠ address mm → r.1 !! i = Some b.
Proof.
  apply (receive_keeps_one_record (decoded even_frame) 5
           [new_aircraft 1 0; new_aircraft 2 0]).
  - vm_compute. reflexivity.
  - apply (bool_decide_unpack _). vm_compute. exact I.
Defined.

End Table.

(** * File names ([misc.c]) *)

Module Names.

Section Slash.

(** [IS_SLASH], a macro of [misc.h], which is not among the sources: the
    test for a character that separates directories. *)
Variable IS_SLASH : Z → bool.

(** The loop of [basename].  A pointer into the name is the part of the
    array from it on: [fname] is the running pointer, [base] the one
    returned; the array ends at its NUL. *)
Fixpoint basename_loop (fname base : list Z) : list Z :=
  match fname with
  | [] => base
  | c :: rest =>
      if c =? 0 then base
      else basename_loop rest (if IS_SLASH c then rest else base)
  end.

(** [basename (fname)], for a name that is not [NULL]: the characters from
    the pointer returned. *)
Definition basename (fname : list Z) : list Z :=
  if negb (at_ fname 0 =? 0) then
    let fname :=
      if negb (at_ fname 0 =? 0) && (at_ fname 1 =? 58) then drop 2 fname else fname in
    basename_loop fname fname
  else fname.

Lemma basename_loop_spec (fname mid : list Z) :
  Forall (λ c, c ≠ 0) fname → Forall (λ c, IS_SLASH c = false) mid →
  ∃ pre, mid ++ fname = pre ++ basename_loop fname (mid ++ fname)
         ∧ Forall (λ c, IS_SLASH c = false) (basename_loop fname (mid ++ fname))
         ∧ (pre = [] ∨ ∃ p c, pre = p ++ [c] ∧ IS_SLASH c = true).
Proof.
  revert mid. induction fname as [|c rest IH]; intros mid Hnz Hmid.
  - cbn [basename_loop]. exists []. split; [done|]. split; [|by left].
    by rewrite app_nil_r.
  - apply Forall_cons in Hnz as [Hc Hrest]. cbn [basename_loop].
    destruct (Z.eqb_spec c 0) as [|_]; [done|].
    destruct (IS_SLASH c) eqn:Hs.
    + destruct (IH [] Hrest ltac:(constructor)) as (pre & Heq & Hall & Hpre).
      cbn [app] in Heq, Hall. exists (mid ++ c :: pre). split.
      * rewrite <- app_assoc. cbn [app]. by rewrite <- Heq.
      * split; [done|]. right. destruct Hpre as [-> | (p & c' & -> & Hc')].
        -- by exists mid, c.
        -- exists (mid ++ c :: p), c'. split; [|done].
           by rewrite <- app_assoc.
    + destruct (IH (mid ++ [c]) Hrest) as (pre & Heq & Hall & Hpre).
      { apply Forall_app. split; [done | by constructor]. }
      rewrite <- app_assoc in Heq, Hall. cbn [app] in Heq, Hall.
      by exists pre.
Qed.

End Slash.

(** X27.  [basename] returns the last component of a name.  For the
    characters of a name (none of them NUL): what is returned is an end of
    the name that holds no slash, and what precedes it is nothing, or
    ends in a slash, or is the drive letter and its colon. *)
Theorem basename_last_component (IS_SLASH : Z → bool) (fname : list Z) :
  Forall (λ c, c ≠ 0) fname →
  ∃ pre, fname = pre ++ basename IS_SLASH fname
         ∧ Forall (λ c, IS_SLASH c = false) (basename IS_SLASH fname)
         ∧ (pre = [] ∨ (∃ p c, pre = p ++ [c] ∧ IS_SLASH c = true)
            ∨ ∃ d, pre = [d; 58]).
Proof.
  intros Hnz. unfold basename.
  destruct fname as [|c0 rest]; [by exists []; split; [|split; [|left]]|].
  change (at_ (c0 :: rest) 0) with c0.
  pose proof (proj1 (Forall_cons _ _ _) Hnz) as [Hc0 Hrest].
  destruct (Z.eqb_spec c0 0) as [|_]; [done|]. cbn [negb andb]. cbv zeta.
  destruct (at_ (c0 :: rest) 1 =? 58) eqn:Hcolon.
  - destruct rest as [|c1 rest']; [done|].
    change (at_ (c0 :: c1 :: rest') 1) with c1 in Hcolon.
    apply Z.eqb_eq in Hcolon as ->. cbn [drop].
    apply Forall_cons in Hrest as [_ Hrest'].
    destruct (basename_loop_spec IS_SLASH rest' [] Hrest' ltac:(constructor))
      as (pre & Heq & Hall & Hpre).
    cbn [app] in Heq, Hall. exists (c0 :: 58 :: pre). split; [by rewrite Heq at 1|].
    split; [done|]. destruct Hpre as [-> | (p & c & -> & Hc)].
    + right. right. by exists c0.
    + right. left. by exists (c0 :: 58 :: p), c.
  - destruct (basename_loop_spec IS_SLASH (c0 :: rest) [] Hnz ltac:(constructor))
      as (pre & Heq & Hall & Hpre).
    cbn [app] in Heq, Hall. exists pre. split; [done|]. split; [done|].
    destruct Hpre as [-> | Hpre]; [by left | by right; left].
Qed.

Lemma basename_last_component_witness :
  let IS_SLASH := λ c, (c =? 47) || (c =? 92) in
  let fname := [99; 58; 92; 97; 47; 98; 46; 99] in
  ∃ pre, fname = pre ++ basename IS_SLASH fname
         ∧ Forall (λ c, IS_SLASH c = false) (basename IS_SLASH fname)
         ∧ (pre = [] ∨ (∃ p c, pre = p ++ [c] ∧ IS_SLASH c = true)
            ∨ ∃ d, pre = [d; 58]).
Proof.
  apply (basename_last_component (λ c, (c =? 47) || (c =? 92))
           [99; 58; 92; 97; 47; 98; 46; 99]).
  repeat (constructor; [lia|]). constructor.
Defined.

End Names.
